(** * OpenMemory vector stores: Valkey (key/value) and Postgres (relational)

    A shallow embedding of
      packages/openmemory-js/src/core/vector/valkey.ts
      packages/openmemory-js/src/core/vector/postgres.ts
    together with the store commands the two classes issue, and the
    properties of the vector-store contract established on it.

    Conventions.
    - A JavaScript [number] holding a vector component or a score is an
      IEEE-754 binary64 value: Rocq's primitive [float].
    - [dim] and [topK] are integers of the contract ([Z] and [nat]).
    - A Redis key, field name or value is a byte string: [string].
      A Node [Buffer] is a byte string as well.
    - The key/value client hands the value of a hash field back as a
      string, the stored bytes read as text.  A reply is kept here as
      the bytes it was made from; it is empty exactly when they are.
      What the codec makes of such a string is the codec's
      ([bufferToVector_reply]).
    - A call that can throw returns an [outcome]: the value returned or
      the failure thrown.
    - An optional string parameter ([user_id?: string]) is [option string];
      JavaScript truthiness decides whether it counts as given. *)

From Stdlib Require Import ZArith List String Ascii Bool Lia Floats Sorted.
From stdpp Require Import gmap strings list fin_maps pretty.


(* ===================================================================== *)
(** * JavaScript strings *)
(* ===================================================================== *)

Module JS.

(** [s.split(sep)] for a one-character separator: never the empty array. *)
Fixpoint split (sep : ascii) (s : string) : list string :=
  match s with
  | EmptyString => [EmptyString]
  | String c s' =>
      if Ascii.eqb c sep then EmptyString :: split sep s'
      else match split sep s' with
           | [] => [String c EmptyString]
           | p :: ps => String c p :: ps
           end
  end.

(** [arr.pop()] as an expression: the last element ([undefined] on the
    empty array, which [split] never returns). *)
Definition pop (parts : list string) : option string := last parts.

(** [key.split(":").pop()!] *)
Definition split_pop (key : string) : string :=
  default EmptyString (pop (split ":" key)).

(** Truthiness of a string value that may be [undefined]/[null]. *)
Definition truthy_str (o : option string) : bool :=
  match o with
  | None => false
  | Some EmptyString => false
  | Some _ => true
  end.

(** [x || d] on an optional string. *)
Definition or_default (o : option string) (d : string) : string :=
  match o with
  | Some s => if truthy_str o then s else d
  | None => d
  end.

(** Truthiness of a number: false for [+0], [-0] and [NaN]. *)
Definition truthy_num (x : float) : bool :=
  negb (PrimFloat.eqb x 0) && negb (PrimFloat.is_nan x).

(** Occurrence of a character in a string. *)
Fixpoint contains (c : ascii) (s : string) : bool :=
  match s with
  | EmptyString => false
  | String c' s' => Ascii.eqb c' c || contains c s'
  end.

End JS.

(** A string without the key separator [':']. *)
Definition colon_free (s : string) : Prop := JS.contains ":" s = false.

(* ===================================================================== *)
(** * Glob patterns of [SCAN ... MATCH]

    The key/value server matches the [MATCH] argument as a glob pattern
    ([*], [?], [[...]] with [^] and ranges, [\] as escape).  The pattern is
    read into tokens first, and the tokens are matched against the key. *)
(* ===================================================================== *)

Module Glob.

Inductive class_item :=
| CChar (c : ascii)
| CRange (lo hi : ascii).

Inductive token :=
| TStar
| TAny
| TLit (c : ascii)
| TClass (neg : bool) (items : list class_item).

Fixpoint parse (p : string) : list token :=
  match p with
  | EmptyString => []
  | String "*" r => TStar :: parse r
  | String "?" r => TAny :: parse r
  | String "[" r =>
      match r with
      | String "^" r' => parse_class true [] r'
      | _ => parse_class false [] r
      end
  | String "\" r =>
      match r with
      | String c r' => TLit c :: parse r'
      | EmptyString => [TLit "\"]
      end
  | String c r => TLit c :: parse r
  end
with parse_class (neg : bool) (acc : list class_item) (p : string)
  : list token :=
  match p with
  | EmptyString => [TClass neg (rev acc)]
  | String "]" r => TClass neg (rev acc) :: parse r
  | String "\" (String c r) => parse_class neg (CChar c :: acc) r
  | String a (String "-" (String b r)) =>
      parse_class neg (CRange a b :: acc) r
  | String c r => parse_class neg (CChar c :: acc) r
  end.

Definition item_match (c : ascii) (it : class_item) : bool :=
  match it with
  | CChar x => Ascii.eqb x c
  | CRange lo hi =>
      let l := N.min (N_of_ascii lo) (N_of_ascii hi) in
      let h := N.max (N_of_ascii lo) (N_of_ascii hi) in
      (l <=? N_of_ascii c)%N && (N_of_ascii c <=? h)%N
  end.

Fixpoint tokens_match (ts : list token) (s : string) : bool :=
  match ts with
  | [] => match s with EmptyString => true | _ => false end
  | TStar :: ts' =>
      (fix star (s : string) : bool :=
         tokens_match ts' s ||
         match s with
         | EmptyString => false
         | String _ s' => star s'
         end) s
  | TAny :: ts' =>
      match s with
      | String _ s' => tokens_match ts' s'
      | EmptyString => false
      end
  | TLit c :: ts' =>
      match s with
      | String c' s' => Ascii.eqb c c' && tokens_match ts' s'
      | EmptyString => false
      end
  | TClass neg items :: ts' =>
      match s with
      | String c' s' =>
          xorb neg (existsb (item_match c') items) && tokens_match ts' s'
      | EmptyString => false
      end
  end.

Definition matches (pattern key : string) : bool :=
  tokens_match (parse pattern) key.

(** A character the pattern language gives a meaning to outside a class. *)
Definition meta (c : ascii) : bool :=
  match c with
  | "*" | "?" | "[" | "\" => true
  | _ => false
  end%char.

Fixpoint plain (s : string) : bool :=
  match s with
  | EmptyString => true
  | String c s' => negb (meta c) && plain s'
  end.

(** The tokens of a pattern without metacharacters. *)
Fixpoint literal (s : string) : list token :=
  match s with
  | EmptyString => []
  | String c s' => TLit c :: literal s'
  end.

End Glob.

(** A string with no glob metacharacter: as a pattern it matches itself only. *)
Definition glob_free (s : string) : Prop := Glob.plain s = true.


(* ===================================================================== *)
(** * Numbers crossing the store boundary *)
(* ===================================================================== *)

Module Num.

(** Value of a character as a digit, for radix up to 16. *)
Definition digit_value (c : ascii) : option Z :=
  let n := Z.of_N (N_of_ascii c) in
  if (48 <=? n)%Z && (n <=? 57)%Z then Some (n - 48)%Z
  else if (97 <=? n)%Z && (n <=? 102)%Z then Some (n - 87)%Z
  else if (65 <=? n)%Z && (n <=? 70)%Z then Some (n - 55)%Z
  else None.

(** The longest prefix of digits of the radix; [None] when it is empty. *)
Fixpoint digits (radix : Z) (acc : option Z) (s : string) : option Z :=
  match s with
  | EmptyString => acc
  | String c s' =>
      match digit_value c with
      | Some d =>
          if (d <? radix)%Z
          then digits radix (Some (radix * default 0%Z acc + d)%Z) s'
          else acc
      | None => acc
      end
  end.

Fixpoint trim_start (s : string) : string :=
  match s with
  | String c s' => if Ascii.is_space c then trim_start s' else s
  | EmptyString => EmptyString
  end.

(** The digits after the sign: in radix 16 behind a [0x] prefix, in
    radix 10 otherwise. *)
Definition parse_magnitude (s : string) : option Z :=
  let '(radix, s) :=
    match s with
    | String "0" (String "x" r) | String "0" (String "X" r) => (16%Z, r)
    | _ => (10%Z, s)
    end in
  digits radix None s.

(** [parseInt(s)]: leading white space, a sign, then the digits; [None]
    is [NaN]. *)
Definition parseInt (s : string) : option Z :=
  match trim_start s with
  | String "-" r => Z.opp <$> parse_magnitude r
  | String "+" r => parse_magnitude r
  | s' => parse_magnitude s'
  end.

(** A string of decimal digits. *)
Fixpoint all_digits (s : string) : bool :=
  match s with
  | EmptyString => true
  | String c s' =>
      match Ascii.is_nat c with Some _ => true | None => false end
      && all_digits s'
  end.

(** An integer the host writes as a plain decimal numeral: one below
    [10^21] in absolute value. *)
Definition decimal (n : Z) : Prop := (Z.abs n < 10 ^ 21)%Z.

(** A digit string without its trailing zeros. *)
Fixpoint trim_zeros (s : string) : string :=
  match s with
  | EmptyString => EmptyString
  | String c s' =>
      match trim_zeros s' with
      | EmptyString => if Ascii.eqb c "0" then EmptyString
                       else String c EmptyString
      | t => String c t
      end
  end.

(** Exponent notation [d.ddde+XX] of a number with the significant
    digits [m] and [k] digits in all. *)
Definition exponent (m : string) (k : nat) : string :=
  match m with
  | EmptyString => EmptyString
  | String c rest =>
      String c (match rest with
                | EmptyString => EmptyString
                | _ => "." +:+ rest
                end)
      +:+ "e+" +:+ pretty (k - 1)%nat
  end.

(** [String(n)] for an integer-valued number, which is how the client
    writes a number into a hash: the decimal numeral below [10^21],
    exponent notation from there on (["1e+21"] for [10^21]).  In exponent
    notation the host writes the shortest digits that read back as the
    same binary64 number; the digits written here are those of the
    integer without its trailing zeros, which are the host's digits for
    an integer that 15 digits or fewer identify.  Different integers
    have different numerals either way. *)
Definition toString (n : Z) : string :=
  if (Z.abs n <? 10 ^ 21)%Z then pretty n
  else
    let s := pretty (Z.to_N (Z.abs n)) in
    (if (n <? 0)%Z then "-" else EmptyString)
    +:+ exponent (trim_zeros s) (String.length s).

(** [n] zeros. *)
Fixpoint zeros (n : nat) : string :=
  match n with
  | O => EmptyString
  | S n' => String "0" (zeros n')
  end.

(** The text before the first [c], and the text after it. *)
Fixpoint cut (c : ascii) (s : string) : string * option string :=
  match s with
  | EmptyString => (EmptyString, None)
  | String d s' =>
      if Ascii.eqb d c then (EmptyString, Some s')
      else let '(a, b) := cut c s' in (String d a, b)
  end.

Fixpoint remove (c : ascii) (s : string) : string :=
  match s with
  | EmptyString => EmptyString
  | String d s' =>
      if Ascii.eqb d c then remove c s' else String d (remove c s')
  end.

(** [parseInt] of a field that may be missing ([parseInt(null)] is NaN). *)
Definition parseInt_field (o : option string) : option Z := o ≫= parseInt.

(** The integer a numeral in exponent notation stands for. *)
Definition read_exponent (s : string) : option Z :=
  match cut "e" s with
  | (m, Some e) =>
      let ds := remove "." m in
      match digits 10 None ds, parseInt e with
      | Some v, Some k =>
          Some (v * 10 ^ (k + 1 - Z.of_nat (String.length ds)))%Z
      | _, _ => None
      end
  | _ => None
  end.

(** The integer a numeral written by [toString] stands for.  ([parseInt],
    which the reads use, stops at the first character that is not a
    digit: it reads a numeral in exponent notation as its first digit.) *)
Definition read (s : string) : option Z :=
  if JS.contains "e" s then
    match s with
    | String "-" r => Z.opp <$> read_exponent r
    | _ => read_exponent s
    end
  else parseInt s.

(** Scores listed in non-increasing order. *)
Fixpoint non_increasing (l : list float) : bool :=
  match l with
  | [] => true
  | x :: l' =>
      match l' with
      | [] => true
      | y :: _ => PrimFloat.leb y x && non_increasing l'
      end
  end.

(** The comparator [(a, b) => b.score - a.score] orders the scores [x]
    of [a] and [y] of [b] as [<=] does: [a] goes behind [b] only if
    [x <= y], and stays before it only if [y <= x].  Two numbers that
    are not NaN are ordered this way. *)
Definition difference_orders (x y : float) : bool :=
  if PrimFloat.ltb 0 (y - x) then PrimFloat.leb x y else PrimFloat.leb y x.

(** A relation on every pair of a list. *)
Definition pairwise (ok : float → float → bool) (l : list float) : bool :=
  forallb (λ x, forallb (ok x) l) l.

(** Every element is at least every later one. *)
Fixpoint all_non_increasing (l : list float) : bool :=
  match l with
  | [] => true
  | x :: l' => forallb (λ y, PrimFloat.leb y x) l' && all_non_increasing l'
  end.

End Num.

(* ===================================================================== *)
(** * The contract's types ([../vector_store]) and its collaborators *)
(* ===================================================================== *)

Definition vector := list float.
Definition Buffer := string.

(** [{ id, score }] *)
Record scored := Scored { s_id : string; s_score : float }.

(** [{ vector, dim }]; [dim] is [None] when the number is [NaN]. *)
Record vec_dim := VecDim { vd_vector : vector; vd_dim : option Z }.

(** [{ sector, vector, dim }]; [sector] is [None] when [undefined]. *)
Record by_id := ById { bi_sector : option string; bi_vector : vector; bi_dim : option Z }.

(** [{ id, vector, dim }] *)
Record by_sector := BySector { bs_id : string; bs_vector : vector; bs_dim : option Z }.

(** A call of the contract that changes the store. *)
Inductive write :=
| StoreVector (id sector : string) (vector : vector) (dim : Z)
    (user_id : option string)
| DeleteVector (id sector : string)
| DeleteVectors (id : string).

(** Section 4.4 of the specification in its own words: the dot product
    and the Euclidean norm of vectors, components taken in index order. *)
Module Cosine.
Definition dot (a b : vector) : float :=
  fold_left (λ acc xy, (acc + fst xy * snd xy)%float) (combine a b) 0%float.

(** The squared norm: the dot product of a vector with itself. *)
Definition norm2 (a : vector) : float := dot a a.

Definition norm (a : vector) : float := PrimFloat.sqrt (norm2 a).

(** The norm is a number other than zero. *)
Definition nonzero_norm (a : vector) : Prop :=
  JS.truthy_num (norm a) = true.

(** The norm is zero: the sum of the squares is ([+0] or [-0]). *)
Definition zero_norm (a : vector) : Prop :=
  PrimFloat.eqb (norm2 a) 0 = true.

Definition similarity (a b : vector) : float :=
  (dot a b / (norm a * norm b))%float.
End Cosine.

(* ===================================================================== *)
(** * [Array.prototype.sort] and [slice] *)
(* ===================================================================== *)

(** A stable sort driven by a "goes behind" test: [x] ends up behind [y]
    when [behind x y] holds and before it otherwise, elements that are not
    moved keeping their order. *)
Module Stable.
Section Sort.
Context {A : Type} (behind : A → A → bool).

Fixpoint insert (x : A) (l : list A) : list A :=
  match l with
  | [] => [x]
  | y :: l' => if behind x y then y :: insert x l' else x :: l
  end.

Definition sort (l : list A) : list A := foldr insert [] l.
End Sort.
End Stable.

Module JSArray.
(** [arr.sort(cmp)]: [x] is placed behind [y] exactly when
    [cmp(x, y) > 0]. *)
Definition sort {A} (cmp : A → A → float) (l : list A) : list A :=
  Stable.sort (λ x y, PrimFloat.ltb 0 (cmp x y)) l.

(** [arr.slice(0, k)] for a count [k]. *)
Definition slice0 {A} (k : nat) (l : list A) : list A := firstn k l.
End JSArray.

(* ===================================================================== *)
(** * The key/value server: keyspace of hashes and the commands used *)
(* ===================================================================== *)

Module Redis.

Abbreviation hash := (gmap string string).
Abbreviation store := (gmap string (gmap string string)).

(** [HSET key f1 v1 f2 v2 ...]: the given fields are set, the other
    fields of an existing hash stay. *)
Definition hset (key : string) (fields : list (string * string))
    (σ : store) : store :=
  <[ key := list_to_map fields ∪ default ∅ (σ !! key) ]> σ.

(** [DEL k1 k2 ...] *)
Definition del (keys : list string) (σ : store) : store :=
  foldr delete σ keys.

(** [HMGET key f1 f2 ...]: one reply per field, [None] ([null]) for a
    missing field or key; the reply for a field that is there is the
    string the client makes of its bytes, given here by these bytes. *)
Definition hmget (key : string) (fields : list string) (σ : store)
    : list (option string) :=
  map (λ f, σ !! key ≫= (λ h : hash, h !! f)) fields.

(** The keys of the keyspace. *)
Definition keys (σ : store) : list string := (map_to_list σ).*1.

(** The server's cursor.  A full iteration of [SCAN] walks the keyspace
    in an order of the server's own and returns every key that is there
    throughout the iteration; it may return a key more than once. *)
Class Server := {
  walk : store → list string;
  walk_keys : ∀ σ k, In k (walk σ) ↔ is_Some (σ !! k)
}.

(** Pages of at most [count] elements; there is always a last page, on
    which the server answers with cursor ["0"]. *)
Fixpoint paginate {A} (count : nat) (l : list A) : list (list A) :=
  match l with
  | [] => [[]]
  | x :: l' =>
      match paginate count l' with
      | p :: ps =>
          if (length p <? count)%nat then (x :: p) :: ps
          else [x] :: p :: ps
      | [] => [[x]]
      end
  end.

(** A full [SCAN cursor MATCH pattern COUNT count] iteration from cursor
    ["0"] back to ["0"]: the successive replies.  [COUNT] bounds the
    elements visited per call; [MATCH] is applied to each page after it,
    so that a page may be empty.  The iteration walks the keyspace as it
    is when it starts. *)
Definition scan {server : Server} (pattern : string) (count : nat)
    (σ : store) : list (list string) :=
  map (List.filter (Glob.matches pattern)) (paginate count (walk σ)).

(** What a call can throw: the ways a call to the server can fail, and
    the failure of the codec that is handed a value it cannot decode. *)
Inductive failure :=
| IndexMissing
| UnsupportedQuery
| FeatureGap
| Unreachable
| AuthFailure
| CodecFailure.

Definition transport (e : failure) : bool :=
  match e with
  | Unreachable | AuthFailure => true
  | _ => false
  end.

Inductive outcome (A : Type) :=
| Returned (a : A)
| Thrown (e : failure).
Arguments Returned {A} a.
Arguments Thrown {A} e.

(** Sequencing: a failure ends the call. *)
Definition bind {A B} (o : outcome A) (f : A → outcome B) : outcome B :=
  match o with
  | Returned a => f a
  | Thrown e => Thrown e
  end.

(** [results.forEach(...)] with a callback that pushes entries and may
    throw: the entries pushed for all the elements, or the first
    failure. *)
Fixpoint collect {A B} (f : A → outcome (list B)) (l : list A)
    : outcome (list B) :=
  match l with
  | [] => Returned []
  | x :: l' =>
      bind (f x) (λ ys, bind (collect f l') (λ zs, Returned (ys ++ zs)))
  end.

(** The [do ... while] loop over the pages of a scan, with [f] the
    entries read from a key: a page without keys is skipped, the entries
    of the others are appended, and a failure ends the loop. *)
Definition collect_pages {A B} (f : A → outcome (list B))
    (pages : list (list A)) : outcome (list B) :=
  fold_left
    (λ results keys,
       match keys with
       | [] => results
       | _ =>
           bind results (λ acc,
             bind (collect f keys) (λ more, Returned (acc ++ more)))
       end)
    pages (Returned []).

(** The call returns. *)
Definition returned {A} (o : outcome A) : Prop := ∃ a, o = Returned a.

(** The call returns a list that has the entry [x]. *)
Definition lists {A} (o : outcome (list A)) (x : A) : Prop :=
  ∃ out, o = Returned out ∧ In x out.

(** A document of an [FT.SEARCH] reply: its key and its flat list of
    field names and values.  The reply's leading count is left out: the
    reader starts at index 1. *)
Definition document : Type := string * list string.

(** What the connection answers to the calls of [searchSimilar]:
    [FT.SEARCH index query PARAMS 2 blob <blob> DIALECT 2] with the
    requested number of neighbours, and whether the scan commands of the
    fallback get through. *)
Record client := Client {
  ft_search : string → nat → Buffer → outcome (list document);
  scan_fault : option failure
}.

End Redis.

(* ===================================================================== *)
(** * The collaborators *)
(* ===================================================================== *)

(** The imports from [../../memory/embed]: the vector codec and the shared
    cosine similarity.  Their code is outside the two files; they are
    taken as parameters.

    [bufferToVector] is called in two ways.  postgres.ts hands it the
    Buffer of a [bytea] column.  valkey.ts hands it the [v] of a reply of
    [hmget]: the client is the string client, so that this is a string
    (the payload bytes read as text), or [null] for a missing field,
    passed on under the cast [as unknown as Buffer].  What the codec does
    with such a value is [bufferToVector_reply], given the payload bytes
    the reply was made from: it may return a vector, and it may throw. *)
Class Embed := {
  vectorToBuffer : vector → Buffer;
  bufferToVector : Buffer → vector;
  bufferToVector_reply : option Buffer → Redis.outcome vector;
  cosineSimilarity : vector → vector → float
}.

(** Built-ins of the host language used on values coming from the wire. *)
Class Host := {
  parseFloat : string → float;
  JSON_stringify : vector → string;
  JSON_parse : string → vector
}.

(** The relational engine's vector extension: the column type, the casts
    [$n::vector] and [v::text], and the distance operator [<=>].  The
    engine refuses a statement whose cast or operator it cannot evaluate:
    [vector_accepts] says which texts the cast takes, [distance_accepts]
    which pairs of vectors the operator takes. *)
Class PgVector := {
  pg_vector : Type;
  vector_in : string → pg_vector;
  vector_out : pg_vector → string;
  cosine_distance : pg_vector → pg_vector → float;
  vector_accepts : string → bool;
  distance_accepts : pg_vector → pg_vector → bool
}.

(* ===================================================================== *)
(** * valkey.ts: [ValkeyVectorStore] *)
(* ===================================================================== *)

Module Valkey.
Import Redis.

Definition getKey (id sector : string) : string :=
  "vec:" +:+ sector +:+ ":" +:+ id.

Section Store.
Context {embed : Embed} {host : Host} {server : Server}.

Definition storeVector (id sector : string) (vector : vector) (dim : Z)
    (user_id : option string) (σ : store) : store :=
  let key := getKey id sector in
  let buf := vectorToBuffer vector in
  hset key
    [ ("v", buf);
      ("dim", Num.toString dim);
      ("user_id", JS.or_default user_id "anonymous");
      ("id", id);
      ("sector", sector) ] σ.

Definition deleteVector (id sector : string) (σ : store) : store :=
  let key := getKey id sector in
  del [key] σ.

Definition deleteVectors (id : string) (σ : store) : store :=
  fold_left
    (λ σ' keys, match keys with [] => σ' | _ => del keys σ' end)
    (scan ("vec:*:" +:+ id) 100 σ) σ.

(** The inner loop over [fields], two entries at a time. *)
Fixpoint read_fields (fields : list string)
    (st : string * float * string) : string * float * string :=
  match fields with
  | [] => st
  | [name] =>
      let '(id, dist, vec_user_id) := st in
      (if String.eqb name "id" then EmptyString else id,
       if String.eqb name "score" then nan else dist,
       if String.eqb name "user_id" then EmptyString else vec_user_id)
  | name :: value :: rest =>
      let '(id, dist, vec_user_id) := st in
      read_fields rest
        (if String.eqb name "id" then value else id,
         if String.eqb name "score" then parseFloat value else dist,
         if String.eqb name "user_id" then value else vec_user_id)
  end.

(** [!user_id || vec_user_id === user_id] *)
Definition tenant_ok (user_id : option string) (vec_user_id : option string)
    : bool :=
  negb (JS.truthy_str user_id) ||
  match user_id, vec_user_id with
  | Some u, Some w => String.eqb w u
  | _, _ => false
  end.

(** The body of the loop over the reply up to the tenant test: the
    entry to push and the tenant read from the fields. *)
Definition read_document (d : document) : scored * string :=
  let '(key, fields) := d in
  let '(id, dist, vec_user_id) :=
    read_fields fields (EmptyString, 0%float, EmptyString) in
  let id :=
    if JS.truthy_str (Some id) then id else JS.split_pop key in
  (Scored id (1 - dist)%float, vec_user_id).

(** The loop over the reply's documents, with its [break]. *)
Fixpoint read_documents (res : list document) (topK : nat)
    (user_id : option string) (results : list scored) : list scored :=
  match res with
  | [] => results
  | d :: rest =>
      let '(entry, vec_user_id) := read_document d in
      if tenant_ok user_id (Some vec_user_id) then
        let results := results ++ [entry] in
        if (topK <=? length results)%nat then results
        else read_documents rest topK user_id results
      else read_documents rest topK user_id results
  end.

(** The [for] loop of [cosineSimilarity]: [dot], [na] and [nb] at its
    end. *)
Definition cosine_sums (a b : vector) : float * float * float :=
  fold_left
    (λ '(dot, na, nb) i,
       let ai := default nan (a !! i) in
       let bi := default nan (b !! i) in
       (dot + ai * bi, na + ai * ai, nb + bi * bi)%float)
    (seq 0 (length a)) (0, 0, 0)%float.

Definition cosineSimilarity (a b : vector) : float :=
  if negb (length a =? length b)%nat then 0%float
  else
    let '(dot, na, nb) := cosine_sums a b in
    if JS.truthy_num na && JS.truthy_num nb
    then (dot / (PrimFloat.sqrt na * PrimFloat.sqrt nb))%float
    else 0%float.

(** The fallback's scan: [allVecs] at the end of the [do ... while]
    loop.  A candidate of another tenant is dropped before its payload is
    decoded; the codec is handed the [v] of the reply as it is. *)
Definition scan_all (sector : string) (user_id : option string)
    (σ : store) : outcome (list (string * vector)) :=
  collect_pages
    (λ k,
       match hmget k ["v"; "user_id"] σ with
       | [buf; vec_user_id] =>
           let id := JS.split_pop k in
           if tenant_ok user_id vec_user_id
           then bind (bufferToVector_reply buf)
                  (λ vector, Returned [(id, vector)])
           else Returned []
       | _ => Returned []
       end)
    (scan ("vec:" +:+ sector +:+ ":*") 100 σ).

(** [sims] before it is sorted. *)
Definition fallback_sims (sector : string) (queryVec : vector)
    (user_id : option string) (σ : store) : outcome (list scored) :=
  bind (scan_all sector user_id σ) (λ allVecs,
    Returned
      (map (λ v, Scored (fst v) (cosineSimilarity queryVec (snd v)))
           allVecs)).

(** The [catch] block after its warning, the scan commands getting
    through. *)
Definition fallback (sector : string) (queryVec : vector) (topK : nat)
    (user_id : option string) (σ : store) : outcome (list scored) :=
  bind (fallback_sims sector queryVec user_id σ) (λ sims,
    let sims :=
      JSArray.sort (λ a b, (s_score b - s_score a)%float) sims in
    Returned (JSArray.slice0 topK sims)).

(** [searchSimilar]: the warnings written, and the value returned or
    the failure thrown. *)
Definition searchSimilar (c : client) (sector : string)
    (queryVec : vector) (topK : nat) (user_id : option string)
    (σ : store) : list (string * failure) * outcome (list scored) :=
  let indexName := "idx:" +:+ sector in
  let blob := vectorToBuffer queryVec in
  match ft_search c indexName (topK * 2) blob with
  | Returned res => ([], Returned (read_documents res topK user_id []))
  | Thrown e =>
      ([(sector, e)],
       match scan_fault c with
       | Some e' => Thrown e'
       | None => fallback sector queryVec topK user_id σ
       end)
  end.

(** [res[0]] is the string of the reply: it is tested for emptiness,
    then handed to the codec under the cast [as unknown as Buffer]. *)
Definition getVector (id sector : string) (σ : store)
    : outcome (option vec_dim) :=
  let key := getKey id sector in
  match hmget key ["v"; "dim"] σ with
  | [v; dim] =>
      if negb (JS.truthy_str v) then Returned None
      else
        bind (bufferToVector_reply v) (λ vector,
          Returned (Some (VecDim vector (Num.parseInt_field dim))))
  | _ => Returned None
  end.

(** The listings: one entry for every key a page of the scan returns,
    in the order of the scan, the [v] of each reply handed to the codec
    as it is.  A key the scan returns twice is read twice. *)
Definition getVectorsById (id : string) (σ : store)
    : outcome (list by_id) :=
  collect_pages
    (λ key,
       match hmget key ["v"; "dim"] σ with
       | [v; dim] =>
           let parts := JS.split ":" key in
           let sector := parts !! 1%nat in
           bind (bufferToVector_reply v) (λ vector,
             Returned [ById sector vector (Num.parseInt_field dim)])
       | _ => Returned []
       end)
    (scan ("vec:*:" +:+ id) 100 σ).

Definition getVectorsBySector (sector : string) (σ : store)
    : outcome (list by_sector) :=
  collect_pages
    (λ key,
       match hmget key ["v"; "dim"] σ with
       | [v; dim] =>
           let id := JS.split_pop key in
           bind (bufferToVector_reply v) (λ vector,
             Returned [BySector id vector (Num.parseInt_field dim)])
       | _ => Returned []
       end)
    (scan ("vec:" +:+ sector +:+ ":*") 100 σ).

(** One write of the contract on this class. *)
Definition perform (w : write) (σ : store) : store :=
  match w with
  | StoreVector id sector vector dim user_id =>
      storeVector id sector vector dim user_id σ
  | DeleteVector id sector => deleteVector id sector σ
  | DeleteVectors id => deleteVectors id σ
  end.

End Store.

(** ** Records of the keyspace

    What [storeVector] leaves under a key: the five fields of one
    record.  A record is identified by the [id] and [sector] it was
    stored with, which its hash carries as fields. *)

Record record := Rec {
  rec_id : string;
  rec_sector : string;
  rec_user_id : string;
  rec_v : Buffer;
  rec_dim : Z
}.

Definition hash_of (r : record) : hash :=
  list_to_map
    [ ("v", rec_v r);
      ("dim", Num.toString (rec_dim r));
      ("user_id", rec_user_id r);
      ("id", rec_id r);
      ("sector", rec_sector r) ].

Definition key_of (r : record) : string := getKey (rec_id r) (rec_sector r).

(** The store holds record [r]. *)
Definition holds (σ : store) (r : record) : Prop :=
  σ !! key_of r = Some (hash_of r).

(** The dim a read gives for a record: [parseInt] of the numeral that
    was written for it. *)
Definition dim_read (r : record) : option Z :=
  Num.parseInt (Num.toString (rec_dim r)).

(** What the codec makes of the reply that carries the payload of a
    record. *)
Definition decoded {embed : Embed} (r : record) : outcome vector :=
  bufferToVector_reply (Some (rec_v r)).

(** The codec decodes the reply for every record of the store. *)
Definition decodes {embed : Embed} (σ : store) : Prop :=
  ∀ r, holds σ r → returned (decoded r).

(** Every key of the store was written by [storeVector]. *)
Definition wf (σ : store) : Prop :=
  ∀ k h, σ !! k = Some h → ∃ r, k = key_of r ∧ h = hash_of r.

(** No stored record has a [':'] in its id or in its sector. *)
Definition colon_free_store (σ : store) : Prop :=
  ∀ r, holds σ r → colon_free (rec_id r) ∧ colon_free (rec_sector r).

(** No stored record has a [':'] in its id. *)
Definition colon_free_ids (σ : store) : Prop :=
  ∀ r, holds σ r → colon_free (rec_id r).

(** The flat field list of a reply document. *)
Definition flatten (pairs : list (string * string)) : list string :=
  flat_map (λ p, [fst p; snd p]) pairs.

(** Document [d] of a search reply reports record [r]: it carries the
    record's key, and the fields [id] and [user_id] it lists are the
    record's. *)
Definition reports (d : document) (r : record) : Prop :=
  fst d = key_of r ∧
  ∃ pairs, snd d = flatten pairs ∧
    ∀ n v, In (n, v) pairs →
      (n = "id" → v = rec_id r) ∧ (n = "user_id" → v = rec_user_id r).

(** The score the reader gives a reply document. *)
Definition listed_score {host : Host} (d : document) : float :=
  s_score (fst (read_document d)).

(** The record a call to [storeVector] writes. *)
Definition written {embed : Embed} (id sector : string) (vector : vector)
    (dim : Z) (user_id : option string) : record :=
  Rec id sector (JS.or_default user_id "anonymous")
      (vectorToBuffer vector) dim.

(** [id] is the id of a record stored under [sector]. *)
Definition in_sector (σ : store) (sector id : string) : Prop :=
  ∃ r, holds σ r ∧ rec_sector r = sector ∧ rec_id r = id.

(** What the store expects of the index of a sector when it answers a
    request for [topK * 2] neighbours: no more documents than asked
    for, each the document of a record of the sector, nearest first. *)
Definition index_reply {host : Host} (σ : store) (sector : string) (topK : nat)
    (res : list document) : Prop :=
  (length res ≤ topK * 2)%nat ∧
  (∀ d, In d res → ∃ r, holds σ r ∧ rec_sector r = sector ∧ reports d r) ∧
  Num.all_non_increasing (map listed_score res) = true.

(** Every stored record carries the length of its vector as [dim]. *)
Definition dim_invariant {embed : Embed} (σ : store) : Prop :=
  ∀ r, holds σ r →
    rec_dim r = Z.of_nat (length (bufferToVector (rec_v r))).

(** The states reached from the empty keyspace by the store's writes. *)
Inductive reachable {embed : Embed} {server : Server} : store → Prop :=
| reach_empty : reachable ∅
| reach_store id sector vector dim user_id σ :
    reachable σ → reachable (storeVector id sector vector dim user_id σ)
| reach_delete id sector σ :
    reachable σ → reachable (deleteVector id sector σ)
| reach_deletes id σ :
    reachable σ → reachable (deleteVectors id σ).

End Valkey.

(* ===================================================================== *)
(** * The relational engine: a table and the statements used *)
(* ===================================================================== *)

Module SQL.

(** Order of [float8] values in [ORDER BY]: NaN sorts behind every
    number and equal to itself. *)
Definition float8_lt (x y : float) : bool :=
  (negb (PrimFloat.is_nan x) && PrimFloat.is_nan y) || PrimFloat.ltb x y.

Section Statements.
Context {R : Type}.

(** [select ... from T where P] *)
Definition select_where (P : R → bool) (t : list R) : list R :=
  List.filter P t.

(** [delete from T where P] *)
Definition delete_where (P : R → bool) (t : list R) : list R :=
  List.filter (λ r, negb (P r)) t.

(** [... order by key] (ascending).  The engine fixes no order among
    rows of equal key; they are left here in the order of the table. *)
Definition order_by (key : R → float) (rows : list R) : list R :=
  Stable.sort (λ x y, float8_lt (key y) (key x)) rows.

(** [... limit k]: [k] rows of the ordered result. *)
Definition limit (k : nat) (rows : list R) : list R := firstn k rows.

(** [insert into T values new on conflict (key) do update set ...]:
    a new row is appended; a row in conflict is replaced by
    [merge old new], which the engine writes as a new version of the
    row: a scan of the table finds it behind the other rows. *)
Fixpoint insert_on_conflict (conflict : R → R → bool)
    (merge : R → R → R) (new : R) (t : list R) : list R :=
  match t with
  | [] => [new]
  | r :: t' =>
      if conflict r new then t' ++ [merge r new]
      else r :: insert_on_conflict conflict merge new t'
  end.

(** [get_async]: the first row of the result, or [null]. *)
Definition first_row (rows : list R) : option R := head rows.
End Statements.

(** Ascending distances [dx], [dy] give descending similarities
    [1 - dx], [1 - dy]: a row sorted behind another has the smaller or
    equal similarity.  Two distances that are not NaN are related this
    way. *)
Definition distance_orders (dx dy : float) : bool :=
  if float8_lt dy dx then PrimFloat.leb (1 - dx) (1 - dy)
  else PrimFloat.leb (1 - dy) (1 - dx).

End SQL.

(* ===================================================================== *)
(** * postgres.ts: [PostgresVectorStore] *)
(* ===================================================================== *)

Module Postgres.
Import SQL.

Section Store.
Context {embed : Embed} {host : Host} {pg : PgVector}.

(** The operations below give what a statement does when the engine
    carries it out.  In native mode the engine refuses a statement whose
    text it cannot cast to the vector type, or whose distances it cannot
    take: the call then throws and the table stays as it is.
    [store_accepted] and [search_accepted] say which calls are carried
    out. *)

(** Type of column [v]: the extension's vector type in native mode, a
    blob in compatibility mode. *)
Definition column (usePgVector : bool) : Type :=
  if usePgVector then pg_vector else Buffer.

(** A row of the table [id, sector, user_id, v, dim]. *)
Record row (usePgVector : bool) := Row {
  r_id : string;
  r_sector : string;
  r_user_id : string;
  r_v : column usePgVector;
  r_dim : Z
}.
Arguments Row {usePgVector}.
Arguments r_id {usePgVector}.
Arguments r_sector {usePgVector}.
Arguments r_user_id {usePgVector}.
Arguments r_v {usePgVector}.
Arguments r_dim {usePgVector}.

Definition table (usePgVector : bool) : Type := list (row usePgVector).

(** [where id=$1 and sector=$2] *)
Definition has_key {m} (id sector : string) (r : row m) : bool :=
  String.eqb (r_id r) id && String.eqb (r_sector r) sector.

(** [where id=$1] *)
Definition has_id {m} (id : string) (r : row m) : bool :=
  String.eqb (r_id r) id.

(** [where sector=$1] *)
Definition has_sector {m} (sector : string) (r : row m) : bool :=
  String.eqb (r_sector r) sector.

(** [on conflict(id,sector)] *)
Definition conflict {m} (r new : row m) : bool :=
  has_key (r_id new) (r_sector new) r.

(** [do update set user_id=excluded.user_id, v=excluded.v,
    dim=excluded.dim] *)
Definition excluded {m} (r new : row m) : row m :=
  Row (r_id r) (r_sector r) (r_user_id new) (r_v new) (r_dim new).

Definition upsert {m} (new : row m) (t : table m) : table m :=
  insert_on_conflict conflict excluded new t.

(** The value bound to column [v]: [JSON.stringify(vector)] cast to
    the vector type, or [vectorToBuffer(vector)]. *)
Definition encode_v (usePgVector : bool) (vector : vector)
    : column usePgVector :=
  match usePgVector as m return column m with
  | true => vector_in (JSON_stringify vector)
  | false => vectorToBuffer vector
  end.

(** The row a call to [storeVector] binds to its statement. *)
Definition written (usePgVector : bool) (id sector : string)
    (vector : vector) (dim : Z) (user_id : option string)
    : row usePgVector :=
  Row id sector (JS.or_default user_id "anonymous")
      (encode_v usePgVector vector) dim.

Definition storeVector (usePgVector : bool) (id sector : string)
    (vector : vector) (dim : Z) (user_id : option string)
    : table usePgVector → table usePgVector :=
  match usePgVector as m return table m → table m with
  | true => λ t,
      let v_str := JSON_stringify vector in
      upsert
        (Row (usePgVector := true) id sector
             (JS.or_default user_id "anonymous") (vector_in v_str) dim) t
  | false => λ t,
      let v := vectorToBuffer vector in
      upsert
        (Row (usePgVector := false) id sector
             (JS.or_default user_id "anonymous") v dim) t
  end.


Definition deleteVector {m} (id sector : string) (t : table m)
    : table m :=
  delete_where (has_key id sector) t.

Definition deleteVectors {m} (id : string) (t : table m) : table m :=
  delete_where (has_id id) t.

(** The [where] clause of [searchSimilar]: the sector, and the tenant
    when [user_id] is truthy. *)
Definition search_filter {m} (sector : string) (user_id : option string)
    (r : row m) : bool :=
  has_sector sector r &&
  match user_id with
  | Some u => if JS.truthy_str user_id then String.eqb (r_user_id r) u
              else true
  | None => true
  end.

Definition searchSimilar (usePgVector : bool) (sector : string)
    (queryVec : vector) (topK : nat) (user_id : option string)
    : table usePgVector → list scored :=
  match usePgVector as m return table m → list scored with
  | true => λ t,
      let v_str := JSON_stringify queryVec in
      let distance (r : row true) :=
        cosine_distance (r_v r) (vector_in v_str) in
      let rows :=
        limit topK
          (order_by distance
             (select_where (search_filter sector user_id) t)) in
      map (λ r, Scored (r_id r) (1 - distance r)%float) rows
  | false => λ t,
      let rows := select_where (search_filter sector user_id) t in
      let sims :=
        map (λ row : row false,
               let vec := bufferToVector (r_v row) in
               let sim := cosineSimilarity queryVec vec in
               Scored (r_id row) sim) rows in
      let sims :=
        JSArray.sort (λ a b, (s_score b - s_score a)%float) sims in
      JSArray.slice0 topK sims
  end.

(** The engine carries out the query of [searchSimilar]: in native
    mode the cast [$1::vector] takes the text of the query vector, and
    the operator [<=>] takes the query vector with the vector of every
    row the [where] clause selects. *)
Definition search_accepted (usePgVector : bool) (sector : string)
    (queryVec : vector) (user_id : option string)
    : table usePgVector → bool :=
  match usePgVector as m return table m → bool with
  | true => λ t,
      let v_str := JSON_stringify queryVec in
      vector_accepts v_str &&
      forallb (λ r : row true, distance_accepts (r_v r) (vector_in v_str))
        (select_where (search_filter sector user_id) t)
  | false => λ _, true
  end.

(** The distances the native query orders by. *)
Definition search_distances (sector : string) (queryVec : vector)
    (user_id : option string) (t : table true) : list float :=
  map (λ r : row true,
         cosine_distance (r_v r) (vector_in (JSON_stringify queryVec)))
      (select_where (search_filter sector user_id) t).

(** The similarities the compatibility mode sorts. *)
Definition search_scores (sector : string) (queryVec : vector)
    (user_id : option string) (t : table false) : list float :=
  map (λ row : row false,
         cosineSimilarity queryVec (bufferToVector (r_v row)))
      (select_where (search_filter sector user_id) t).

(** Reading column [v] back: [JSON.parse(v::text)] or
    [bufferToVector(v)]. *)
Definition read_v (usePgVector : bool) : column usePgVector → vector :=
  match usePgVector as m return column m → vector with
  | true => λ x, JSON_parse (vector_out x)
  | false => λ b, bufferToVector b
  end.

Definition getVector (usePgVector : bool) (id sector : string)
    (t : table usePgVector) : option vec_dim :=
  let row := first_row (select_where (has_key id sector) t) in
  match row with
  | None => None
  | Some row =>
      Some (VecDim (read_v usePgVector (r_v row)) (Some (r_dim row)))
  end.

Definition getVectorsById (usePgVector : bool) (id : string)
    (t : table usePgVector) : list by_id :=
  let rows := select_where (has_id id) t in
  map (λ row,
         ById (Some (r_sector row)) (read_v usePgVector (r_v row))
              (Some (r_dim row))) rows.

Definition getVectorsBySector (usePgVector : bool) (sector : string)
    (t : table usePgVector) : list by_sector :=
  let rows := select_where (has_sector sector) t in
  map (λ row,
         BySector (r_id row) (read_v usePgVector (r_v row))
                  (Some (r_dim row))) rows.

(** One write of the contract on this class. *)
Definition perform (usePgVector : bool) (w : write)
    (t : table usePgVector) : table usePgVector :=
  match w with
  | StoreVector id sector vector dim user_id =>
      storeVector usePgVector id sector vector dim user_id t
  | DeleteVector id sector => deleteVector id sector t
  | DeleteVectors id => deleteVectors id t
  end.

End Store.

Arguments Row {_ usePgVector}.
Arguments r_id {_ usePgVector}.
Arguments r_sector {_ usePgVector}.
Arguments r_user_id {_ usePgVector}.
Arguments r_v {_ usePgVector}.
Arguments r_dim {_ usePgVector}.

(** [id] is the id of a row stored under [sector]. *)
Definition in_sector {pg : PgVector} {m} (t : table m) (sector id : string)
    : Prop :=
  ∃ r, In r t ∧ r_sector r = sector ∧ r_id r = id.

(** Every row carries the length of its vector as [dim]. *)
Definition dim_invariant {embed : Embed} {host : Host} {pg : PgVector} (m : bool)
    (t : table m) : Prop :=
  ∀ r, In r t → r_dim r = Z.of_nat (length (read_v m (r_v r))).

(** The table's unique constraint on [(id, sector)]. *)
Definition unique_key {pg : PgVector} {m} (t : table m) : Prop :=
  NoDup (map (λ r, (r_id r, r_sector r)) t).

(** The tables reached from the empty one by the store's writes. *)
Inductive reachable {embed : Embed} {host : Host} {pg : PgVector} (m : bool)
  : table m → Prop :=
| table_empty : reachable m []
| table_store id sector vector dim user_id t :
    reachable m t → reachable m (storeVector m id sector vector dim user_id t)
| table_delete id sector t :
    reachable m t → reachable m (deleteVector id sector t)
| table_deletes id t :
    reachable m t → reachable m (deleteVectors id t).
End Postgres.

(* ===================================================================== *)
(** * The two classes side by side *)
(* ===================================================================== *)

Module Agreement.
Section Agreement.
Context {embed : Embed} {pg : PgVector}.

(** The row of the compatibility mode that carries a record of the
    keyspace, and the record that carries a row. *)
Definition row_of (r : Valkey.record) : Postgres.row false :=
  Postgres.Row (usePgVector := false) (Valkey.rec_id r) (Valkey.rec_sector r)
    (Valkey.rec_user_id r) (Valkey.rec_v r) (Valkey.rec_dim r).

Definition record_of (row : Postgres.row false) : Valkey.record :=
  Valkey.Rec (Postgres.r_id row) (Postgres.r_sector row)
    (Postgres.r_user_id row) (Postgres.r_v row) (Postgres.r_dim row).

(** A write with plain names: no [':'] in the id and the sector, no glob
    metacharacter in the id of a [deleteVectors], and a payload that is
    not the empty buffer. *)
Definition plain (w : write) : Prop :=
  match w with
  | StoreVector id sector vector _ _ =>
      colon_free id ∧ colon_free sector ∧ vectorToBuffer vector ≠ EmptyString
  | DeleteVector id sector => colon_free id ∧ colon_free sector
  | DeleteVectors id => colon_free id ∧ glob_free id
  end.

(** The keyspace and the table hold the same records. *)
Definition same_records (σ : Redis.store) (t : Postgres.table false) : Prop :=
  Valkey.wf σ ∧ Valkey.colon_free_store σ ∧
  (∀ r, Valkey.holds σ r → Valkey.rec_v r ≠ EmptyString) ∧
  Postgres.unique_key t ∧
  (∀ r, Valkey.holds σ r ↔ In (row_of r) t).
End Agreement.
End Agreement.

(* ===================================================================== *)
(** * Reference collaborators

    Concrete instances of the collaborators, on which the operations can
    be evaluated. *)
(* ===================================================================== *)

Module Reference.

(** ** The vector codec *)

Definition bits_of_float (x : float) : Z :=
  match Prim2SF x with
  | S754_zero s => if s then 2 ^ 63 else 0
  | S754_infinity s => (if s then 2 ^ 63 else 0) + 2047 * 2 ^ 52
  | S754_nan => 4095 * 2 ^ 51
  | S754_finite s m e =>
      (if s then 2 ^ 63 else 0) +
      (if Z.pos m <? 2 ^ 52 then Z.pos m
       else (e + 1075) * 2 ^ 52 + (Z.pos m - 2 ^ 52))
  end%Z.

Definition float_of_bits (b : Z) : float :=
  let s := Z.testbit b 63 in
  let E := ((b / 2 ^ 52) mod 2 ^ 11)%Z in
  let f := (b mod 2 ^ 52)%Z in
  SF2Prim
    (if (E =? 0)%Z then
       if (f =? 0)%Z then S754_zero s
       else S754_finite s (Z.to_pos f) (-1074)
     else if (E =? 2047)%Z then
       if (f =? 0)%Z then S754_infinity s else S754_nan
     else S754_finite s (Z.to_pos (f + 2 ^ 52)) (E - 1075)).

Fixpoint bytes_le (n : nat) (z : Z) : string :=
  match n with
  | O => EmptyString
  | S n' =>
      String (ascii_of_N (Z.to_N (z mod 256))) (bytes_le n' (z / 256))
  end.

Fixpoint read_le (n : nat) (s : string) : Z * string :=
  match n with
  | O => (0%Z, s)
  | S n' =>
      match s with
      | String c s' =>
          let '(z, r) := read_le n' s' in
          ((Z.of_N (N_of_ascii c) + 256 * z)%Z, r)
      | EmptyString => (0%Z, EmptyString)
      end
  end.

Definition encode (v : vector) : Buffer :=
  foldr (λ x acc, bytes_le 8 (bits_of_float x) +:+ acc) EmptyString v.

Fixpoint decode_go (fuel : nat) (b : Buffer) : vector :=
  match fuel with
  | O => []
  | S fuel' =>
      match b with
      | EmptyString => []
      | _ =>
          let '(z, r) := read_le 8 b in
          float_of_bits z :: decode_go fuel' r
      end
  end.

Definition decode (b : Buffer) : vector := decode_go (String.length b) b.

(** Modelled from the spec: the imports from [memory/embed], whose code
    is not part of the two files.  The codec is "a lossless,
    deterministic round-trip binary encoding of an ordered sequence of
    floating-point numbers" (here: IEEE-754 binary64, little endian, 8
    bytes per component), and [cosineSimilarity] is the algorithm of
    section 4.4 of the specification, which the key/value class carries
    as a private method.  The codec reads the bytes of a Buffer.  In the
    string of a reply it finds none: the empty string gives the empty
    vector, every other string and [null] a decode failure, which
    propagates. *)
Definition embed : Embed := {|
  vectorToBuffer := encode;
  bufferToVector := decode;
  bufferToVector_reply := λ o,
    match o with
    | Some EmptyString => Redis.Returned []
    | _ => Redis.Thrown Redis.CodecFailure
    end;
  cosineSimilarity := Valkey.cosineSimilarity
|}.


(** ** The key/value server's cursor *)

(** A server whose scan returns every key once. *)
Definition server : Redis.Server.
Proof.
  refine {| Redis.walk := Redis.keys |}.
  intros σ k. unfold Redis.keys.
  rewrite <- list_elem_of_In, list_elem_of_fmap. split.
  - intros ([k' h] & -> & Hin). exists h.
    by apply elem_of_map_to_list in Hin.
  - intros [h Hk]. exists (k, h). split; [done|].
    by apply elem_of_map_to_list.
Defined.

(** ** Host built-ins, on integer numerals *)

Definition float_of_Z (z : Z) : float :=
  let m := PrimFloat.of_uint63 (Uint63.of_Z (Z.abs z)) in
  if (z <? 0)%Z then (- m)%float else m.

Definition Z_of_float (x : float) : option Z :=
  match Prim2SF x with
  | S754_zero _ => Some 0%Z
  | S754_finite s m e =>
      let sign (z : Z) := if s then (- z)%Z else z in
      if (0 <=? e)%Z then Some (sign (Z.pos m * 2 ^ e)%Z)
      else if (Z.pos m mod 2 ^ (- e) =? 0)%Z
           then Some (sign (Z.pos m / 2 ^ (- e))%Z)
           else None
  | _ => None
  end.

Definition number_text (x : float) : string :=
  match Z_of_float x with
  | Some z => pretty z
  | None => "null"
  end.

Definition text_number (s : string) : float :=
  match Num.parseInt s with
  | Some z => float_of_Z z
  | None => nan
  end.

Fixpoint join (sep : string) (l : list string) : string :=
  match l with
  | [] => EmptyString
  | [x] => x
  | x :: l' => x +:+ sep +:+ join sep l'
  end.

Definition array_text (v : vector) : string :=
  "[" +:+ join "," (map number_text v) +:+ "]".

Definition text_array (s : string) : vector :=
  match s with
  | String "[" (String "]" EmptyString) => []
  | String "[" r => map text_number (JS.split "," r)
  | _ => []
  end.

(** [parseFloat], [JSON.stringify] and [JSON.parse] restricted to
    integer-valued numbers of moderate size, on which the numerals are
    plain decimal integers. *)
Definition host : Host := {|
  parseFloat := text_number;
  JSON_stringify := array_text;
  JSON_parse := text_array
|}.

(** ** The vector extension *)

(** The column holds the parsed components; the distance is the cosine
    distance.  The cast takes the text of an array with at least one
    element, all finite numbers; the distance operator takes two vectors
    of the same dimension. *)
Definition pgvector : PgVector := {|
  pg_vector := vector;
  vector_in := text_array;
  vector_out := array_text;
  cosine_distance := λ a b, (1 - Valkey.cosineSimilarity a b)%float;
  vector_accepts := λ s,
    match text_array s with
    | [] => false
    | v => forallb PrimFloat.is_finite v
    end;
  distance_accepts := λ a b, (length a =? length b)%nat
|}.

End Reference.

(* ===================================================================== *)
(** * A concrete scenario

    Section 8 of the specification: [a] with vector [[1,0]] and [b] with
    vector [[0,1]], both of dimension 2 in sector [s]; here [a] belongs to
    tenant [alice] and [b] to tenant [bob]. *)
(* ===================================================================== *)

Module Scenario.

Definition store : Redis.store :=
  Valkey.storeVector (embed := Reference.embed) "b" "s" [0; 1]%float 2
    (Some "bob")
    (Valkey.storeVector (embed := Reference.embed) "a" "s" [1; 0]%float 2
       (Some "alice") ∅).

Definition table (m : bool)
    : Postgres.table (pg := Reference.pgvector) m :=
  Postgres.storeVector (embed := Reference.embed) (host := Reference.host)
    (pg := Reference.pgvector) m "b" "s" [0; 1]%float 2 (Some "bob")
    (Postgres.storeVector (embed := Reference.embed) (host := Reference.host)
       (pg := Reference.pgvector) m "a" "s" [1; 0]%float 2
       (Some "alice") []).

(** The two records with the empty vector, of dimension 0: their payload
    is the empty buffer. *)
Definition bare : Redis.store :=
  Valkey.storeVector (embed := Reference.embed) "b" "s" [] 0 (Some "bob")
    (Valkey.storeVector (embed := Reference.embed) "a" "s" [] 0
       (Some "alice") ∅).

(** The reply of the index of [s] to a query for [[1,0]]: [a] at
    distance 0, then [b] at distance 1. *)
Definition reply : list Redis.document :=
  [ ("vec:s:a", ["id"; "a"; "score"; "0"; "user_id"; "alice"]);
    ("vec:s:b", ["id"; "b"; "score"; "1"; "user_id"; "bob"]) ].

(** A connection whose server has no index. *)
Definition failing : Redis.client :=
  Redis.Client (λ _ _ _, Redis.Thrown Redis.IndexMissing) None.

(** A connection whose server answers with [reply]. *)
Definition answering : Redis.client :=
  Redis.Client (λ _ _ _, Redis.Returned reply) None.

End Scenario.

(* ===================================================================== *)
(** * Facts about strings, patterns, scans and numerals *)
(* ===================================================================== *)

Section StringFacts.
Implicit Types (s t a b : string) (c : ascii).

Lemma str_app_cons c s t : String c s +:+ t = String c (s +:+ t).
Proof. reflexivity. Qed.

Lemma str_app_nil t : EmptyString +:+ t = t.
Proof. reflexivity. Qed.

Lemma str_app_assoc s t u : (s +:+ t) +:+ u = s +:+ (t +:+ u).
Proof. induction s as [|c s IH]; [done|]. rewrite !str_app_cons. by f_equal. Qed.

Lemma str_app_length s t : String.length (s +:+ t) = (String.length s + String.length t)%nat.
Proof. induction s as [|c s IH]; [done|]. rewrite str_app_cons. simpl. by rewrite IH. Qed.

Lemma str_app_inv_tail s t u : s +:+ u = t +:+ u → s = t.
Proof.
  revert t. induction s as [|c s IH]; intros [|d t] Heq; [done|..].
  - apply (f_equal String.length) in Heq. rewrite str_app_nil, str_app_cons in Heq.
    simpl in Heq. rewrite str_app_length in Heq. lia.
  - apply (f_equal String.length) in Heq. rewrite str_app_nil, str_app_cons in Heq.
    simpl in Heq. rewrite str_app_length in Heq. lia.
  - rewrite !str_app_cons in Heq. injection Heq as -> Heq. f_equal. by apply IH.
Qed.

Lemma str_contains_app c s t :
  JS.contains c (s +:+ t) = JS.contains c s || JS.contains c t.
Proof.
  induction s as [|d s IH]; [done|]. rewrite str_app_cons. simpl.
  rewrite IH. by rewrite orb_assoc.
Qed.

Lemma split_not_nil c s : JS.split c s ≠ [].
Proof.
  destruct s as [|d s]; simpl; [done|].
  destruct (Ascii.eqb d c); [done|]. by destruct (JS.split c s).
Qed.

(** A string without the separator is a single segment. *)
Lemma split_single c s : JS.contains c s = false → JS.split c s = [s].
Proof.
  induction s as [|d s IH]; simpl; [done|].
  intros [Hd Hs]%orb_false_iff. rewrite Hd, (IH Hs). done.
Qed.

(** The first separator ends the first segment. *)
Lemma split_app c s t :
  JS.contains c s = false →
  JS.split c (s +:+ String c t) = s :: JS.split c t.
Proof.
  induction s as [|d s IH]; intros Hs.
  - rewrite str_app_nil. simpl. by rewrite Ascii.eqb_refl.
  - simpl in Hs. apply orb_false_iff in Hs as [Hd Hs].
    rewrite str_app_cons. simpl. rewrite Hd, (IH Hs). done.
Qed.

(** The last segment only depends on what follows a separator. *)
Lemma last_split_app c s t :
  last (JS.split c (s +:+ String c t)) = last (JS.split c t).
Proof.
  induction s as [|d s IH].
  - rewrite str_app_nil. simpl. rewrite Ascii.eqb_refl.
    destruct (JS.split c t) eqn:E; [by destruct (split_not_nil c t)|done].
  - rewrite str_app_cons. simpl. destruct (Ascii.eqb d c).
    + rewrite <- IH.
      destruct (JS.split c (s +:+ String c t)) eqn:E;
        [by destruct (split_not_nil c (s +:+ String c t))|done].
    + rewrite <- IH.
      destruct (JS.split c (s +:+ String c t)) as [|p [|q ps]] eqn:E.
      * by destruct (split_not_nil c (s +:+ String c t)).
      * (* a single segment would not contain the separator *)
        exfalso. clear IH.
        assert (Hlen : ∀ u, (2 ≤ length (JS.split c (u +:+ String c t)))%nat).
        { clear. induction u as [|e u IHu].
          - rewrite str_app_nil. simpl. rewrite Ascii.eqb_refl. simpl.
            destruct (JS.split c t) eqn:E; [by destruct (split_not_nil c t)|simpl; lia].
          - rewrite str_app_cons. simpl. destruct (Ascii.eqb e c); [simpl; lia|].
            destruct (JS.split c (u +:+ String c t)); simpl in *; lia. }
        specialize (Hlen s). rewrite E in Hlen. simpl in Hlen. lia.
      * done.
Qed.

Lemma split_pop_app s t : JS.split_pop (s +:+ String ":" t) = JS.split_pop t.
Proof. unfold JS.split_pop, JS.pop. by rewrite last_split_app. Qed.

Lemma split_pop_colon_free s : colon_free s → JS.split_pop s = s.
Proof. intros Hs. unfold JS.split_pop, JS.pop. by rewrite split_single. Qed.
End StringFacts.

Section GlobFacts.
Import Glob.
Implicit Types (s t k : string) (c : ascii) (ts : list token).

Lemma str_app_nil_r s : s +:+ EmptyString = s.
Proof. induction s as [|c s IH]; [done|]. rewrite str_app_cons. by f_equal. Qed.

Lemma glob_parse_literal_char c r :
  meta c = false → parse (String c r) = TLit c :: parse r.
Proof.
  destruct c as [[] [] [] [] [] [] [] []]; intros Hc;
    try discriminate Hc; reflexivity.
Qed.

Lemma glob_parse_plain s p :
  plain s = true → parse (s +:+ p) = literal s ++ parse p.
Proof.
  induction s as [|c s IH]; [done|]. simpl plain.
  intros [Hc Hs]%andb_true_iff. apply negb_true_iff in Hc.
  rewrite str_app_cons, (glob_parse_literal_char _ _ Hc), (IH Hs). done.
Qed.

Lemma glob_plain_app s t : plain (s +:+ t) = plain s && plain t.
Proof.
  induction s as [|c s IH]; [done|]. rewrite str_app_cons. simpl.
  rewrite IH. by rewrite andb_assoc.
Qed.

Lemma glob_match_nil k : tokens_match [] k = true ↔ k = EmptyString.
Proof. by destruct k. Qed.

Lemma glob_match_literal s ts k :
  tokens_match (literal s ++ ts) k = true ↔
  ∃ r, k = s +:+ r ∧ tokens_match ts r = true.
Proof.
  revert k. induction s as [|c s IH]; intros k.
  - simpl. split; [intros Hm; by exists k|by intros (r & -> & Hr)].
  - simpl. destruct k as [|d k].
    + split; [done|]. by intros (r & Hr & _).
    + rewrite andb_true_iff, IH, Ascii.eqb_eq. split.
      * intros (-> & r & -> & Hr). by exists r.
      * intros (r & Hk & Hr). rewrite str_app_cons in Hk.
        injection Hk as -> ->. split; [done|]. by exists r.
Qed.

Lemma glob_match_star ts k :
  tokens_match (TStar :: ts) k = true ↔
  ∃ a r, k = a +:+ r ∧ tokens_match ts r = true.
Proof.
  induction k as [|d k IH].
  - simpl. rewrite orb_false_r. split.
    + intros Hm. by exists EmptyString, EmptyString.
    + intros (a & r & Hk & Hr). destruct a; [|done].
      rewrite str_app_nil in Hk. by subst r.
  - change (tokens_match (TStar :: ts) (String d k))
      with (tokens_match ts (String d k) || tokens_match (TStar :: ts) k).
    rewrite orb_true_iff, IH. split.
    + intros [Hm | (a & r & -> & Hr)].
      * by exists EmptyString, (String d k).
      * by exists (String d a), r.
    + intros (a & r & Hk & Hr). destruct a as [|c a].
      * left. rewrite str_app_nil in Hk. by subst r.
      * right. rewrite str_app_cons in Hk. injection Hk as -> ->.
        by exists a, r.
Qed.

(** A scan by sector: the keys that start with ["vec:<sector>:"]. *)
Lemma glob_sector_pattern sector k :
  glob_free sector →
  matches ("vec:" +:+ sector +:+ ":*") k = true ↔
  ∃ r, k = "vec:" +:+ sector +:+ ":" +:+ r.
Proof.
  intros Hs. unfold matches.
  replace ("vec:" +:+ sector +:+ ":*")
    with (("vec:" +:+ sector +:+ ":") +:+ "*")
    by (rewrite !str_app_assoc; reflexivity).
  rewrite glob_parse_plain.
  2:{ rewrite !glob_plain_app, Hs. reflexivity. }
  rewrite glob_match_literal. split.
  - intros (r & -> & _). exists r. by rewrite !str_app_assoc.
  - intros (r & ->). exists r. split; [by rewrite !str_app_assoc|].
    change (parse "*") with [TStar]. apply glob_match_star.
    exists r, EmptyString. by rewrite str_app_nil_r.
Qed.

(** A scan by id: the keys that start with ["vec:"] and end with
    [":<id>"]. *)
Lemma glob_id_pattern id k :
  glob_free id →
  matches ("vec:*:" +:+ id) k = true ↔
  ∃ a, k = "vec:" +:+ a +:+ ":" +:+ id.
Proof.
  intros Hi. unfold matches.
  change ("vec:*:" +:+ id) with ("vec:" +:+ String "*" (":" +:+ id)).
  rewrite glob_parse_plain by reflexivity.
  change (parse (String "*" (":" +:+ id))) with (TStar :: parse (":" +:+ id)).
  assert (parse (":" +:+ id) = literal (":" +:+ id) ++ []) as ->.
  { rewrite <- (str_app_nil_r (":" +:+ id)) at 1.
    rewrite glob_parse_plain; [done|].
    rewrite glob_plain_app, Hi. reflexivity. }
  rewrite glob_match_literal. split.
  - intros (r & -> & Hr). apply glob_match_star in Hr as (a & r' & -> & Hr').
    apply glob_match_literal in Hr' as (r'' & -> & Hn).
    apply glob_match_nil in Hn as ->. exists a. by rewrite str_app_nil_r.
  - intros (a & ->). exists (a +:+ ":" +:+ id). split; [done|].
    apply glob_match_star. exists a, (":" +:+ id). split; [done|].
    apply glob_match_literal. exists EmptyString.
    by rewrite str_app_nil_r.
Qed.
End GlobFacts.

Section KeyFacts.
Import Valkey.
Implicit Types (s t a b id sector : string).

Lemma getKey_split id sector :
  colon_free sector →
  JS.split ":" (getKey id sector) = "vec" :: sector :: JS.split ":" id.
Proof.
  intros Hs. unfold getKey.
  change ("vec:" +:+ sector +:+ ":" +:+ id)
    with ("vec" +:+ String ":" (sector +:+ String ":" id)).
  rewrite split_app by reflexivity. by rewrite split_app.
Qed.

Lemma getKey_pop id sector :
  colon_free id → JS.split_pop (getKey id sector) = id.
Proof.
  intros Hi. unfold getKey.
  change ("vec:" +:+ sector +:+ ":" +:+ id)
    with ("vec" +:+ String ":" (sector +:+ String ":" id)).
  rewrite !split_pop_app. by apply split_pop_colon_free.
Qed.

Lemma str_first_colon a a' b b' :
  colon_free a → colon_free a' →
  a +:+ String ":" b = a' +:+ String ":" b' → a = a' ∧ b = b'.
Proof.
  unfold colon_free. revert a'.
  induction a as [|c a IH]; intros [|c' a'] Ha Ha' Heq.
  - rewrite !str_app_nil in Heq. by injection Heq as ->.
  - rewrite str_app_nil, str_app_cons in Heq. injection Heq as <- _.
    simpl in Ha'. done.
  - rewrite str_app_nil, str_app_cons in Heq. injection Heq as -> _.
    simpl in Ha. done.
  - rewrite !str_app_cons in Heq. injection Heq as -> Heq.
    simpl in Ha, Ha'. apply orb_false_iff in Ha as [_ Ha].
    apply orb_false_iff in Ha' as [_ Ha'].
    destruct (IH a' Ha Ha' Heq) as [-> ->]. done.
Qed.

(** A key under the prefix of a colon-free sector belongs to that
    sector, when its own sector is colon-free. *)
Lemma getKey_prefix_inv id' s' s r :
  colon_free s → colon_free s' →
  getKey id' s' = "vec:" +:+ s +:+ ":" +:+ r → s' = s ∧ id' = r.
Proof.
  intros Hs Hs' Heq. unfold getKey in Heq.
  apply (inj (String.app "vec:")) in Heq.
  by apply str_first_colon in Heq.
Qed.

(** A key with the suffix of a colon-free id carries that id, when its
    own id is colon-free. *)
Lemma getKey_suffix_inv id' s' a id :
  colon_free id → colon_free id' →
  getKey id' s' = "vec:" +:+ a +:+ ":" +:+ id → id' = id ∧ s' = a.
Proof.
  intros Hi Hi' Heq.
  assert (id' = id) as ->.
  { rewrite <- (getKey_pop id' s' Hi'), Heq. by apply (getKey_pop id a). }
  split; [done|]. unfold getKey in Heq.
  apply (inj (String.app "vec:")) in Heq.
  by apply str_app_inv_tail in Heq.
Qed.

Lemma getKey_inj_sector id s id' s' :
  colon_free s → colon_free s' →
  getKey id s = getKey id' s' → id = id' ∧ s = s'.
Proof.
  intros Hs Hs' Heq. symmetry in Heq.
  apply getKey_prefix_inv in Heq as [-> ->]; done.
Qed.

Lemma getKey_inj_id id s id' s' :
  colon_free id → colon_free id' →
  getKey id s = getKey id' s' → id = id' ∧ s = s'.
Proof.
  intros Hi Hi' Heq. symmetry in Heq.
  apply getKey_suffix_inv in Heq as [-> ->]; done.
Qed.
End KeyFacts.

Section ScanFacts.
Import Redis.
Context {A B : Type}.
Implicit Types (σ : store).

Lemma paginate_concat (n : nat) (l : list A) : concat (paginate n l) = l.
Proof.
  induction l as [|x l IH]; [done|]. simpl.
  destruct (paginate n l) as [|p ps] eqn:E; [by simpl in IH; subst l|].
  destruct (length p <? n)%nat; simpl in *; by rewrite IH.
Qed.

Lemma concat_map_filter (f : A → bool) (ps : list (list A)) :
  concat (map (List.filter f) ps) = List.filter f (concat ps).
Proof.
  induction ps as [|p ps IH]; [done|]. simpl.
  by rewrite IH, List.filter_app.
Qed.

Implicit Types (f : A → outcome (list B)).

Lemma collect_app f (l1 l2 : list A) :
  collect f (l1 ++ l2)
  = bind (collect f l1) (λ ys,
      bind (collect f l2) (λ zs, Returned (ys ++ zs))).
Proof.
  induction l1 as [|x l1 IH]; simpl.
  - by destruct (collect f l2).
  - destruct (f x) as [ys|e]; simpl; [|done]. rewrite IH.
    destruct (collect f l1) as [ys1|e]; simpl; [|done].
    destruct (collect f l2) as [ys2|e]; simpl; [|done].
    by rewrite app_assoc.
Qed.

(** A loop that appends what it reads from every non-empty page reads
    from all the keys the scan returns, in their order, and ends at the
    first failure. *)
Lemma collect_pages_concat f (pages : list (list A)) :
  collect_pages f pages = collect f (concat pages).
Proof.
  unfold collect_pages.
  assert (H : ∀ acc,
    fold_left
      (λ results keys,
         match keys with
         | [] => results
         | _ =>
             bind results (λ acc,
               bind (collect f keys) (λ more, Returned (acc ++ more)))
         end) pages acc
    = bind acc (λ a,
        bind (collect f (concat pages)) (λ more, Returned (a ++ more)))).
  { induction pages as [|p ps IH]; intros acc; simpl.
    - destruct acc; simpl; [|done]. by rewrite app_nil_r.
    - rewrite IH, collect_app. destruct p as [|x p].
      + simpl. destruct acc as [a|e]; simpl; [|done].
        by destruct (collect f (concat ps)).
      + destruct acc as [a|e]; simpl; [|done].
        destruct (f x) as [ys|e]; simpl; [|done].
        destruct (collect f p) as [ys1|e]; simpl; [|done].
        destruct (collect f (concat ps)) as [ys2|e]; simpl; [|done].
        by rewrite !app_assoc. }
  rewrite H. simpl. by destruct (collect f (concat pages)).
Qed.

(** The entries of a collection that returns. *)
Lemma collect_In f (l : list A) out x :
  collect f l = Returned out →
  In x out ↔ ∃ k ys, In k l ∧ f k = Returned ys ∧ In x ys.
Proof.
  revert out. induction l as [|k l IH]; intros out; simpl.
  - intros [= <-]. split; [done|]. by intros (? & ? & [] & _).
  - destruct (f k) as [ys|e] eqn:Hk; simpl; [|done].
    destruct (collect f l) as [zs|e]; simpl; [|done].
    intros [= <-]. rewrite in_app_iff, (IH zs eq_refl). split.
    + intros [Hin|(k' & ys' & Hin & Hf & Hx)].
      * exists k, ys. split; [by left|done].
      * exists k', ys'. split; [by right|done].
    + intros (k' & ys' & [<-|Hin] & Hf & Hx).
      * left. rewrite Hk in Hf. by injection Hf as ->.
      * right. by exists k', ys'.
Qed.

(** A collection returns exactly when every element is read. *)
Lemma collect_returned f (l : list A) :
  returned (collect f l) ↔ ∀ k, In k l → returned (f k).
Proof.
  induction l as [|k l IH]; simpl.
  - split; [by intros _ ? []|]. intros _. by eexists.
  - split.
    + intros [out Hout] k' [<-|Hin].
      * destruct (f k); [by eexists|done].
      * apply IH; [|done]. destruct (f k); [|done]. simpl in Hout.
        destruct (collect f l); [by eexists|done].
    + intros Hall. destruct (Hall k (or_introl eq_refl)) as [ys ->]. simpl.
      destruct (proj2 IH (λ k' H, Hall k' (or_intror H))) as [zs ->].
      by eexists.
Qed.

End ScanFacts.

Section StoreFacts.
Import Redis.
Context {server : Server}.
Implicit Types (σ : store) (k : string).

Lemma scan_In pattern n σ k :
  In k (concat (scan pattern n σ)) ↔
  is_Some (σ !! k) ∧ Glob.matches pattern k = true.
Proof.
  unfold scan. rewrite concat_map_filter, paginate_concat.
  by rewrite List.filter_In, walk_keys.
Qed.

Lemma del_lookup ks σ k :
  del ks σ !! k = if decide (k ∈ ks) then None else σ !! k.
Proof.
  induction ks as [|x ks IH]; simpl; [done|].
  destruct (decide (x = k)) as [->|Hne].
  - rewrite lookup_delete_eq. by rewrite decide_True by left.
  - rewrite lookup_delete_ne by done. rewrite IH.
    destruct (decide (k ∈ ks)) as [Hin|Hin].
    + by rewrite decide_True by by right.
    + rewrite decide_False; [done|]. by intros [->|?]%elem_of_cons.
Qed.

Lemma fold_left_del (pages : list (list string)) σ k :
  fold_left (λ σ' ks, match ks with [] => σ' | _ => del ks σ' end) pages σ
    !! k
  = if decide (k ∈ concat pages) then None else σ !! k.
Proof.
  revert σ. induction pages as [|p ps IH]; intros σ; simpl; [done|].
  rewrite IH.
  assert (match p with [] => σ | _ => del p σ end = del p σ) as ->
    by by destruct p.
  rewrite del_lookup.
  destruct (decide (k ∈ concat ps)) as [Hin|Hin].
  - by rewrite decide_True by (apply elem_of_app; by right).
  - destruct (decide (k ∈ p)) as [Hp|Hp].
    + by rewrite decide_True by (apply elem_of_app; by left).
    + rewrite decide_False; [done|]. by intros [?|?]%elem_of_app.
Qed.
End StoreFacts.

Section ParseIntFacts.
Import Num.

Lemma digit_char_cases c :
  (match Ascii.is_nat c with Some _ => true | None => false end) = true →
  c = "0"%char ∨ c = "1"%char ∨ c = "2"%char ∨ c = "3"%char ∨ c = "4"%char ∨
  c = "5"%char ∨ c = "6"%char ∨ c = "7"%char ∨ c = "8"%char ∨ c = "9"%char.
Proof.
  destruct c as [[] [] [] [] [] [] [] []]; simpl; intros Hc;
    try discriminate Hc; tauto.
Qed.

Lemma pretty_char_digit x :
  (x < 10)%N →
  digit_value (pretty_N_char x) = Some (Z.of_N x) ∧
  (match Ascii.is_nat (pretty_N_char x) with Some _ => true | None => false end)
    = true.
Proof.
  intros Hx.
  assert (x = 0 ∨ x = 1 ∨ x = 2 ∨ x = 3 ∨ x = 4 ∨ x = 5 ∨ x = 6 ∨ x = 7
          ∨ x = 8 ∨ x = 9)%N as Hc by lia.
  repeat (destruct Hc as [-> | Hc]; [by vm_compute|]). subst x. by vm_compute.
Qed.

Lemma pretty_go_all_digits x s :
  all_digits s = true → all_digits (pretty_N_go x s) = true.
Proof.
  revert s. induction (N.lt_wf_0 x) as [x _ IH]; intros s Hs.
  assert (x = 0 ∨ 0 < x)%N as [->|Hx] by lia; [by rewrite pretty_N_go_0|].
  rewrite pretty_N_go_step by done. apply IH; [by apply N.div_lt|].
  simpl. rewrite Hs, andb_true_r.
  apply pretty_char_digit. by apply N.mod_lt.
Qed.

Lemma digits_pretty_go x s :
  (0 < x)%N →
  digits 10 None (pretty_N_go x s) = digits 10 (Some (Z.of_N x)) s.
Proof.
  revert s. induction (N.lt_wf_0 x) as [x _ IH]; intros s Hx.
  rewrite pretty_N_go_step by done.
  destruct (pretty_char_digit (x `mod` 10)%N) as [Hd _];
    [by apply N.mod_lt|].
  destruct (N.eq_0_gt_0_cases (x `div` 10)%N) as [Hq|Hq].
  - rewrite Hq, pretty_N_go_0. simpl. rewrite Hd.
    assert ((Z.of_N (x `mod` 10) <? 10)%Z = true) as ->.
    { apply Z.ltb_lt. pose proof (N.mod_lt x 10). lia. }
    do 2 f_equal. rewrite (N.div_mod x 10) at 2 by done. lia.
  - rewrite IH; [|by apply N.div_lt|done]. simpl. rewrite Hd.
    assert ((Z.of_N (x `mod` 10) <? 10)%Z = true) as ->.
    { apply Z.ltb_lt. pose proof (N.mod_lt x 10). lia. }
    do 2 f_equal. rewrite (N.div_mod x 10) at 3 by done. lia.
Qed.

Lemma parse_magnitude_digits t :
  all_digits t = true → parse_magnitude t = digits 10 None t.
Proof.
  destruct t as [|c t]; [done|]. simpl all_digits.
  intros [Hc Ht]%andb_true_iff.
  apply digit_char_cases in Hc.
  destruct Hc as [-> | Hc].
  - destruct t as [|d t]; [done|]. simpl in Ht.
    apply andb_true_iff in Ht as [Hd _]. apply digit_char_cases in Hd.
    repeat (destruct Hd as [-> | Hd]; [reflexivity|]). subst d. reflexivity.
  - repeat (destruct Hc as [-> | Hc]; [reflexivity|]). subst c. reflexivity.
Qed.

Lemma parseInt_digits t :
  t ≠ EmptyString → all_digits t = true → parseInt t = digits 10 None t.
Proof.
  intros Hne Ht. rewrite <- (parse_magnitude_digits t Ht).
  destruct t as [|c t]; [done|]. simpl in Ht.
  apply andb_true_iff in Ht as [Hc _]. apply digit_char_cases in Hc.
  repeat (destruct Hc as [-> | Hc]; [reflexivity|]). subst c. reflexivity.
Qed.

Lemma pretty_pos_digits p :
  all_digits (pretty (Npos p)) = true ∧ pretty (Npos p) ≠ EmptyString ∧
  digits 10 None (pretty (Npos p)) = Some (Zpos p).
Proof.
  unfold pretty, pretty_N. rewrite decide_False by done.
  split; [by apply pretty_go_all_digits|]. split.
  - rewrite pretty_N_go_step by done. intros Hnil.
    apply (f_equal String.length) in Hnil. simpl in Hnil.
    assert (∀ x s, (String.length s ≤ String.length (pretty_N_go x s))%nat)
      as Hlen.
    { clear. intros x. induction (N.lt_wf_0 x) as [x _ IH]; intros s.
      assert (x = 0 ∨ 0 < x)%N as [->|?] by lia; [by rewrite pretty_N_go_0|].
      rewrite pretty_N_go_step by done.
      etrans; [|by eapply IH, N.div_lt]. simpl. lia. }
    specialize (Hlen (N.pos p `div` 10)%N
      (String (pretty_N_char (N.pos p `mod` 10)) EmptyString)).
    simpl in Hlen. lia.
  - rewrite digits_pretty_go by done. done.
Qed.

(** [parseInt] reads a decimal numeral as the integer it stands for. *)
Lemma parseInt_pretty (z : Z) : parseInt (pretty z) = Some z.
Proof.
  destruct z as [|p|p].
  - reflexivity.
  - change (pretty (Zpos p)) with (pretty (Npos p)).
    destruct (pretty_pos_digits p) as (Hd & Hne & Hv).
    by rewrite parseInt_digits.
  - change (pretty (Zneg p)) with ("-" +:+ pretty (Npos p)).
    destruct (pretty_pos_digits p) as (Hd & Hne & Hv).
    rewrite str_app_cons, str_app_nil.
    change (Z.opp <$> parse_magnitude (pretty (N.pos p)) = Some (Z.neg p)).
    rewrite parse_magnitude_digits, Hv by done. done.
Qed.
Lemma digit_not c (x : ascii) :
  (match Ascii.is_nat c with Some _ => true | None => false end) = true →
  (match Ascii.is_nat x with Some _ => true | None => false end) = false →
  Ascii.eqb c x = false.
Proof.
  intros Hc Hx. destruct (Ascii.eqb c x) eqn:E; [|done].
  apply Ascii.eqb_eq in E. subst. congruence.
Qed.

Lemma all_digits_contains s (x : ascii) :
  (match Ascii.is_nat x with Some _ => true | None => false end) = false →
  all_digits s = true → JS.contains x s = false.
Proof.
  intros Hx. induction s as [|c s IH]; [done|]. simpl.
  intros [Hc Hs]%andb_true_iff. by rewrite (digit_not c x), IH.
Qed.

(** A digit string is its significant digits followed by zeros. *)
Lemma trim_zeros_spec s :
  all_digits s = true →
  ∃ z, s = trim_zeros s +:+ zeros z ∧
       all_digits (trim_zeros s) = true.
Proof.
  induction s as [|c s IH]; [by exists 0%nat|]. simpl.
  intros [Hc Hs]%andb_true_iff. destruct (IH Hs) as (z & Heq & Hd).
  destruct (trim_zeros s) as [|d t] eqn:Ht.
  - destruct (Ascii.eqb c "0") eqn:Hc0.
    + apply Ascii.eqb_eq in Hc0 as ->. exists (S z). split; [|done].
      simpl. rewrite str_app_nil in Heq |- *. by rewrite <- Heq.
    + exists z. split; [|by simpl; rewrite Hc].
      rewrite str_app_cons. by rewrite <- Heq.
  - exists z. split; [|by simpl in *; rewrite Hc].
    rewrite str_app_cons. by rewrite <- Heq.
Qed.

Lemma digits_all acc s :
  all_digits s = true → is_Some acc ∨ s ≠ EmptyString →
  ∃ v, digits 10 acc s = Some v.
Proof.
  revert acc. induction s as [|c s IH]; intros acc Hs Hne; simpl.
  - destruct Hne as [[v ->]|?]; [by exists v|done].
  - simpl in Hs. apply andb_true_iff in Hs as [Hc Hs].
    apply digit_char_cases in Hc.
    assert (∃ d, digit_value c = Some d ∧ (d <? 10)%Z = true) as (d & -> & ->).
    { repeat (destruct Hc as [-> | Hc]; [by eexists|]). subst c. by eexists. }
    apply IH; [done|]. left. by eexists.
Qed.

Lemma digit_value_digit c :
  (match Ascii.is_nat c with Some _ => true | None => false end) = true →
  ∃ d, digit_value c = Some d ∧ (d <? 10)%Z = true.
Proof.
  intros Hc%digit_char_cases.
  repeat (destruct Hc as [-> | Hc]; [by eexists|]). subst c. by eexists.
Qed.

Lemma digits_zeros acc s z v :
  all_digits s = true →
  digits 10 acc s = Some v →
  digits 10 acc (s +:+ zeros z) = Some (v * 10 ^ Z.of_nat z)%Z.
Proof.
  revert acc v. induction s as [|c s IH]; intros acc v Hs.
  - rewrite str_app_nil. simpl. intros ->. clear Hs.
    revert v. induction z as [|z IHz]; intros v.
    + simpl. f_equal. lia.
    + change (zeros (S z)) with (String "0" (zeros z)).
      change (digits 10 (Some v) (String "0" (zeros z)))
        with (digits 10 (Some (10 * v + 0)%Z) (zeros z)).
      rewrite IHz. f_equal. rewrite Nat2Z.inj_succ, Z.pow_succ_r by lia. lia.
  - rewrite str_app_cons. simpl in Hs.
    apply andb_true_iff in Hs as [Hc Hs].
    destruct (digit_value_digit c Hc) as (d & Hd & Hlt).
    simpl. rewrite Hd, Hlt. by apply IH.
Qed.

Lemma cut_app (c : ascii) a b :
  JS.contains c a = false → cut c (a +:+ String c b) = (a, Some b).
Proof.
  induction a as [|d a IH]; intros Ha.
  - rewrite str_app_nil. simpl. by rewrite Ascii.eqb_refl.
  - simpl in Ha. apply orb_false_iff in Ha as [Hd Ha].
    rewrite str_app_cons. simpl. rewrite Hd, (IH Ha). done.
Qed.

Lemma remove_absent (c : ascii) s : JS.contains c s = false → remove c s = s.
Proof.
  induction s as [|d s IH]; [done|]. simpl.
  intros [Hd Hs]%orb_false_iff. by rewrite Hd, IH.
Qed.

Lemma parseInt_plus_nat (k : nat) :
  parseInt ("+" +:+ pretty k) = Some (Z.of_nat k).
Proof.
  change (parseInt ("+" +:+ pretty k)) with (parse_magnitude (pretty k)).
  change (pretty k) with (pretty (N.of_nat k)).
  destruct (N.of_nat k) as [|p] eqn:E.
  - assert (k = 0)%nat as -> by lia. reflexivity.
  - destruct (pretty_pos_digits p) as (Hd & Hne & Hv).
    rewrite parse_magnitude_digits, Hv by done. f_equal. lia.
Qed.

(** Exponent notation is read back as the number it was written from. *)
Lemma read_exponent_spec (p : positive) :
  let s := pretty (N.pos p) in
  read_exponent (exponent (trim_zeros s) (String.length s)) = Some (Z.pos p) ∧
  JS.contains "e" (exponent (trim_zeros s) (String.length s)) = true ∧
  ∃ c r, exponent (trim_zeros s) (String.length s) = String c r ∧
         (match Ascii.is_nat c with Some _ => true | None => false end) = true.
Proof.
  intros s. destruct (pretty_pos_digits p) as (Hd & Hne & Hv). fold s in Hd, Hne, Hv.
  destruct (trim_zeros_spec s Hd) as (z & Hs & Hm).
  destruct (trim_zeros s) as [|c rest] eqn:Ht.
  { exfalso. rewrite str_app_nil in Hs. rewrite Hs in Hv.
    destruct z as [|z]; [done|].
    change (digits 10 None (zeros (S z)))
      with (digits 10 (Some 0%Z) (EmptyString +:+ zeros z)) in Hv.
    rewrite (digits_zeros (Some 0%Z) EmptyString z 0%Z eq_refl eq_refl) in Hv.
    done. }
  assert (Hlen : String.length s = (String.length (String c rest) + z)%nat).
  { rewrite Hs at 1. rewrite str_app_length.
    clear. induction z; simpl in *; lia. }
  simpl in Hm. apply andb_true_iff in Hm as [Hc Hrest].
  set (frac := match rest with
               | EmptyString => EmptyString
               | _ => "." +:+ rest
               end).
  assert (Hfrac : JS.contains "e" (String c frac) = false ∧
                  remove "." (String c frac) = String c rest).
  { simpl. rewrite (digit_not c "e"), (digit_not c ".") by done.
    unfold frac. destruct rest as [|d rest']; [done|].
    change ("." +:+ String d rest') with (String "." (String d rest')).
    split.
    - change (JS.contains "e" (String "." (String d rest')))
        with (JS.contains "e" (String d rest')).
      by apply all_digits_contains.
    - change (remove "." (String "." (String d rest')))
        with (remove "." (String d rest')).
      rewrite remove_absent; [done|]. by apply all_digits_contains. }
  destruct Hfrac as [He Hrm].
  assert (Hexp : exponent (String c rest) (String.length s)
                 = String c frac +:+ String "e" ("+" +:+ pretty (String.length s - 1)%nat)).
  { reflexivity. }
  rewrite Hexp. split; [|split].
  - unfold read_exponent. rewrite cut_app by done. rewrite Hrm.
    rewrite parseInt_plus_nat.
    destruct (digits_all None (String c rest)) as [v Hdv];
      [by simpl; rewrite Hc|by right|].
    rewrite Hdv. f_equal.
    pose proof (digits_zeros None (String c rest) z v
                  ltac:(by simpl; rewrite Hc) Hdv) as Hz.
    rewrite <- Hs, Hv in Hz. injection Hz as ->.
    f_equal. f_equal. rewrite Hlen. simpl String.length. lia.
  - rewrite str_contains_app. simpl. by rewrite orb_true_r.
  - exists c, (frac +:+ String "e" ("+" +:+ pretty (String.length s - 1)%nat)).
    by rewrite str_app_cons.
Qed.

Lemma read_toString (n : Z) : read (toString n) = Some n.
Proof.
  unfold toString. destruct (Z.abs n <? 10 ^ 21)%Z eqn:Hn.
  - unfold read.
    assert (JS.contains "e" (pretty n) = false) as ->; [|apply parseInt_pretty].
    destruct n as [|p|p]; [done|..].
    + change (pretty (Z.pos p)) with (pretty (N.pos p)).
      apply all_digits_contains; [done|]. apply pretty_pos_digits.
    + change (pretty (Z.neg p)) with ("-" +:+ pretty (N.pos p)).
      rewrite str_app_cons, str_app_nil.
      change (JS.contains "e" (String "-" (pretty (N.pos p))))
        with (JS.contains "e" (pretty (N.pos p))).
      apply all_digits_contains; [done|]. apply pretty_pos_digits.
  - destruct n as [|p|p]; [done|..].
    + change (Z.to_N (Z.abs (Z.pos p))) with (N.pos p).
      change (Z.pos p <? 0)%Z with false. cbv iota. rewrite str_app_nil.
      destruct (read_exponent_spec p) as (Hr & He & c & r & Heq & Hc).
      cbv zeta in Hr, He, Heq. unfold read. rewrite He, Heq.
      rewrite Heq in Hr. apply digit_char_cases in Hc.
      repeat (destruct Hc as [-> | Hc]; [exact Hr|]). subst c. exact Hr.
    + change (Z.to_N (Z.abs (Z.neg p))) with (N.pos p).
      change (Z.neg p <? 0)%Z with true. cbv iota.
      destruct (read_exponent_spec p) as (Hr & He & _).
      cbv zeta in Hr, He. rewrite str_app_cons, str_app_nil.
      unfold read.
      change (JS.contains "e" (String "-" ?x)) with (JS.contains "e" x).
      rewrite He. by rewrite Hr.
Qed.

(** Different integers have different numerals. *)
Lemma toString_inj (a b : Z) : toString a = toString b → a = b.
Proof.
  intros Heq. apply (f_equal read) in Heq. rewrite !read_toString in Heq.
  by injection Heq.
Qed.

(** [parseInt(String(n)) = n] for an integer below [10^21]. *)
Lemma parseInt_toString (z : Z) :
  decimal z → parseInt (toString z) = Some z.
Proof.
  unfold decimal, toString. intros Hz.
  assert ((Z.abs z <? 10 ^ 21)%Z = true) as -> by by apply Z.ltb_lt.
  apply parseInt_pretty.
Qed.
End ParseIntFacts.

Section ValkeyFacts.
Import Redis Valkey.
Context {embed : Embed} {server : Server}.
Implicit Types (σ : store) (r : record) (k id sector : string).

Lemma hash_of_v r : hash_of r !! "v" = Some (rec_v r).
Proof. reflexivity. Qed.
Lemma hash_of_dim r : hash_of r !! "dim" = Some (Num.toString (rec_dim r)).
Proof. reflexivity. Qed.
Lemma hash_of_user_id r : hash_of r !! "user_id" = Some (rec_user_id r).
Proof. reflexivity. Qed.
Lemma hash_of_id r : hash_of r !! "id" = Some (rec_id r).
Proof. reflexivity. Qed.
Lemma hash_of_sector r : hash_of r !! "sector" = Some (rec_sector r).
Proof. reflexivity. Qed.

Lemma hash_of_inj r r' : hash_of r = hash_of r' → r = r'.
Proof.
  intros Heq. destruct r as [i s u v d], r' as [i' s' u' v' d'].
  pose proof (f_equal (λ h : hash, h !! "v") Heq) as Hv.
  pose proof (f_equal (λ h : hash, h !! "dim") Heq) as Hd.
  pose proof (f_equal (λ h : hash, h !! "user_id") Heq) as Hu.
  pose proof (f_equal (λ h : hash, h !! "id") Heq) as Hi.
  pose proof (f_equal (λ h : hash, h !! "sector") Heq) as Hs.
  cbv beta in *.
  rewrite !hash_of_v in Hv. rewrite !hash_of_dim in Hd.
  rewrite !hash_of_user_id in Hu. rewrite !hash_of_id in Hi.
  rewrite !hash_of_sector in Hs. simpl in *.
  injection Hv as ->. injection Hu as ->. injection Hi as ->.
  injection Hs as ->. injection Hd as Hd.
  apply toString_inj in Hd. by subst.
Qed.

Lemma hash_of_dom r :
  dom (hash_of r) = ({["v"; "dim"; "user_id"; "id"; "sector"]} : gset string).
Proof.
  unfold hash_of. rewrite dom_list_to_map_L. simpl. set_solver.
Qed.

(** Writing the five fields over a hash that has the same five fields
    replaces it. *)
Lemma hash_of_union r r' : hash_of r ∪ hash_of r' = hash_of r.
Proof.
  apply map_eq. intros i. rewrite lookup_union.
  destruct (hash_of r !! i) as [x|] eqn:Hi.
  - by destruct (hash_of r' !! i).
  - apply not_elem_of_dom in Hi. rewrite hash_of_dom in Hi.
    rewrite <- (hash_of_dom r') in Hi. apply not_elem_of_dom in Hi.
    by rewrite Hi.
Qed.

Lemma storeVector_insert id sector vector dim user_id σ :
  wf σ →
  storeVector id sector vector dim user_id σ
  = <[ getKey id sector := hash_of (written id sector vector dim user_id) ]> σ.
Proof.
  intros Hwf. unfold storeVector, hset. f_equal.
  change (list_to_map _) with (hash_of (written id sector vector dim user_id)).
  destruct (σ !! getKey id sector) as [h|] eqn:Hk; simpl.
  - destruct (Hwf _ _ Hk) as (r' & _ & ->). apply hash_of_union.
  - apply (right_id ∅ (∪)).
Qed.

Lemma wf_empty : wf ∅.
Proof. intros k h Hk. by rewrite lookup_empty in Hk. Qed.

Lemma wf_storeVector id sector vector dim user_id σ :
  wf σ → wf (storeVector id sector vector dim user_id σ).
Proof.
  intros Hwf. rewrite storeVector_insert by done. intros k h.
  rewrite lookup_insert. destruct (decide _) as [<-|Hne].
  - intros [= <-]. by exists (written id sector vector dim user_id).
  - apply Hwf.
Qed.

Lemma wf_subseteq σ σ' :
  (∀ k h, σ' !! k = Some h → σ !! k = Some h) → wf σ → wf σ'.
Proof. intros Hsub Hwf k h Hk. by apply Hwf, Hsub. Qed.

Lemma deleteVectors_lookup id σ k :
  deleteVectors id σ !! k =
  if decide (is_Some (σ !! k) ∧ Glob.matches ("vec:*:" +:+ id) k = true)
  then None else σ !! k.
Proof.
  unfold deleteVectors. rewrite fold_left_del.
  destruct (decide (k ∈ _)) as [Hin|Hin].
  - apply list_elem_of_In, scan_In in Hin. by rewrite decide_True.
  - destruct (decide _) as [Hm|Hm]; [|done].
    destruct Hin. by apply list_elem_of_In, scan_In.
Qed.

Lemma deleteVector_lookup id sector σ k :
  deleteVector id sector σ !! k =
  if decide (k = getKey id sector) then None else σ !! k.
Proof.
  unfold deleteVector. rewrite del_lookup.
  destruct (decide (k ∈ [getKey id sector])) as [Hin|Hin].
  - apply list_elem_of_singleton in Hin. by rewrite decide_True.
  - rewrite decide_False; [done|]. intros ->. apply Hin. by left.
Qed.

Lemma wf_deleteVectors id σ : wf σ → wf (deleteVectors id σ).
Proof.
  apply wf_subseteq. intros k h. rewrite deleteVectors_lookup.
  by destruct (decide _).
Qed.

Lemma wf_deleteVector id sector σ : wf σ → wf (deleteVector id sector σ).
Proof.
  apply wf_subseteq. intros k h. rewrite deleteVector_lookup.
  by destruct (decide _).
Qed.

Lemma reachable_wf σ : reachable σ → wf σ.
Proof.
  induction 1; auto using wf_empty, wf_storeVector, wf_deleteVector,
    wf_deleteVectors.
Qed.

(** On a well-formed store a key is a record. *)
Lemma wf_key_record σ k :
  wf σ → is_Some (σ !! k) ↔ ∃ r, holds σ r ∧ k = key_of r.
Proof.
  intros Hwf. split.
  - intros [h Hk]. destruct (Hwf _ _ Hk) as (r & -> & ->). by exists r.
  - intros (r & Hr & ->). by exists (hash_of r).
Qed.

Lemma holds_hmget σ r f1 f2 :
  holds σ r →
  hmget (key_of r) [f1; f2] σ = [hash_of r !! f1; hash_of r !! f2].
Proof. intros Hr. unfold hmget. simpl. by rewrite Hr. Qed.

(** A loop over a scan that reads the keys with [f], which reads the
    key of a record as [g] reads the record: when it returns, and what
    it returns. *)
Lemma scan_reads_In {B} (f : string → outcome (list B))
    (g : record → outcome (list B)) pattern n σ out x :
  wf σ → (∀ r, holds σ r → f (key_of r) = g r) →
  collect_pages f (scan pattern n σ) = Returned out →
  In x out ↔
  ∃ r ys, holds σ r ∧ Glob.matches pattern (key_of r) = true ∧
          g r = Returned ys ∧ In x ys.
Proof.
  intros Hwf Hfg. rewrite collect_pages_concat. intros Hc.
  rewrite (collect_In _ _ _ _ Hc). split.
  - intros (k & ys & [Hk Hm]%scan_In & Hf & Hx).
    apply (wf_key_record _ _ Hwf) in Hk as (r & Hr & ->).
    exists r, ys. by rewrite <- (Hfg r Hr).
  - intros (r & ys & Hr & Hm & Hg & Hx). exists (key_of r), ys.
    split; [apply scan_In; split; [by exists (hash_of r)|done]|].
    by rewrite Hfg.
Qed.

Lemma scan_reads_returned {B} (f : string → outcome (list B))
    (g : record → outcome (list B)) pattern n σ :
  wf σ → (∀ r, holds σ r → f (key_of r) = g r) →
  returned (collect_pages f (scan pattern n σ)) ↔
  ∀ r, holds σ r → Glob.matches pattern (key_of r) = true → returned (g r).
Proof.
  intros Hwf Hfg. rewrite collect_pages_concat, collect_returned. split.
  - intros Hall r Hr Hm. rewrite <- (Hfg r Hr). apply Hall, scan_In.
    split; [by exists (hash_of r)|done].
  - intros Hall k [Hk Hm]%scan_In.
    apply (wf_key_record _ _ Hwf) in Hk as (r & Hr & ->).
    rewrite (Hfg r Hr). by apply Hall.
Qed.

(** The entry a listing reads from the key of a record. *)
Lemma by_sector_entry σ r :
  holds σ r →
  match hmget (key_of r) ["v"; "dim"] σ with
  | [v; dim] =>
      let id := JS.split_pop (key_of r) in
      bind (bufferToVector_reply v) (λ vector,
        Returned [BySector id vector (Num.parseInt_field dim)])
  | _ => Returned []
  end
  = bind (decoded r) (λ v,
      Returned [BySector (JS.split_pop (key_of r)) v (dim_read r)]).
Proof. intros Hr. by rewrite (holds_hmget _ _ _ _ Hr). Qed.

Lemma by_id_entry σ r :
  holds σ r →
  match hmget (key_of r) ["v"; "dim"] σ with
  | [v; dim] =>
      let parts := JS.split ":" (key_of r) in
      let sector := parts !! 1%nat in
      bind (bufferToVector_reply v) (λ vector,
        Returned [ById sector vector (Num.parseInt_field dim)])
  | _ => Returned []
  end
  = bind (decoded r) (λ v,
      Returned [ById (JS.split ":" (key_of r) !! 1%nat) v (dim_read r)]).
Proof. intros Hr. by rewrite (holds_hmget _ _ _ _ Hr). Qed.

Lemma candidate_entry user_id σ r :
  holds σ r →
  match hmget (key_of r) ["v"; "user_id"] σ with
  | [buf; vec_user_id] =>
      let id := JS.split_pop (key_of r) in
      if tenant_ok user_id vec_user_id
      then bind (bufferToVector_reply buf)
             (λ vector, Returned [(id, vector)])
      else Returned []
  | _ => Returned []
  end
  = if tenant_ok user_id (Some (rec_user_id r))
    then bind (decoded r) (λ v, Returned [(JS.split_pop (key_of r), v)])
    else Returned [].
Proof. intros Hr. by rewrite (holds_hmget _ _ _ _ Hr). Qed.

Lemma bind_singleton_In {A B} (o : outcome A) (h : A → B) ys x :
  bind o (λ v, Returned [h v]) = Returned ys → In x ys →
  ∃ v, o = Returned v ∧ x = h v.
Proof.
  destruct o as [v|e]; simpl; [|done]. intros [= <-] [<-|[]]. by exists v.
Qed.

(** What the reads over a scan return, record by record, when they
    return. *)
Lemma getVectorsBySector_In sector σ out x :
  wf σ → getVectorsBySector sector σ = Returned out →
  In x out ↔
  ∃ r v, holds σ r ∧
         Glob.matches ("vec:" +:+ sector +:+ ":*") (key_of r) = true ∧
         decoded r = Returned v ∧
         x = BySector (JS.split_pop (key_of r)) v (dim_read r).
Proof.
  intros Hwf Hout. unfold getVectorsBySector in Hout.
  rewrite (scan_reads_In _ _ _ _ _ _ _ Hwf (by_sector_entry σ) Hout). split.
  - intros (r & ys & Hr & Hm & Hg & Hx).
    destruct (bind_singleton_In _ _ _ _ Hg Hx) as (v & Hv & ->).
    by exists r, v.
  - intros (r & v & Hr & Hm & Hv & ->). eexists r, _.
    split; [done|]. split; [done|]. rewrite Hv. split; [done|by left].
Qed.

Lemma getVectorsById_In id σ out x :
  wf σ → getVectorsById id σ = Returned out →
  In x out ↔
  ∃ r v, holds σ r ∧
         Glob.matches ("vec:*:" +:+ id) (key_of r) = true ∧
         decoded r = Returned v ∧
         x = ById (JS.split ":" (key_of r) !! 1%nat) v (dim_read r).
Proof.
  intros Hwf Hout. unfold getVectorsById in Hout.
  rewrite (scan_reads_In _ _ _ _ _ _ _ Hwf (by_id_entry σ) Hout). split.
  - intros (r & ys & Hr & Hm & Hg & Hx).
    destruct (bind_singleton_In _ _ _ _ Hg Hx) as (v & Hv & ->).
    by exists r, v.
  - intros (r & v & Hr & Hm & Hv & ->). eexists r, _.
    split; [done|]. split; [done|]. rewrite Hv. split; [done|by left].
Qed.

Lemma scan_all_In sector user_id σ out x :
  wf σ → scan_all sector user_id σ = Returned out →
  In x out ↔
  ∃ r v, holds σ r ∧
         Glob.matches ("vec:" +:+ sector +:+ ":*") (key_of r) = true ∧
         tenant_ok user_id (Some (rec_user_id r)) = true ∧
         decoded r = Returned v ∧
         x = (JS.split_pop (key_of r), v).
Proof.
  intros Hwf Hout. unfold scan_all in Hout.
  rewrite (scan_reads_In _ _ _ _ _ _ _ Hwf (candidate_entry user_id σ) Hout).
  split.
  - intros (r & ys & Hr & Hm & Hg & Hx).
    destruct (tenant_ok user_id (Some (rec_user_id r))) eqn:Ht;
      [|by injection Hg as <-].
    destruct (bind_singleton_In _ _ _ _ Hg Hx) as (v & Hv & ->).
    by exists r, v.
  - intros (r & v & Hr & Hm & Ht & Hv & ->). eexists r, _.
    split; [done|]. split; [done|]. rewrite Ht, Hv. split; [done|by left].
Qed.

(** The reads over a scan return exactly when the codec decodes the
    payload of every record they read. *)
Lemma getVectorsBySector_returned sector σ :
  wf σ →
  returned (getVectorsBySector sector σ) ↔
  ∀ r, holds σ r →
       Glob.matches ("vec:" +:+ sector +:+ ":*") (key_of r) = true →
       returned (decoded r).
Proof.
  intros Hwf. unfold getVectorsBySector.
  rewrite (scan_reads_returned _ _ _ _ _ Hwf (by_sector_entry σ)).
  split; intros Hall r Hr Hm; specialize (Hall r Hr Hm).
  - destruct (decoded r); [by eexists|by destruct Hall].
  - destruct Hall as [v ->]. by eexists.
Qed.

Lemma getVectorsById_returned id σ :
  wf σ →
  returned (getVectorsById id σ) ↔
  ∀ r, holds σ r → Glob.matches ("vec:*:" +:+ id) (key_of r) = true →
       returned (decoded r).
Proof.
  intros Hwf. unfold getVectorsById.
  rewrite (scan_reads_returned _ _ _ _ _ Hwf (by_id_entry σ)).
  split; intros Hall r Hr Hm; specialize (Hall r Hr Hm).
  - destruct (decoded r); [by eexists|by destruct Hall].
  - destruct Hall as [v ->]. by eexists.
Qed.

Lemma scan_all_returned sector user_id σ :
  wf σ →
  returned (scan_all sector user_id σ) ↔
  ∀ r, holds σ r →
       Glob.matches ("vec:" +:+ sector +:+ ":*") (key_of r) = true →
       tenant_ok user_id (Some (rec_user_id r)) = true →
       returned (decoded r).
Proof.
  intros Hwf. unfold scan_all.
  rewrite (scan_reads_returned _ _ _ _ _ Hwf (candidate_entry user_id σ)).
  split.
  - intros Hall r Hr Hm Ht. specialize (Hall r Hr Hm). rewrite Ht in Hall.
    destruct (decoded r); [by eexists|by destruct Hall].
  - intros Hall r Hr Hm.
    destruct (tenant_ok user_id (Some (rec_user_id r))) eqn:Ht;
      [|by eexists].
    destruct (Hall r Hr Hm Ht) as [v ->]. by eexists.
Qed.
End ValkeyFacts.

Section SortFacts.
Context {A : Type}.
Implicit Types (l : list A) (behind : A → A → bool).

Lemma stable_insert_perm behind x l :
  Permutation (Stable.insert behind x l) (x :: l).
Proof.
  induction l as [|y l IH]; simpl; [done|].
  destruct (behind x y); [|done].
  rewrite IH. apply perm_swap.
Qed.

Lemma stable_sort_perm behind l : Permutation (Stable.sort behind l) l.
Proof.
  induction l as [|x l IH]; simpl; [done|].
  rewrite stable_insert_perm. by constructor.
Qed.

Lemma stable_sort_In behind l x : In x (Stable.sort behind l) ↔ In x l.
Proof.
  rewrite <- !list_elem_of_In. by rewrite (stable_sort_perm behind l).
Qed.

Lemma stable_sort_length behind l : length (Stable.sort behind l) = length l.
Proof. by rewrite (stable_sort_perm behind l). Qed.

(** Inserting into a sorted list keeps it sorted, when the test that
    moves [x] behind [y] or leaves it before [y] agrees with the order. *)
Lemma stable_insert_sorted behind (R : A → A → Prop) x l :
  (∀ y, In y l → if behind x y then R y x else R x y) →
  Sorted R l → Sorted R (Stable.insert behind x l).
Proof.
  induction l as [|y l IH]; intros Hx Hs; simpl.
  - by repeat constructor.
  - pose proof (Hx y (or_introl eq_refl)) as Hy.
    destruct (behind x y) eqn:Hb.
    + apply Sorted_inv in Hs as [Hs Hhd]. constructor.
      * apply IH; [|done]. intros z Hz. apply Hx. by right.
      * destruct l as [|z l]; simpl; [by constructor|].
        destruct (behind x z); constructor; [|done].
        by apply HdRel_inv in Hhd.
    + constructor; [done|]. by constructor.
Qed.

Lemma stable_sort_sorted behind (R : A → A → Prop) l :
  (∀ x y, In x l → In y l → if behind x y then R y x else R x y) →
  Sorted R (Stable.sort behind l).
Proof.
  induction l as [|x l IH]; intros Hl; simpl; [constructor|].
  apply stable_insert_sorted.
  - intros y Hy%stable_sort_In. apply Hl; [by left|by right].
  - apply IH. intros y z Hy Hz. apply Hl; by right.
Qed.

Lemma Sorted_firstn (R : A → A → Prop) k l : Sorted R l → Sorted R (firstn k l).
Proof.
  revert k. induction l as [|x l IH]; intros [|k] Hs; simpl; try constructor.
  - apply IH. by apply Sorted_inv in Hs as [].
  - apply Sorted_inv in Hs as [_ Hhd].
    destruct l as [|y l]; destruct k; simpl; constructor.
    by apply HdRel_inv in Hhd.
Qed.

Lemma Sorted_non_increasing (f : A → float) l :
  Sorted (λ a b, PrimFloat.leb (f b) (f a) = true) l →
  Num.non_increasing (map f l) = true.
Proof.
  induction l as [|x l IH]; intros Hs; [done|].
  apply Sorted_inv in Hs as [Hs Hhd]. specialize (IH Hs).
  destruct l as [|y l]; [done|].
  apply HdRel_inv in Hhd. simpl in *. by rewrite Hhd, IH.
Qed.

Lemma pairwise_In ok (f : A → float) l x y :
  Num.pairwise ok (map f l) = true → In x l → In y l → ok (f x) (f y) = true.
Proof.
  unfold Num.pairwise. rewrite forallb_forall. intros Hp Hx Hy.
  specialize (Hp (f x) (in_map f _ _ Hx)).
  rewrite forallb_forall in Hp. apply Hp. by apply in_map.
Qed.
End SortFacts.

Section SortScores.
(** [sims.sort((a, b) => b.score - a.score)] lists the scores in
    non-increasing order, when the comparator orders every two of them
    as [<=] does. *)
Lemma js_sort_descending (sims : list scored) :
  Num.pairwise Num.difference_orders (map s_score sims) = true →
  Num.non_increasing
    (map s_score
       (JSArray.sort (λ a b, (s_score b - s_score a)%float) sims)) = true.
Proof.
  intros Hp. apply Sorted_non_increasing. unfold JSArray.sort.
  apply stable_sort_sorted. intros x y Hx Hy.
  pose proof (pairwise_In _ _ _ _ _ Hp Hx Hy) as Hxy.
  unfold Num.difference_orders in Hxy.
  by destruct (PrimFloat.ltb 0 (s_score y - s_score x)).
Qed.

Lemma non_increasing_firstn k (l : list float) :
  Num.non_increasing l = true → Num.non_increasing (firstn k l) = true.
Proof.
  revert k. induction l as [|x l IH]; intros [|k] Hl; try done.
  simpl firstn. destruct l as [|y l]; [by destruct k|].
  simpl in Hl. apply andb_true_iff in Hl as [Hxy Hl].
  specialize (IH k Hl). destruct k; [done|].
  simpl in *. by rewrite Hxy, IH.
Qed.

Lemma all_non_increasing_adjacent (l : list float) :
  Num.all_non_increasing l = true → Num.non_increasing l = true.
Proof.
  induction l as [|x l IH]; [done|]. simpl.
  intros [Hx Hl]%andb_true_iff. specialize (IH Hl).
  destruct l as [|y l]; [done|]. simpl in Hx.
  apply andb_true_iff in Hx as [Hxy _]. by rewrite Hxy, IH.
Qed.

Lemma all_non_increasing_sublist (l1 l2 : list float) :
  sublist l1 l2 →
  Num.all_non_increasing l2 = true → Num.all_non_increasing l1 = true.
Proof.
  induction 1 as [|x l1 l2 Hsub IH|x l1 l2 Hsub IH]; [done|..]; simpl;
    intros [Hx Hl]%andb_true_iff.
  - rewrite (IH Hl), andb_true_r. rewrite forallb_forall in *.
    intros y Hy. apply Hx. apply list_elem_of_In.
    eapply elem_of_sublist; [|done]. by apply list_elem_of_In.
  - by apply IH.
Qed.
End SortScores.

Section CosineFacts.
Implicit Types (a b : vector).

Lemma fold_left_seq_shift {S : Type} (g : S → nat → S) n (acc : S) :
  fold_left g (seq 1 n) acc = fold_left (λ s i, g s (Datatypes.S i)) (seq 0 n) acc.
Proof.
  rewrite <- seq_shift. revert acc.
  induction (seq 0 n) as [|i l IH]; intros acc; simpl; [done|]. apply IH.
Qed.

Lemma fold_left_pointwise {S B : Type} (f g : S → B → S) l (acc : S) :
  (∀ s i, f s i = g s i) → fold_left f l acc = fold_left g l acc.
Proof.
  intros Hfg. revert acc. induction l as [|i l IH]; intros acc; simpl;
    [done|]. by rewrite Hfg, IH.
Qed.

(** The loop's three sums are the dot product and the two squared
    norms. *)
Lemma cosine_sums_fold a b (d0 n0 m0 : float) :
  length a = length b →
  fold_left
    (λ '(dot, na, nb) i,
       let ai := default nan (a !! i) in
       let bi := default nan (b !! i) in
       (dot + ai * bi, na + ai * ai, nb + bi * bi)%float)
    (seq 0 (length a)) (d0, n0, m0)
  = (fold_left (λ acc xy, (acc + fst xy * snd xy)%float) (combine a b) d0,
     fold_left (λ acc xy, (acc + fst xy * snd xy)%float) (combine a a) n0,
     fold_left (λ acc xy, (acc + fst xy * snd xy)%float) (combine b b) m0).
Proof.
  revert b d0 n0 m0. induction a as [|x a IH]; intros [|y b] d0 n0 m0 Hlen;
    try done.
  simpl length. simpl seq. simpl fold_left at 1.
  rewrite fold_left_seq_shift. simpl combine. simpl fold_left at 2 3 4.
  rewrite <- IH by (by injection Hlen).
  apply fold_left_pointwise. by intros [[d n] m] i.
Qed.

Lemma cosine_sums_spec a b :
  length a = length b →
  Valkey.cosine_sums a b = (Cosine.dot a b, Cosine.norm2 a, Cosine.norm2 b).
Proof. intros Hlen. by apply cosine_sums_fold. Qed.
End CosineFacts.

Section FloatFacts.
Lemma SFeqb_zero_inv f :
  SFeqb f (S754_zero false) = true → ∃ s, f = S754_zero s.
Proof.
  unfold SFeqb. destruct f as [s|s| |s m e]; simpl.
  - intros _. by exists s.
  - by destruct s.
  - done.
  - by destruct s.
Qed.

Lemma SFeqb_refl_inv f : SFeqb f f = false → f = S754_nan.
Proof.
  unfold SFeqb. destruct f as [s|s| |s m e]; simpl.
  - by destruct s.
  - by destruct s.
  - done.
  - destruct s; rewrite Z.compare_refl, Pos.compare_cont_refl; done.
Qed.

(** A square root that is a number other than zero is the root of a
    number other than zero. *)
Lemma truthy_sqrt x :
  JS.truthy_num (PrimFloat.sqrt x) = true → JS.truthy_num x = true.
Proof.
  unfold JS.truthy_num, PrimFloat.is_nan.
  rewrite !andb_true_iff, !negb_true_iff, !negb_false_iff.
  rewrite !FloatAxioms.eqb_spec, FloatAxioms.sqrt_spec.
  change (Prim2SF 0) with (S754_zero false).
  intros [Hz Hn]. split.
  - destruct (SFeqb (Prim2SF x) (S754_zero false)) eqn:E; [|done].
    apply SFeqb_zero_inv in E as [s E]. rewrite E in Hz.
    by destruct s.
  - destruct (SFeqb (Prim2SF x) (Prim2SF x)) eqn:E; [done|].
    apply SFeqb_refl_inv in E. rewrite E in Hn. done.
Qed.
End FloatFacts.

Section PostgresFacts.
Import SQL Postgres.
Context {embed : Embed} {host : Host} {pg : PgVector}.
Implicit Types (m : bool) (id sector : string).

Lemma storeVector_upsert m id sector vector dim user_id (t : table m) :
  storeVector m id sector vector dim user_id t
  = upsert (written m id sector vector dim user_id) t.
Proof. by destruct m. Qed.

Lemma has_key_true {m} id sector (r : row m) :
  has_key id sector r = true ↔ r_id r = id ∧ r_sector r = sector.
Proof. unfold has_key. by rewrite andb_true_iff, !String.eqb_eq. Qed.

Lemma has_key_self {m} (r : row m) : has_key (r_id r) (r_sector r) r = true.
Proof. by apply has_key_true. Qed.

Lemma excluded_conflict {m} (r new : row m) :
  conflict r new = true → excluded r new = new.
Proof.
  intros [Hi Hs]%has_key_true. destruct new; simpl in *. unfold excluded.
  simpl. by subst.
Qed.

Lemma select_delete_same {R} (P : R → bool) (t : list R) :
  select_where P (delete_where P t) = [].
Proof.
  unfold select_where, delete_where.
  induction t as [|r t IH]; simpl; [done|].
  destruct (P r) eqn:E; simpl; [done|]. by rewrite E.
Qed.

Lemma delete_where_none {R} (P : R → bool) (t : list R) :
  (∀ r, In r t → P r = false) → delete_where P t = t.
Proof.
  unfold delete_where. induction t as [|r t IH]; simpl; [done|].
  intros Hno. rewrite (Hno r) by by left. simpl. f_equal.
  apply IH. intros r' Hin. apply Hno. by right.
Qed.

Lemma filter_unique {m} (P : row m → bool) (t : table m) :
  unique_key t → unique_key (List.filter P t).
Proof.
  unfold unique_key.
  induction t as [|r t IH]; simpl; [done|].
  intros [Hnin Hnd]%NoDup_cons. destruct (P r); simpl; [|by apply IH].
  apply NoDup_cons. split; [|by apply IH].
  intros Hin. apply Hnin.
  apply list_elem_of_In, in_map_iff in Hin as (r' & Heq & Hin).
  apply List.filter_In in Hin as [Hin _].
  apply list_elem_of_In, in_map_iff. by exists r'.
Qed.

Lemma unique_key_no_other {m} (r0 : row m) (t : table m) :
  unique_key (r0 :: t) →
  ∀ r, In r t → has_key (r_id r0) (r_sector r0) r = false.
Proof.
  unfold unique_key. simpl. intros [Hnin _]%NoDup_cons r Hin.
  destruct (has_key (r_id r0) (r_sector r0) r) eqn:Hk; [|done].
  apply has_key_true in Hk as [Hi Hs]. destruct Hnin.
  apply list_elem_of_In, in_map_iff. exists r. by rewrite Hi, Hs.
Qed.

(** Rows under another key are neither added, removed nor changed. *)
Lemma upsert_other {m} (new r : row m) (t : table m) :
  has_key (r_id new) (r_sector new) r = false →
  In r (upsert new t) ↔ In r t.
Proof.
  intros Hr. unfold upsert. induction t as [|r0 t IH]; simpl.
  - split; [|done]. intros [<-|[]]. by rewrite has_key_self in Hr.
  - destruct (conflict r0 new) eqn:Hk; simpl.
    + rewrite (excluded_conflict _ _ Hk), in_app_iff. simpl. split.
      * intros [Hin|[<-|[]]]; [by right|by rewrite has_key_self in Hr].
      * intros [<-|Hin]; [|by left].
        unfold conflict in Hk. by rewrite Hk in Hr.
    + by rewrite IH.
Qed.

Lemma upsert_In_weak {m} (new r : row m) (t : table m) :
  In r (upsert new t) → r = new ∨ In r t.
Proof.
  unfold upsert. induction t as [|r0 t IH]; simpl.
  - intros [<-|[]]. by left.
  - destruct (conflict r0 new) eqn:Hk; simpl.
    + rewrite (excluded_conflict _ _ Hk), in_app_iff. simpl.
      intros [Hin|[<-|[]]]; [right; by right|by left].
    + intros [<-|Hin]; [right; by left|].
      destruct (IH Hin) as [->|Hin']; [by left|right; by right].
Qed.

Lemma upsert_In_new {m} (new : row m) (t : table m) : In new (upsert new t).
Proof.
  unfold upsert. induction t as [|r0 t IH]; simpl; [by left|].
  destruct (conflict r0 new) eqn:Hk; simpl; [|by right].
  rewrite (excluded_conflict _ _ Hk), in_app_iff. right. by left.
Qed.

(** Under the unique constraint the upsert removes the row under the key
    of the new row, if there is one, and puts the new row behind the
    others. *)
Lemma upsert_delete {m} (new : row m) (t : table m) :
  unique_key t →
  upsert new t
  = delete_where (has_key (r_id new) (r_sector new)) t ++ [new].
Proof.
  unfold upsert, delete_where. induction t as [|r0 t IH]; simpl; [done|].
  intros Hnd. unfold conflict at 1.
  destruct (has_key (r_id new) (r_sector new) r0) eqn:Hk; simpl.
  - rewrite (excluded_conflict r0 new Hk). f_equal. symmetry.
    apply (delete_where_none (has_key (r_id new) (r_sector new))).
    apply has_key_true in Hk as [<- <-]. by apply unique_key_no_other.
  - f_equal. apply IH. unfold unique_key in *. simpl in Hnd.
    by apply NoDup_cons in Hnd as [].
Qed.

(** The upsert keeps the unique constraint. *)
Lemma upsert_unique {m} (new : row m) (t : table m) :
  unique_key t → unique_key (upsert new t).
Proof.
  intros Hnd. rewrite upsert_delete by done.
  unfold unique_key. rewrite map_app. simpl.
  apply NoDup_app. split; [by apply (filter_unique _ t)|]. split.
  - intros k Hk ->%list_elem_of_singleton.
    apply list_elem_of_In, in_map_iff in Hk as (r & [= Hi Hs] & Hin).
    apply List.filter_In in Hin as [_ Hn].
    assert (has_key (r_id new) (r_sector new) r = true)
      by by apply has_key_true.
    by rewrite H in Hn.
  - apply NoDup_singleton.
Qed.

(** Under the unique constraint the upsert leaves exactly one row under
    its key: the new one. *)
Lemma upsert_select_key {m} (new : row m) (t : table m) :
  unique_key t →
  select_where (has_key (r_id new) (r_sector new)) (upsert new t) = [new].
Proof.
  intros Hnd. rewrite upsert_delete by done.
  unfold select_where. rewrite List.filter_app.
  change (List.filter ?P (delete_where ?Q t))
    with (select_where P (delete_where Q t)).
  rewrite select_delete_same. simpl. by rewrite has_key_self.
Qed.

Lemma deleteVectors_In {m} id (t : table m) r :
  In r (deleteVectors id t) ↔ In r t ∧ r_id r ≠ id.
Proof.
  unfold deleteVectors, delete_where, has_id.
  rewrite List.filter_In, negb_true_iff, String.eqb_neq. done.
Qed.

Lemma getVectorsBySector_rows m sector (t : table m) x :
  In x (Postgres.getVectorsBySector m sector t) ↔
  ∃ r, In r t ∧ r_sector r = sector ∧
       x = BySector (r_id r) (read_v m (r_v r)) (Some (r_dim r)).
Proof.
  unfold Postgres.getVectorsBySector, select_where, has_sector.
  rewrite in_map_iff. split.
  - intros (r & <- & [Hin Hs%String.eqb_eq]%List.filter_In). by exists r.
  - intros (r & Hin & Hs & ->). exists r. split; [done|].
    apply List.filter_In. split; [done|]. by apply String.eqb_eq.
Qed.

Lemma search_filter_true {m} sector user_id (r : row m) :
  search_filter sector user_id r = true →
  r_sector r = sector ∧
  (JS.truthy_str user_id = true → user_id = Some (r_user_id r)).
Proof.
  unfold search_filter, has_sector.
  intros [Hs Hu]%andb_true_iff. apply String.eqb_eq in Hs. split; [done|].
  intros Ht. destruct user_id as [u|]; [|done]. rewrite Ht in Hu.
  apply String.eqb_eq in Hu. by subst.
Qed.

Lemma firstn_In {A} k (l : list A) x : In x (firstn k l) → In x l.
Proof.
  rewrite <- !list_elem_of_In. intros Hin.
  eapply elem_of_sublist; [done|]. apply sublist_take.
Qed.

(** The rows behind the results of a search, in either mode. *)
Lemma searchSimilar_rows m sector queryVec topK user_id (t : table m) x :
  In x (searchSimilar m sector queryVec topK user_id t) →
  ∃ r, In r t ∧ search_filter sector user_id r = true ∧ s_id x = r_id r.
Proof.
  destruct m; simpl.
  - rewrite in_map_iff. intros (r & <- & Hin). exists r.
    unfold limit in Hin. apply firstn_In in Hin.
    apply stable_sort_In in Hin.
    apply List.filter_In in Hin as [Hin Hf]. done.
  - unfold JSArray.slice0, JSArray.sort. intros Hin.
    apply firstn_In in Hin.
    apply stable_sort_In, in_map_iff in Hin as (r & <- & Hin).
    apply List.filter_In in Hin as [Hin Hf]. by exists r.
Qed.

Lemma searchSimilar_length m sector queryVec topK user_id (t : table m) :
  (length (searchSimilar m sector queryVec topK user_id t) ≤ topK)%nat.
Proof.
  destruct m; simpl.
  - rewrite length_map. apply firstn_le_length.
  - apply firstn_le_length.
Qed.
End PostgresFacts.

Section PostgresSearchOrder.
Import SQL Postgres.
Context {embed : Embed} {host : Host} {pg : PgVector}.

Lemma searchSimilar_compat_sorted sector queryVec topK user_id
    (t : table false) :
  Num.pairwise Num.difference_orders
    (search_scores sector queryVec user_id t) = true →
  Num.non_increasing
    (map s_score (searchSimilar false sector queryVec topK user_id t))
  = true.
Proof.
  intros Hp. simpl. unfold JSArray.slice0.
  rewrite <- firstn_map. apply non_increasing_firstn.
  apply js_sort_descending. by rewrite map_map.
Qed.

Lemma searchSimilar_native_sorted sector queryVec topK user_id
    (t : table true) :
  Num.pairwise distance_orders
    (search_distances sector queryVec user_id t) = true →
  Num.non_increasing
    (map s_score (searchSimilar true sector queryVec topK user_id t))
  = true.
Proof.
  intros Hp. simpl. rewrite map_map. simpl.
  apply (Sorted_non_increasing
           (λ r : row true,
              (1 - cosine_distance (r_v r)
                     (vector_in (JSON_stringify queryVec)))%float)).
  unfold limit. apply Sorted_firstn. unfold order_by.
  apply stable_sort_sorted. intros x y Hx Hy.
  pose proof (pairwise_In _ _ _ _ _ Hp Hx Hy) as Hxy.
  unfold distance_orders in Hxy.
  by destruct (float8_lt _ _).
Qed.
End PostgresSearchOrder.

Section NativeReplyFacts.
Import Redis Valkey.
Context {host : Host}.
Implicit Types (res kept : list document) (acc : list scored).

(** The reader keeps a sub-sequence of the reply, in the reply's order,
    and every document it keeps passed the tenant test. *)
Lemma read_documents_kept res topK user_id acc :
  ∃ kept,
    sublist kept res ∧
    read_documents res topK user_id acc
      = acc ++ map (λ d, fst (read_document d)) kept ∧
    Forall (λ d, tenant_ok user_id (Some (snd (read_document d))) = true)
           kept.
Proof.
  revert acc. induction res as [|d res IH]; intros acc; simpl.
  - exists []. by rewrite app_nil_r.
  - destruct (read_document d) as [entry u] eqn:Hd.
    destruct (tenant_ok user_id (Some u)) eqn:Ht.
    + destruct (topK <=? length (acc ++ [entry]))%nat.
      * exists [d]. split; [apply sublist_skips_r with (k := [d]) ||
          (constructor; apply sublist_nil_l)|].
        simpl. rewrite Hd. simpl. split; [done|].
        constructor; [by rewrite Hd|constructor].
      * destruct (IH (acc ++ [entry])) as (kept & Hsub & -> & Hall).
        exists (d :: kept). split; [by constructor|].
        simpl. rewrite Hd. simpl. rewrite <- app_assoc. split; [done|].
        constructor; [by rewrite Hd|done].
    + destruct (IH acc) as (kept & Hsub & -> & Hall).
      exists kept. split; [by constructor|done].
Qed.

Lemma read_documents_bound res topK user_id acc :
  (length acc < topK)%nat →
  (length (read_documents res topK user_id acc) ≤ topK)%nat.
Proof.
  revert acc. induction res as [|d res IH]; intros acc Hacc; simpl; [lia|].
  destruct (read_document d) as [entry u].
  destruct (tenant_ok user_id (Some u)); [|by apply IH].
  destruct (topK <=? length (acc ++ [entry]))%nat eqn:Hk.
  - rewrite length_app. simpl. lia.
  - apply IH. apply Nat.leb_gt in Hk. done.
Qed.

(** At most [topK] results, when the reply holds at most the [2 * topK]
    documents asked for. *)
Lemma read_documents_length res topK user_id :
  (length res ≤ topK * 2)%nat →
  (length (read_documents res topK user_id []) ≤ topK)%nat.
Proof.
  intros Hres. destruct topK as [|k].
  - destruct res; [done|simpl in Hres; lia].
  - apply read_documents_bound. simpl. lia.
Qed.

Lemma read_fields_reports pairs (r : record) i0 d0 u0 :
  (∀ n v, In (n, v) pairs →
     (n = "id" → v = rec_id r) ∧ (n = "user_id" → v = rec_user_id r)) →
  ∃ i d u, read_fields (flatten pairs) (i0, d0, u0) = (i, d, u) ∧
    (i = i0 ∨ i = rec_id r) ∧ (u = u0 ∨ u = rec_user_id r).
Proof.
  revert i0 d0 u0. induction pairs as [|[n v] pairs IH]; intros i0 d0 u0 Hp.
  - exists i0, d0, u0. simpl. tauto.
  - change (flatten ((n, v) :: pairs)) with (n :: v :: flatten pairs).
    simpl read_fields.
    destruct (IH (if String.eqb n "id" then v else i0)
                 (if String.eqb n "score" then parseFloat v else d0)
                 (if String.eqb n "user_id" then v else u0))
      as (i & d & u & -> & Hi & Hu).
    { intros n' v' Hin. apply Hp. by right. }
    exists i, d, u. split; [done|].
    destruct (Hp n v (or_introl eq_refl)) as [Hid Huid]. split.
    + destruct Hi as [->|Hi]; [|by right].
      destruct (String.eqb n "id") eqn:E; [|by left].
      apply String.eqb_eq in E. right. by apply Hid.
    + destruct Hu as [->|Hu]; [|by right].
      destruct (String.eqb n "user_id") eqn:E; [|by left].
      apply String.eqb_eq in E. right. by apply Huid.
Qed.

(** A document that reports a record is read as that record: its id,
    and its tenant unless the reply left the tenant out. *)
Lemma read_document_reports (d : document) (r : record) :
  reports d r → colon_free (rec_id r) →
  s_id (fst (read_document d)) = rec_id r ∧
  (snd (read_document d) = EmptyString ∨
   snd (read_document d) = rec_user_id r).
Proof.
  destruct d as [key fields]. intros [Hkey (pairs & Hf & Hp)] Hcf.
  simpl in Hkey, Hf. subst key fields. unfold read_document.
  destruct (read_fields_reports pairs r EmptyString 0%float EmptyString Hp)
    as (i & dist & u & -> & Hi & Hu).
  simpl. split; [|done].
  destruct Hi as [->| ->].
  - simpl. unfold key_of. by apply getKey_pop.
  - destruct (rec_id r) eqn:E; simpl; [|done].
    unfold key_of. rewrite E. by apply getKey_pop.
Qed.

Lemma tenant_ok_given (u w : string) :
  JS.truthy_str (Some u) = true →
  tenant_ok (Some u) (Some w) = true → w = u.
Proof.
  unfold tenant_ok. intros ->. simpl. by intros ?%String.eqb_eq.
Qed.
End NativeReplyFacts.

Section StoreReadFacts.
Import Redis Valkey.
Context {embed : Embed}.


(** What [getVector] finds under the key of a record of the store. *)
Lemma getVector_holds (σ : store) (r : record) :
  holds σ r →
  getVector (rec_id r) (rec_sector r) σ
  = if JS.truthy_str (Some (rec_v r))
    then bind (decoded r) (λ w, Returned (Some (VecDim w (dim_read r))))
    else Returned None.
Proof.
  intros Hr. unfold getVector.
  change (getKey (rec_id r) (rec_sector r)) with (key_of r).
  rewrite (holds_hmget _ _ _ _ Hr), hash_of_v, hash_of_dim.
  unfold decoded, dim_read. by destruct (rec_v r).
Qed.

Lemma getVector_absent id sector (σ : store) :
  σ !! getKey id sector = None → getVector id sector σ = Returned None.
Proof. intros Hk. unfold getVector, hmget. simpl. by rewrite Hk. Qed.

Lemma storeVector_other id sector vector dim user_id (σ : store) k :
  k ≠ getKey id sector →
  storeVector id sector vector dim user_id σ !! k = σ !! k.
Proof. intros Hk. unfold storeVector, hset. by rewrite lookup_insert_ne. Qed.

Lemma truthy_str_nonempty (s : string) :
  s ≠ EmptyString → JS.truthy_str (Some s) = true.
Proof. by destruct s. Qed.
End StoreReadFacts.

Section PostgresReadFacts.
Import SQL Postgres.
Context {embed : Embed} {host : Host} {pg : PgVector}.

End PostgresReadFacts.

Section UpsertTwice.
Import SQL Postgres.
Context {pg : PgVector}.

(** A second upsert under the same key leaves no trace of the first. *)
Lemma upsert_upsert {m} (new1 new2 : row m) (t : table m) :
  unique_key t →
  r_id new1 = r_id new2 → r_sector new1 = r_sector new2 →
  upsert new2 (upsert new1 t) = upsert new2 t.
Proof.
  intros Hnd Hi Hs.
  rewrite (upsert_delete new2 (upsert new1 t)) by by apply upsert_unique.
  rewrite (upsert_delete new2 t), (upsert_delete new1 t) by done.
  f_equal. rewrite Hi, Hs. unfold delete_where.
  rewrite List.filter_app. simpl.
  rewrite <- Hi, <- Hs, has_key_self. simpl. rewrite app_nil_r.
  rewrite Hi, Hs. clear.
  induction t as [|r t IH]; simpl; [done|].
  destruct (has_key (r_id new2) (r_sector new2) r) eqn:Hk; simpl; [done|].
  by rewrite Hk, IH.
Qed.
End UpsertTwice.

Section FallbackFacts.
Import Redis Valkey.
Context {embed : Embed} {host : Host} {server : Server}.

(** The fallback returns when its scan does, and then the first [topK]
    of the sorted scores of the candidates. *)
Lemma fallback_Returned sector queryVec topK user_id (σ : store) out :
  fallback sector queryVec topK user_id σ = Returned out ↔
  ∃ sims, fallback_sims sector queryVec user_id σ = Returned sims ∧
    out = firstn topK
            (JSArray.sort (λ a b, (s_score b - s_score a)%float) sims).
Proof.
  unfold fallback. destruct (fallback_sims _ _ _ _) as [sims|e]; simpl.
  - split; [intros [= <-]; by exists sims|].
    by intros (sims' & [= <-] & ->).
  - split; [done|]. by intros (? & ? & _).
Qed.

Lemma fallback_sims_Returned sector queryVec user_id (σ : store) sims :
  fallback_sims sector queryVec user_id σ = Returned sims ↔
  ∃ allVecs, scan_all sector user_id σ = Returned allVecs ∧
    sims = map (λ v, Scored (fst v) (cosineSimilarity queryVec (snd v)))
             allVecs.
Proof.
  unfold fallback_sims. destruct (scan_all _ _ _) as [allVecs|e]; simpl.
  - split; [intros [= <-]; by exists allVecs|].
    by intros (? & [= <-] & ->).
  - split; [done|]. by intros (? & ? & _).
Qed.

Lemma fallback_returned sector queryVec topK user_id (σ : store) :
  returned (fallback sector queryVec topK user_id σ) ↔
  returned (scan_all sector user_id σ).
Proof.
  unfold fallback, fallback_sims.
  destruct (scan_all _ _ _) as [allVecs|e]; simpl.
  - split; intros _; by eexists.
  - split; by intros [? ?].
Qed.

Lemma fallback_length sector queryVec topK user_id (σ : store) out :
  fallback sector queryVec topK user_id σ = Returned out →
  (length out ≤ topK)%nat.
Proof. intros (sims & _ & ->)%fallback_Returned. apply firstn_le_length. Qed.

(** Every result of the fallback comes from a record whose key the scan
    matched, which passed the tenant test and whose payload the codec
    decoded; its id is the last segment of that key, its score the
    similarity of the query and the decoded vector. *)
Lemma fallback_In sector queryVec topK user_id (σ : store) out x :
  wf σ →
  fallback sector queryVec topK user_id σ = Returned out →
  In x out →
  ∃ r v, holds σ r ∧
         Glob.matches ("vec:" +:+ sector +:+ ":*") (key_of r) = true ∧
         tenant_ok user_id (Some (rec_user_id r)) = true ∧
         decoded r = Returned v ∧
         x = Scored (JS.split_pop (key_of r))
               (cosineSimilarity queryVec v).
Proof.
  intros Hwf (sims & (allVecs & Hscan & ->)%fallback_sims_Returned & ->)
    %fallback_Returned Hin.
  unfold JSArray.sort in Hin.
  apply firstn_In, stable_sort_In in Hin.
  apply in_map_iff in Hin as ([i v] & <- & Hin).
  apply (scan_all_In _ _ _ _ _ Hwf Hscan) in Hin
    as (r & w & Hr & Hm & Ht & Hw & [= -> ->]).
  by exists r, w.
Qed.

Lemma fallback_sorted sector queryVec topK user_id (σ : store) sims out :
  fallback_sims sector queryVec user_id σ = Returned sims →
  Num.pairwise Num.difference_orders (map s_score sims) = true →
  fallback sector queryVec topK user_id σ = Returned out →
  Num.non_increasing (map s_score out) = true.
Proof.
  intros Hsims Hp (sims' & Hsims' & ->)%fallback_Returned.
  rewrite Hsims in Hsims'. injection Hsims' as <-.
  rewrite <- firstn_map. apply non_increasing_firstn.
  by apply js_sort_descending.
Qed.

(** A document that reports a record is read with the record's id or
    with the last segment of its key, and with the record's tenant
    unless the reply left the tenant out. *)
Lemma read_document_reports_any (d : document) (r : record) :
  reports d r →
  (s_id (fst (read_document d)) = rec_id r ∨
   s_id (fst (read_document d)) = JS.split_pop (key_of r)) ∧
  (snd (read_document d) = EmptyString ∨
   snd (read_document d) = rec_user_id r).
Proof.
  destruct d as [key fields]. intros [Hkey (pairs & Hf & Hp)].
  simpl in Hkey, Hf. subst key fields. unfold read_document.
  destruct (read_fields_reports pairs r EmptyString 0%float EmptyString Hp)
    as (i & dist & u & -> & Hi & Hu).
  simpl. split; [|done].
  destruct Hi as [->| ->]; [by right|].
  destruct (rec_id r) eqn:E; simpl; [by right|by left].
Qed.

Lemma read_documents_In res topK user_id x :
  In x (read_documents res topK user_id []) →
  ∃ d, In d res ∧ x = fst (read_document d) ∧
       tenant_ok user_id (Some (snd (read_document d))) = true.
Proof.
  destruct (read_documents_kept res topK user_id [])
    as (kept & Hsub & -> & Hall).
  rewrite app_nil_l, in_map_iff. intros (d & <- & Hin).
  exists d. split; [|split; [done|]].
  - apply list_elem_of_In. eapply elem_of_sublist; [|done].
    by apply list_elem_of_In.
  - rewrite Forall_forall in Hall. apply Hall. by apply list_elem_of_In.
Qed.

Lemma read_documents_sorted res topK user_id :
  Num.all_non_increasing (map listed_score res) = true →
  Num.non_increasing
    (map s_score (read_documents res topK user_id [])) = true.
Proof.
  intros Hs.
  destruct (read_documents_kept res topK user_id [])
    as (kept & Hsub & -> & _).
  rewrite app_nil_l, map_map. apply all_non_increasing_adjacent.
  apply (all_non_increasing_sublist _ (map listed_score res)); [|done].
  by apply (fmap_sublist listed_score).
Qed.
End FallbackFacts.

Section ScenarioFacts.
Import Redis Valkey.

Lemma scenario_wf : wf Scenario.store.
Proof. do 2 apply (wf_storeVector (embed := Reference.embed)). apply wf_empty. Qed.

Lemma scenario_records r :
  holds Scenario.store r →
  r = written (embed := Reference.embed) "b" "s" [0; 1]%float 2 (Some "bob") ∨
  r = written (embed := Reference.embed) "a" "s" [1; 0]%float 2 (Some "alice").
Proof.
  unfold holds, Scenario.store. intros Hr.
  rewrite !(storeVector_insert (embed := Reference.embed)) in Hr
    by (repeat apply (wf_storeVector (embed := Reference.embed));
        apply wf_empty).
  apply lookup_insert_Some in Hr as [[_ Hh]|[_ Hr]].
  { apply hash_of_inj in Hh. by left. }
  apply lookup_insert_Some in Hr as [[_ Hh]|[_ Hr]].
  { apply hash_of_inj in Hh. by right. }
  by rewrite lookup_empty in Hr.
Qed.

Lemma scenario_colon_free : colon_free_store Scenario.store.
Proof. intros r [-> | ->]%scenario_records; by split. Qed.

Lemma scenario_holds_a :
  holds Scenario.store
    (written (embed := Reference.embed) "a" "s" [1; 0]%float 2 (Some "alice")).
Proof.
  unfold holds, Scenario.store.
  rewrite (storeVector_other (embed := Reference.embed)) by done.
  rewrite (storeVector_insert (embed := Reference.embed)) by apply wf_empty.
  apply lookup_insert_eq.
Qed.

Lemma scenario_holds_b :
  holds Scenario.store
    (written (embed := Reference.embed) "b" "s" [0; 1]%float 2 (Some "bob")).
Proof.
  unfold holds, Scenario.store.
  rewrite (storeVector_insert (embed := Reference.embed))
    by (apply (wf_storeVector (embed := Reference.embed)), wf_empty).
  apply lookup_insert_eq.
Qed.

Lemma scenario_reply_reports d :
  In d Scenario.reply →
  ∃ r, holds Scenario.store r ∧ rec_sector r = "s" ∧ reports d r.
Proof.
  intros [<-|[<-|[]]].
  - exists (written (embed := Reference.embed) "a" "s" [1; 0]%float 2
              (Some "alice")).
    split; [apply scenario_holds_a|]. split; [done|]. split; [done|].
    exists [("id", "a"); ("score", "0"); ("user_id", "alice")].
    split; [done|].
    intros n v [[= <- <-]|[[= <- <-]|[[= <- <-]|[]]]]; by split.
  - exists (written (embed := Reference.embed) "b" "s" [0; 1]%float 2
              (Some "bob")).
    split; [apply scenario_holds_b|]. split; [done|]. split; [done|].
    exists [("id", "b"); ("score", "1"); ("user_id", "bob")].
    split; [done|].
    intros n v [[= <- <-]|[[= <- <-]|[[= <- <-]|[]]]]; by split.
Qed.

Lemma scenario_index_reply k :
  (1 ≤ k)%nat →
  index_reply (host := Reference.host) Scenario.store "s" k Scenario.reply.
Proof.
  intros Hk. split; [simpl; lia|]. split; [apply scenario_reply_reports|].
  by vm_compute.
Qed.

Lemma bare_wf : wf Scenario.bare.
Proof. do 2 apply (wf_storeVector (embed := Reference.embed)). apply wf_empty. Qed.

Lemma bare_records r :
  holds Scenario.bare r →
  r = written (embed := Reference.embed) "b" "s" [] 0 (Some "bob") ∨
  r = written (embed := Reference.embed) "a" "s" [] 0 (Some "alice").
Proof.
  unfold holds, Scenario.bare. intros Hr.
  rewrite !(storeVector_insert (embed := Reference.embed)) in Hr
    by (repeat apply (wf_storeVector (embed := Reference.embed));
        apply wf_empty).
  apply lookup_insert_Some in Hr as [[_ Hh]|[_ Hr]].
  { apply hash_of_inj in Hh. by left. }
  apply lookup_insert_Some in Hr as [[_ Hh]|[_ Hr]].
  { apply hash_of_inj in Hh. by right. }
  by rewrite lookup_empty in Hr.
Qed.

Lemma bare_colon_free : colon_free_store Scenario.bare.
Proof. intros r [-> | ->]%bare_records; by split. Qed.

(** The codec reads the empty payloads of the two records. *)
Lemma bare_decodes : decodes (embed := Reference.embed) Scenario.bare.
Proof. intros r [-> | ->]%bare_records; by eexists. Qed.
End ScenarioFacts.

(* ===================================================================== *)
(** * The claims *)
(* ===================================================================== *)

(** C1, as the claim states it, fails in four places.
    - On the fallback path of the key/value class a search in sector
      ["s"] returns the id of a record stored under sector ["s:x"],
      although no record is stored under sector ["s"] (the record holds
      the empty vector, which the codec reads from the reply).
    - On the native path of the key/value class the reader takes what
      the index lists: an index over the keys that start with
      ["vec:s:"] lists the same record, and the search in sector ["s"]
      returns its id.
    - In the compatibility mode of the relational class a score that is
      NaN stays where the comparator leaves it: the scores returned for
      the query [[Infinity]] are NaN, then 0.
    - In the native mode of the relational class the engine refuses the
      query when a row of the sector has another dimension than the
      query vector: nothing is returned. *)
Lemma C1_search_contract_fails :
  (let c := Redis.Client (λ _ _ _, Redis.Thrown Redis.IndexMissing) None in
   let σ := Valkey.storeVector (embed := Reference.embed) "y" "s:x" [] 0
              None ∅ in
   snd (Valkey.searchSimilar (embed := Reference.embed)
          (host := Reference.host) (server := Reference.server)
          c "s" [1; 0]%float 1 None σ)
     = Redis.Returned [Scored "y" 0%float] ∧
   ¬ ∃ r, Valkey.holds σ r ∧ Valkey.rec_sector r = "s") ∧
  (let c :=
     Redis.Client
       (λ _ _ _, Redis.Returned [("vec:s:x:y", ["id"; "y"; "score"; "0"])])
       None in
   let σ := Valkey.storeVector (embed := Reference.embed) "y" "s:x"
              [1; 0]%float 2 None ∅ in
   snd (Valkey.searchSimilar (embed := Reference.embed)
          (host := Reference.host) (server := Reference.server)
          c "s" [1; 0]%float 1 None σ)
     = Redis.Returned [Scored "y" 1%float] ∧
   ¬ ∃ r, Valkey.holds σ r ∧ Valkey.rec_sector r = "s") ∧
  (let t := Postgres.storeVector (embed := Reference.embed)
              (host := Reference.host) (pg := Reference.pgvector) false
              "b" "s" [0]%float 1 None
              (Postgres.storeVector (embed := Reference.embed)
                 (host := Reference.host) (pg := Reference.pgvector) false
                 "a" "s" [1]%float 1 None []) in
   let out := Postgres.searchSimilar (embed := Reference.embed)
                (host := Reference.host) (pg := Reference.pgvector) false
                "s" [infinity] 2 None t in
   map s_id out = ["a"; "b"] ∧
   map (λ x, PrimFloat.is_nan (s_score x)) out = [true; false] ∧
   Num.non_increasing (map s_score out) = false) ∧
  (let t := Postgres.storeVector (embed := Reference.embed)
              (host := Reference.host) (pg := Reference.pgvector) true
              "a" "s" [1; 0; 0]%float 3 None [] in
   Postgres.search_accepted (host := Reference.host)
     (pg := Reference.pgvector) true "s" [1; 0]%float None t = false).
Proof.
  assert (Hno : ∀ v d,
    ¬ ∃ r, Valkey.holds
             (Valkey.storeVector (embed := Reference.embed) "y" "s:x" v d
                None ∅) r ∧ Valkey.rec_sector r = "s").
  { intros v d (r & Hr & Hs). unfold Valkey.holds in Hr.
    rewrite (storeVector_insert (embed := Reference.embed)) in Hr
      by apply wf_empty.
    apply lookup_insert_Some in Hr as [[_ Hh]|[_ Hr]];
      [|by rewrite lookup_empty in Hr].
    apply hash_of_inj in Hh. rewrite <- Hh in Hs. discriminate Hs. }
  split; [split; [by vm_compute|apply Hno]|].
  split; [split; [by vm_compute|apply Hno]|].
  split; [by vm_compute|by vm_compute].
Qed.

(** C1, amended.  [searchSimilar(sector, q, k)] returns at most [k] pairs,
    every returned id is the id of a record stored under the sector, and
    the scores are in non-increasing order, for every count [k], query
    vector and state of the store:
    - on the relational class in compatibility mode, for every sector
      string;
    - on the relational class in native mode, for every sector string,
      when the engine carries out the query;
    - on the key/value class whenever the call returns, for a sector
      without [':'] and without glob metacharacter, on a store whose
      records have no [':'] in their sector and id: on the fallback
      path, and on the native path when the index of the sector answers
      as the store expects of it (at most the [2k] documents asked for,
      each of a record of the sector, nearest first).  The call returns
      when the scan commands get through and the codec decodes the
      payloads of the store.
    The order of the scores is the one of the numbers: it is stated for
    scores (distances, in native relational mode) that the comparison in
    use orders as [<=] does, which is the case unless one of them is
    NaN.  The count and the ids do not depend on it. *)
Theorem C1_search_cardinality {embed : Embed} {host : Host} {pg : PgVector}
    {server : Redis.Server}
    (c : Redis.client) (σ : Redis.store)
    (t0 : Postgres.table false) (t1 : Postgres.table true)
    (sector : string) (q : vector) (k : nat) (user_id : option string) :
  (Valkey.wf σ → Valkey.colon_free_store σ →
   colon_free sector → glob_free sector →
   (∀ res,
      Redis.ft_search c ("idx:" +:+ sector) (k * 2) (vectorToBuffer q)
        = Redis.Returned res →
      Valkey.index_reply σ sector k res) →
   (Valkey.decodes σ → Redis.scan_fault c = None →
    Redis.returned (snd (Valkey.searchSimilar c sector q k user_id σ))) ∧
   (∀ out,
      snd (Valkey.searchSimilar c sector q k user_id σ)
        = Redis.Returned out →
      (length out ≤ k)%nat ∧
      (∀ x, In x out → Valkey.in_sector σ sector (s_id x)) ∧
      ((∀ sims,
          Valkey.fallback_sims sector q user_id σ = Redis.Returned sims →
          Num.pairwise Num.difference_orders (map s_score sims) = true) →
       Num.non_increasing (map s_score out) = true))) ∧
  ((length (Postgres.searchSimilar false sector q k user_id t0) ≤ k)%nat ∧
   (∀ x, In x (Postgres.searchSimilar false sector q k user_id t0) →
         Postgres.in_sector t0 sector (s_id x)) ∧
   (Num.pairwise Num.difference_orders
      (Postgres.search_scores sector q user_id t0) = true →
    Num.non_increasing
      (map s_score (Postgres.searchSimilar false sector q k user_id t0))
    = true)) ∧
  (Postgres.search_accepted true sector q user_id t1 = true →
   (length (Postgres.searchSimilar true sector q k user_id t1) ≤ k)%nat ∧
   (∀ x, In x (Postgres.searchSimilar true sector q k user_id t1) →
         Postgres.in_sector t1 sector (s_id x)) ∧
   (Num.pairwise SQL.distance_orders
      (Postgres.search_distances sector q user_id t1) = true →
    Num.non_increasing
      (map s_score (Postgres.searchSimilar true sector q k user_id t1))
    = true)).
Proof.
  assert (Hpg : ∀ m (t : Postgres.table m) x,
            In x (Postgres.searchSimilar m sector q k user_id t) →
            Postgres.in_sector t sector (s_id x)).
  { intros m t x (r & Hin & Hf & Hid)%searchSimilar_rows.
    apply search_filter_true in Hf as [Hsec _]. by exists r. }
  split; [|split].
  - intros Hwf Hcf Hs Hg Hreply. unfold Valkey.searchSimilar.
    destruct (Redis.ft_search c _ _ _) as [res|e] eqn:Hcall; simpl.
    + split; [intros _ _; by eexists|]. intros out [= <-].
      destruct (Hreply res eq_refl) as (Hlen & Hdocs & Hord).
      split; [by apply read_documents_length|].
      split; [|intros _; by apply read_documents_sorted].
      intros x (d & Hd & -> & _)%read_documents_In.
      destruct (Hdocs d Hd) as (r & Hr & Hsec & Hrep).
      exists r. split; [done|]. split; [done|]. symmetry.
      apply read_document_reports; [done|]. by apply Hcf.
    + split.
      * intros Hdec ->. apply fallback_returned, scan_all_returned; [done|].
        intros r Hr _ _. by apply Hdec.
      * destruct (Redis.scan_fault c); [done|]. intros out Hout.
        split; [by apply fallback_length in Hout|]. split.
        -- intros x Hx.
           destruct (fallback_In _ _ _ _ _ _ _ Hwf Hout Hx)
             as (r & v & Hr & Hm & _ & _ & ->).
           destruct (Hcf r Hr) as [Hri Hrs].
           apply glob_sector_pattern in Hm as [rest Hk]; [|done].
           apply getKey_prefix_inv in Hk as [Hsec _]; [|done..].
           exists r. split; [done|]. split; [done|]. simpl.
           unfold Valkey.key_of. symmetry. by apply getKey_pop.
        -- intros Hp. pose proof Hout as Hout'.
           apply fallback_Returned in Hout' as (sims & Hsims & _).
           by apply (fallback_sorted _ _ _ _ _ _ _ Hsims (Hp _ Hsims) Hout).
  - split; [apply searchSimilar_length|].
    split; [apply Hpg|apply searchSimilar_compat_sorted].
  - intros _. split; [apply searchSimilar_length|].
    split; [apply Hpg|apply searchSimilar_native_sorted].
Qed.

(** The amended C1 on the scenario: the fallback path on the records with
    the empty vector, the native path of the key/value class, and both
    modes of the relational class. *)
Lemma C1_search_cardinality_witness :
  (Redis.returned
     (snd (Valkey.searchSimilar (embed := Reference.embed)
             (host := Reference.host) (server := Reference.server)
             Scenario.failing "s" [1; 0]%float 2 None Scenario.bare)) ∧
   ∀ out,
     snd (Valkey.searchSimilar (embed := Reference.embed)
            (host := Reference.host) (server := Reference.server)
            Scenario.failing "s" [1; 0]%float 2 None Scenario.bare)
       = Redis.Returned out →
     (length out ≤ 2)%nat ∧
     (∀ x, In x out → Valkey.in_sector Scenario.bare "s" (s_id x)) ∧
     Num.non_increasing (map s_score out) = true) ∧
  (∀ out,
     snd (Valkey.searchSimilar (embed := Reference.embed)
            (host := Reference.host) (server := Reference.server)
            Scenario.answering "s" [1; 0]%float 2 None Scenario.store)
       = Redis.Returned out →
     (length out ≤ 2)%nat ∧
     (∀ x, In x out → Valkey.in_sector Scenario.store "s" (s_id x)) ∧
     Num.non_increasing (map s_score out) = true) ∧
  Num.non_increasing
    (map s_score
       (Postgres.searchSimilar (embed := Reference.embed)
          (host := Reference.host) (pg := Reference.pgvector) false "s"
          [1; 0]%float 2 None (Scenario.table false))) = true ∧
  Num.non_increasing
    (map s_score
       (Postgres.searchSimilar (embed := Reference.embed)
          (host := Reference.host) (pg := Reference.pgvector) true "s"
          [1; 0]%float 2 None (Scenario.table true))) = true.
Proof.
  pose proof
    (λ c σ,
       C1_search_cardinality (embed := Reference.embed)
         (host := Reference.host) (pg := Reference.pgvector)
         (server := Reference.server)
         c σ (Scenario.table false) (Scenario.table true)
         "s" [1; 0]%float 2 None) as Hc.
  split; [|split; [|split]].
  - destruct (proj1 (Hc Scenario.failing Scenario.bare)
                bare_wf bare_colon_free eq_refl eq_refl) as [Hret Hout].
    { intros res Hres. discriminate Hres. }
    split; [apply Hret; [apply bare_decodes|reflexivity]|].
    intros out Ho. destruct (Hout out Ho) as (Hlen & Hin & Hord).
    split; [done|]. split; [done|]. apply Hord.
    intros sims Hsims. vm_compute in Hsims. injection Hsims as <-.
    reflexivity.
  - destruct (proj1 (Hc Scenario.answering Scenario.store)
                scenario_wf scenario_colon_free eq_refl eq_refl) as [_ Hout].
    { intros res [= <-]. apply scenario_index_reply. lia. }
    intros out Ho. destruct (Hout out Ho) as (Hlen & Hin & Hord).
    split; [done|]. split; [done|]. apply Hord.
    intros sims Hsims. vm_compute in Hsims. discriminate Hsims.
  - apply (proj1 (proj2 (Hc Scenario.failing Scenario.bare))).
    reflexivity.
  - apply (proj2 (proj2 (Hc Scenario.failing Scenario.bare)));
      reflexivity.
Defined.
(** C2.  The cosine similarity of the key/value class: for vectors of equal
    length whose norms are both numbers other than zero it is the dot
    product divided by the product of the Euclidean norms; for vectors of
    different lengths it is 0 (no error is raised: the function is total);
    and it is 0 as soon as one of the two norms is zero. *)
Theorem C2_cosine_similarity (a b : vector) :
  (length a = length b → Cosine.nonzero_norm a → Cosine.nonzero_norm b →
   Valkey.cosineSimilarity a b = Cosine.similarity a b) ∧
  (length a ≠ length b → Valkey.cosineSimilarity a b = 0%float) ∧
  (Cosine.zero_norm a ∨ Cosine.zero_norm b →
   Valkey.cosineSimilarity a b = 0%float).
Proof.
  unfold Valkey.cosineSimilarity. repeat split.
  - unfold Cosine.nonzero_norm, Cosine.norm. intros Hlen Ha Hb.
    apply truthy_sqrt in Ha, Hb.
    assert ((length a =? length b)%nat = true) as -> by by apply Nat.eqb_eq.
    simpl negb. cbv iota.
    rewrite cosine_sums_spec by done.
    by rewrite Ha, Hb.
  - intros Hlen. apply Nat.eqb_neq in Hlen. by rewrite Hlen.
  - intros Hz. destruct (length a =? length b)%nat eqn:Hlen; [|done].
    apply Nat.eqb_eq in Hlen. simpl negb. cbv iota.
    rewrite cosine_sums_spec by done.
    unfold Cosine.zero_norm in Hz. unfold JS.truthy_num.
    destruct Hz as [-> | ->]; simpl; [done|].
    by rewrite andb_false_r.
Qed.

(** C2 on concrete vectors: equal lengths with non-zero norms, different
    lengths, and a zero vector. *)
Lemma C2_cosine_similarity_witness :
  Valkey.cosineSimilarity [3; 4]%float [4; 3]%float
    = Cosine.similarity [3; 4]%float [4; 3]%float ∧
  Valkey.cosineSimilarity [1; 2]%float [1]%float = 0%float ∧
  Valkey.cosineSimilarity [0; 0]%float [1; 2]%float = 0%float.
Proof.
  split; [|split].
  - apply (proj1 (C2_cosine_similarity [3; 4]%float [4; 3]%float));
      vm_compute; reflexivity.
  - apply (proj1 (proj2 (C2_cosine_similarity [1; 2]%float [1]%float))).
    simpl. discriminate.
  - apply (proj2 (proj2 (C2_cosine_similarity [0; 0]%float [1; 2]%float))).
    left. vm_compute. reflexivity.
Defined.

(** C3, as the claim states it, fails for the empty tenant id: the
    emptiness test [!user_id] takes [""] for an absent filter, on every
    path.  With the records of [alice] and [bob] in sector [s], a search
    for tenant [""] returns both, and neither is stored for tenant
    [""]. *)
Lemma C3_empty_tenant_not_filtered :
  snd (Valkey.searchSimilar (embed := Reference.embed)
         (host := Reference.host) (server := Reference.server)
         Scenario.failing "s" [1; 0]%float 2
         (Some EmptyString) Scenario.bare)
    = Redis.Returned [Scored "a" 0%float; Scored "b" 0%float] ∧
  Valkey.read_documents (host := Reference.host) Scenario.reply 2
    (Some EmptyString) []
    = [Scored "a" 1%float; Scored "b" 0%float] ∧
  Postgres.searchSimilar (embed := Reference.embed) (host := Reference.host)
    (pg := Reference.pgvector) false "s" [1; 0]%float 2 (Some EmptyString)
    (Scenario.table false)
    = [Scored "a" 1%float; Scored "b" 0%float] ∧
  Postgres.searchSimilar (embed := Reference.embed) (host := Reference.host)
    (pg := Reference.pgvector) true "s" [1; 0]%float 2 (Some EmptyString)
    (Scenario.table true)
    = [Scored "a" 1%float; Scored "b" 0%float] ∧
  (∀ r, Valkey.holds Scenario.bare r → Valkey.rec_user_id r ≠ EmptyString) ∧
  (∀ r, Valkey.holds Scenario.store r → Valkey.rec_user_id r ≠ EmptyString) ∧
  (∀ m r, In r (Scenario.table m) → Postgres.r_user_id r ≠ EmptyString).
Proof.
  split; [by vm_compute|]. split; [by vm_compute|].
  split; [by vm_compute|]. split; [by vm_compute|].
  split; [|split].
  - by intros r [-> | ->]%bare_records.
  - by intros r [-> | ->]%scenario_records.
  - intros m r Hin. unfold Scenario.table in Hin.
    rewrite !storeVector_upsert in Hin.
    apply upsert_In_weak in Hin as [->|Hin]; [done|].
    apply upsert_In_weak in Hin as [->|[]]. done.
Qed.

(** C3, amended.  For every tenant id [U] other than the empty string,
    [searchSimilar(sector, q, k, user_id=U)] returns only records whose
    stored [user_id] is [U], whatever the store holds: on the relational
    class in both modes, the tenant being part of the [where] clause; on
    the fallback scan of the key/value class; and on its native path,
    where the candidates of the reply (each the document of a stored
    record) are filtered after the search.  The empty string counts as no
    tenant filter. *)
Theorem C3_tenant_filter {embed : Embed} {host : Host} {pg : PgVector}
    {server : Redis.Server}
    (c : Redis.client) (σ : Redis.store) (m : bool) (t : Postgres.table m)
    (sector : string) (q : vector) (k : nat) (U : string) :
  U ≠ EmptyString →
  Valkey.wf σ →
  (∀ res,
     Redis.ft_search c ("idx:" +:+ sector) (k * 2) (vectorToBuffer q)
       = Redis.Returned res →
     ∀ d, In d res → ∃ r, Valkey.holds σ r ∧ Valkey.reports d r) →
  (∀ out x,
     snd (Valkey.searchSimilar c sector q k (Some U) σ) = Redis.Returned out →
     In x out →
     ∃ r, Valkey.holds σ r ∧ Valkey.rec_user_id r = U ∧
          (s_id x = Valkey.rec_id r ∨
           s_id x = JS.split_pop (Valkey.key_of r))) ∧
  (∀ x,
     In x (Postgres.searchSimilar m sector q k (Some U) t) →
     ∃ r, In r t ∧ Postgres.r_sector r = sector ∧
          Postgres.r_user_id r = U ∧ Postgres.r_id r = s_id x).
Proof.
  intros HU Hwf Hreply.
  assert (Ht : JS.truthy_str (Some U) = true) by by destruct U.
  split.
  - intros out x. unfold Valkey.searchSimilar.
    destruct (Redis.ft_search c _ _ _) as [res|e] eqn:Hcall; simpl.
    + intros [= <-] (d & Hd & -> & Hok)%read_documents_In.
      destruct (Hreply res eq_refl d Hd) as (r & Hr & Hrep).
      destruct (read_document_reports_any d r Hrep) as [Hid Hu].
      apply tenant_ok_given in Hok; [|done].
      exists r. split; [done|]. split; [|done].
      destruct Hu as [Hu|Hu]; [|congruence].
      rewrite Hu in Hok. by subst U.
    + destruct (Redis.scan_fault c); [done|]. intros Hout Hx.
      destruct (fallback_In _ _ _ _ _ _ _ Hwf Hout Hx)
        as (r & v & Hr & _ & Hok & _ & ->).
      apply tenant_ok_given in Hok; [|done].
      exists r. split; [done|]. split; [done|]. by right.
  - intros x (r & Hin & Hf & Hid)%searchSimilar_rows.
    apply search_filter_true in Hf as [Hs Hu].
    specialize (Hu Ht). injection Hu as Hu.
    exists r. split; [done|]. split; [done|]. split; done.
Qed.

(** The amended C3 on the scenario, for tenant [bob]: the fallback path
    on the records with the empty vector, and the native path of the
    key/value class. *)
Lemma C3_tenant_filter_witness :
  (∀ out x,
     snd (Valkey.searchSimilar (embed := Reference.embed)
            (host := Reference.host) (server := Reference.server)
            Scenario.failing "s" [1; 0]%float 2 (Some "bob") Scenario.bare)
       = Redis.Returned out →
     In x out →
     ∃ r, Valkey.holds Scenario.bare r ∧ Valkey.rec_user_id r = "bob" ∧
          (s_id x = Valkey.rec_id r ∨
           s_id x = JS.split_pop (Valkey.key_of r))) ∧
  (∀ out x,
     snd (Valkey.searchSimilar (embed := Reference.embed)
            (host := Reference.host) (server := Reference.server)
            Scenario.answering "s" [1; 0]%float 2 (Some "bob")
            Scenario.store)
       = Redis.Returned out →
     In x out →
     ∃ r, Valkey.holds Scenario.store r ∧ Valkey.rec_user_id r = "bob" ∧
          (s_id x = Valkey.rec_id r ∨
           s_id x = JS.split_pop (Valkey.key_of r))).
Proof.
  split.
  - refine (proj1 (C3_tenant_filter (embed := Reference.embed)
                     (host := Reference.host) (pg := Reference.pgvector)
                     (server := Reference.server) Scenario.failing
                     Scenario.bare false (Scenario.table false) "s"
                     [1; 0]%float 2 "bob" ltac:(discriminate) bare_wf _)).
    intros res Hres. discriminate Hres.
  - refine (proj1 (C3_tenant_filter (embed := Reference.embed)
                     (host := Reference.host) (pg := Reference.pgvector)
                     (server := Reference.server) Scenario.answering
                     Scenario.store false (Scenario.table false) "s"
                     [1; 0]%float 2 "bob" ltac:(discriminate) scenario_wf _)).
    intros res [= <-] d Hd.
    destruct (scenario_reply_reports d Hd) as (r & Hr & _ & Hrep).
    by exists r.
Defined.
(** C4, as the claim states it, fails on the key/value class.  A record
    stored under sector ["s:x"] is returned by [getVectorsBySector("s")],
    although no record is stored under sector ["s"].  A record of the
    sector stored with a dim of [10^21] is listed with dim 1: the numeral
    written for the dim is ["1e+21"].  And the listing of a sector that
    holds a vector with components fails in the codec, which is handed
    the string of the reply. *)
Lemma C4_sector_listing_fails :
  (let σ := Valkey.storeVector (embed := Reference.embed) "y" "s:x" [] 0
              None ∅ in
   Valkey.getVectorsBySector (embed := Reference.embed)
     (server := Reference.server) "s" σ
     = Redis.Returned [BySector "y" [] (Some 0%Z)] ∧
   ¬ ∃ r, Valkey.holds σ r ∧ Valkey.rec_sector r = "s") ∧
  Valkey.getVectorsBySector (embed := Reference.embed)
    (server := Reference.server) "s"
    (Valkey.storeVector (embed := Reference.embed) "a" "s" []
       (10 ^ 21) None ∅)
    = Redis.Returned [BySector "a" [] (Some 1%Z)] ∧
  Valkey.getVectorsBySector (embed := Reference.embed)
    (server := Reference.server) "s"
    (Valkey.storeVector (embed := Reference.embed) "a" "s" [1; 0]%float 2
       None ∅)
    = Redis.Thrown Redis.CodecFailure.
Proof.
  split; [split; [by vm_compute|]|split; by vm_compute].
  intros (r & Hr & Hs). unfold Valkey.holds in Hr.
  rewrite (storeVector_insert (embed := Reference.embed)) in Hr
    by apply wf_empty.
  apply lookup_insert_Some in Hr as [[_ Hh]|[_ Hr]];
    [|by rewrite lookup_empty in Hr].
  apply hash_of_inj in Hh. rewrite <- Hh in Hs. discriminate Hs.
Qed.

(** C4, amended.  [getVectorsBySector(s)] returns exactly the records
    stored under sector [s], and none of another sector.
    - On the relational class this holds for every sector string and
      every table.
    - On the key/value class it holds whenever the call returns, for
      every sector [s] without [':'] and without glob metacharacter, on
      every store written by [storeVector] whose records have no [':']
      in their sector and id (a sector that is a prefix of another one
      is told apart): the entries are those of the records of the
      sector, each with the id of its record, the vector the codec
      decodes from its payload and the dim read from its numeral, which
      is the dim stored when that is below [10^21] in absolute value.
      The call returns exactly when the codec decodes the payload of
      every record of the sector. *)
Theorem C4_sector_isolation {embed : Embed} {host : Host} {pg : PgVector}
    {server : Redis.Server}
    (σ : Redis.store) (m : bool) (t : Postgres.table m) (sector : string) :
  (Valkey.wf σ → Valkey.colon_free_store σ →
   colon_free sector → glob_free sector →
   (Redis.returned (Valkey.getVectorsBySector sector σ) ↔
    ∀ r, Valkey.holds σ r → Valkey.rec_sector r = sector →
         Redis.returned (Valkey.decoded r)) ∧
   (∀ out, Valkey.getVectorsBySector sector σ = Redis.Returned out →
      ∀ x, In x out ↔
           ∃ r v, Valkey.holds σ r ∧ Valkey.rec_sector r = sector ∧
                  Valkey.decoded r = Redis.Returned v ∧
                  x = BySector (Valkey.rec_id r) v (Valkey.dim_read r)) ∧
   (∀ r, Num.decimal (Valkey.rec_dim r) →
         Valkey.dim_read r = Some (Valkey.rec_dim r))) ∧
  (∀ x, In x (Postgres.getVectorsBySector m sector t) ↔
        ∃ r, In r t ∧ Postgres.r_sector r = sector ∧
             x = BySector (Postgres.r_id r)
                          (Postgres.read_v m (Postgres.r_v r))
                          (Some (Postgres.r_dim r))).
Proof.
  split; [|apply getVectorsBySector_rows].
  intros Hwf Hcf Hs Hg.
  assert (Hmatch : ∀ r, Valkey.holds σ r →
            Glob.matches ("vec:" +:+ sector +:+ ":*") (Valkey.key_of r) = true
            ↔ Valkey.rec_sector r = sector).
  { intros r Hr. destruct (Hcf r Hr) as [Hid Hsec].
    rewrite glob_sector_pattern by done. split.
    - intros [rest Hk]. by apply getKey_prefix_inv in Hk as [? _].
    - intros <-. by exists (Valkey.rec_id r). }
  split; [|split].
  - rewrite getVectorsBySector_returned by done.
    split; intros Hall r Hr Hm; apply Hall; try done; by apply Hmatch.
  - intros out Hout x. rewrite (getVectorsBySector_In _ _ _ _ Hwf Hout).
    split; intros (r & v & Hr & Hm & Hv & ->); exists r, v;
      destruct (Hcf r Hr) as [Hid Hsec];
      (split; [done|]); (split; [by apply Hmatch|]); (split; [done|]);
      unfold Valkey.key_of; by rewrite getKey_pop.
  - intros r Hd. by apply parseInt_toString.
Qed.

(** The amended C4 on a store with the sectors [s] and [s2], whose
    records hold the empty vector: the listing of [s] returns, with the
    record of [s] alone. *)
Lemma C4_sector_isolation_witness :
  let σ := Valkey.storeVector (embed := Reference.embed) "b" "s2" [] 0 None
             (Valkey.storeVector (embed := Reference.embed) "a" "s" [] 0
                None ∅) in
  Redis.returned
    (Valkey.getVectorsBySector (embed := Reference.embed)
       (server := Reference.server) "s" σ) ∧
  ∀ out,
    Valkey.getVectorsBySector (embed := Reference.embed)
      (server := Reference.server) "s" σ = Redis.Returned out →
    ∀ x, In x out ↔
         ∃ r v, Valkey.holds σ r ∧ Valkey.rec_sector r = "s" ∧
                Valkey.decoded (embed := Reference.embed) r
                  = Redis.Returned v ∧
                x = BySector (Valkey.rec_id r) v (Valkey.dim_read r).
Proof.
  intros σ.
  assert (Hwf : Valkey.wf σ)
    by (do 2 apply (wf_storeVector (embed := Reference.embed));
        apply wf_empty).
  assert (Hrec : ∀ r, Valkey.holds σ r →
            r = Valkey.written (embed := Reference.embed) "b" "s2" [] 0 None ∨
            r = Valkey.written (embed := Reference.embed) "a" "s" [] 0 None).
  { intros r Hr. unfold Valkey.holds, σ in Hr.
    rewrite !(storeVector_insert (embed := Reference.embed)) in Hr
      by (repeat apply (wf_storeVector (embed := Reference.embed));
          apply wf_empty).
    apply lookup_insert_Some in Hr as [[_ Hh]|[_ Hr]].
    { apply hash_of_inj in Hh. by left. }
    apply lookup_insert_Some in Hr as [[_ Hh]|[_ Hr]].
    { apply hash_of_inj in Hh. by right. }
    by rewrite lookup_empty in Hr. }
  destruct (proj1 (C4_sector_isolation (embed := Reference.embed)
                     (host := Reference.host) (pg := Reference.pgvector)
                     (server := Reference.server) σ false [] "s"))
    as (Hret & Hout & _).
  - exact Hwf.
  - intros r [-> | ->]%Hrec; by split.
  - reflexivity.
  - reflexivity.
  - split; [|exact Hout]. apply Hret.
    intros r [-> | ->]%Hrec _; by eexists.
Defined.
(** C5, as the claim states it, fails on the key/value class:
    [deleteVectors("b")] removes the record stored with id ["a:b"], whose
    key ["vec:s:a:b"] ends with [":b"]. *)
Lemma C5_other_id_deleted :
  let r := Valkey.written (embed := Reference.embed) "a:b" "s" [1; 0]%float
             2 None in
  let σ := Valkey.storeVector (embed := Reference.embed) "a:b" "s"
             [1; 0]%float 2 None ∅ in
  Valkey.holds σ r ∧
  Valkey.rec_id r ≠ "b" ∧
  ¬ Valkey.holds (Valkey.deleteVectors (server := Reference.server) "b" σ) r ∧
  Valkey.deleteVectors (server := Reference.server) "b" σ = ∅.
Proof.
  intros r σ.
  assert (Hdel : Valkey.deleteVectors (server := Reference.server) "b" σ = ∅)
    by by vm_compute.
  split; [|split; [done|split; [|done]]].
  - unfold Valkey.holds, σ.
    rewrite (storeVector_insert (embed := Reference.embed)) by apply wf_empty.
    apply lookup_insert_eq.
  - unfold Valkey.holds. rewrite Hdel. by rewrite lookup_empty.
Qed.

(** C5, amended.  [deleteVectors(id)] removes every record whose id is the
    argument, in every sector, and leaves every record with another id as
    it is, so that no record is left for the id in any sector: on the
    relational class for every id string and every table; on the
    key/value class for every id without [':'] and without glob
    metacharacter, on every store written by [storeVector] whose records
    have no [':'] in their id. *)
Theorem C5_cross_sector_deletion {embed : Embed} {host : Host} {pg : PgVector}
    {server : Redis.Server}
    (σ : Redis.store) (m : bool) (t : Postgres.table m) (id : string) :
  (Valkey.wf σ → Valkey.colon_free_ids σ → colon_free id → glob_free id →
   (∀ r, Valkey.holds (Valkey.deleteVectors id σ) r ↔
         Valkey.holds σ r ∧ Valkey.rec_id r ≠ id) ∧
   (∀ sector,
      Valkey.getVector id sector (Valkey.deleteVectors id σ)
      = Redis.Returned None)) ∧
  (∀ r, In r (Postgres.deleteVectors id t) ↔
        In r t ∧ Postgres.r_id r ≠ id) ∧
  (∀ sector,
     Postgres.getVector m id sector (Postgres.deleteVectors id t) = None).
Proof.
  split; [|split].
  - intros Hwf Hcf Hid Hg.
    assert (Hmatch : ∀ r, Valkey.holds σ r →
              Glob.matches ("vec:*:" +:+ id) (Valkey.key_of r) = true ↔
              Valkey.rec_id r = id).
    { intros r Hr. rewrite glob_id_pattern by done. split.
      - intros [a Hk].
        apply getKey_suffix_inv in Hk as [Hi _]; [done|done|].
        by apply Hcf.
      - intros <-. by exists (Valkey.rec_sector r). }
    split.
    + intros r. unfold Valkey.holds at 1. rewrite deleteVectors_lookup.
      destruct (decide _) as [[[h Hk] Hm]|Hn].
      * split; [done|]. intros [Hr Hne]. by apply Hmatch in Hm.
      * split.
        -- intros Hr. split; [done|]. intros Hi. apply Hn.
           split; [by rewrite Hr|]. by apply Hmatch.
        -- by intros [Hr _].
    + intros sector. apply getVector_absent.
      rewrite deleteVectors_lookup.
      destruct (decide _) as [_|Hn]; [done|].
      destruct (σ !! Valkey.getKey id sector) as [h|] eqn:Hk; [|done].
      destruct Hn. split; [by eexists|].
      apply glob_id_pattern; [done|]. by exists sector.
  - intros r. apply deleteVectors_In.
  - intros sector. unfold Postgres.getVector.
    destruct (SQL.first_row _) as [row|] eqn:Hrow; [|done].
    unfold SQL.first_row in Hrow. apply head_Some in Hrow as [rest Hrow].
    assert (In row (SQL.select_where (Postgres.has_key id sector)
                      (Postgres.deleteVectors id t))) as Hin
      by (rewrite Hrow; by left).
    apply List.filter_In in Hin as [Hin [Hi _]%has_key_true].
    apply deleteVectors_In in Hin as [_ Hne]. done.
Qed.

(** The amended C5 on a store and on a table holding id [a] under two
    sectors, and on a table for an id with [':'] and ['*']. *)
Lemma C5_cross_sector_deletion_witness :
  (let σ := Valkey.storeVector (embed := Reference.embed) "a" "s2"
              [0; 1]%float 2 None
              (Valkey.storeVector (embed := Reference.embed) "a" "s1"
                 [1; 0]%float 2 None ∅) in
   Valkey.getVector (embed := Reference.embed) "a" "s1"
     (Valkey.deleteVectors (server := Reference.server) "a" σ)
     = Redis.Returned None ∧
   Valkey.getVector (embed := Reference.embed) "a" "s2"
     (Valkey.deleteVectors (server := Reference.server) "a" σ)
     = Redis.Returned None) ∧
  (let t := Postgres.storeVector (embed := Reference.embed)
              (host := Reference.host) (pg := Reference.pgvector) false
              "a:*" "s2" [0; 1]%float 2 None
              (Postgres.storeVector (embed := Reference.embed)
                 (host := Reference.host) (pg := Reference.pgvector) false
                 "a:*" "s1" [1; 0]%float 2 None []) in
   Postgres.getVector (embed := Reference.embed) (host := Reference.host)
     (pg := Reference.pgvector) false "a:*" "s1"
     (Postgres.deleteVectors "a:*" t) = None ∧
   Postgres.getVector (embed := Reference.embed) (host := Reference.host)
     (pg := Reference.pgvector) false "a:*" "s2"
     (Postgres.deleteVectors "a:*" t) = None).
Proof.
  split.
  - intros σ.
    assert (Hall : ∀ sector,
              Valkey.getVector (embed := Reference.embed) "a" sector
                (Valkey.deleteVectors (server := Reference.server) "a" σ)
              = Redis.Returned None).
    { refine (proj2 (proj1 (C5_cross_sector_deletion
                       (embed := Reference.embed) (host := Reference.host)
                       (pg := Reference.pgvector)
                       (server := Reference.server) σ false [] "a")
                     _ _ _ _)).
      - do 2 apply (wf_storeVector (embed := Reference.embed)).
        apply wf_empty.
      - intros r Hr. unfold Valkey.holds, σ in Hr.
        rewrite !(storeVector_insert (embed := Reference.embed)) in Hr
          by (repeat apply (wf_storeVector (embed := Reference.embed));
              apply wf_empty).
        apply lookup_insert_Some in Hr as [[_ Hh]|[_ Hr]].
        { apply hash_of_inj in Hh. by rewrite <- Hh. }
        apply lookup_insert_Some in Hr as [[_ Hh]|[_ Hr]].
        { apply hash_of_inj in Hh. by rewrite <- Hh. }
        by rewrite lookup_empty in Hr.
      - reflexivity.
      - reflexivity. }
    split; apply Hall.
  - intros t.
    pose proof (proj2 (proj2 (C5_cross_sector_deletion
                  (embed := Reference.embed) (host := Reference.host)
                  (pg := Reference.pgvector) (server := Reference.server)
                  ∅ false t "a:*"))) as Hall.
    split; apply Hall.
Defined.


(** C7, as the claim states it, fails on the key/value class: the pairs
    [("a:b", "s")] and [("b", "s:a")] are different, yet both are kept
    under the key ["vec:s:a:b"], so that a store at the second replaces
    the record of the first. *)
Lemma C7_other_pair_overwritten :
  let r1 := Valkey.written (embed := Reference.embed) "a:b" "s"
              [1; 0]%float 2 None in
  let r2 := Valkey.written (embed := Reference.embed) "b" "s:a"
              [0; 1]%float 2 None in
  let σ1 := Valkey.storeVector (embed := Reference.embed) "a:b" "s"
              [1; 0]%float 2 None ∅ in
  let σ2 := Valkey.storeVector (embed := Reference.embed) "b" "s:a"
              [0; 1]%float 2 None σ1 in
  ("a:b", "s") ≠ ("b", "s:a") ∧
  Valkey.getKey "a:b" "s" = Valkey.getKey "b" "s:a" ∧
  Valkey.holds σ1 r1 ∧
  σ2 !! Valkey.getKey "a:b" "s" = Some (Valkey.hash_of r2) ∧
  ¬ Valkey.holds σ2 r1.
Proof.
  intros r1 r2 σ1 σ2.
  assert (Hwf1 : Valkey.wf σ1)
    by apply (wf_storeVector (embed := Reference.embed)), wf_empty.
  assert (H2 : σ2 !! Valkey.getKey "a:b" "s" = Some (Valkey.hash_of r2)).
  { unfold σ2.
    rewrite (storeVector_insert (embed := Reference.embed)) by done.
    apply lookup_insert_eq. }
  split; [done|]. split; [done|]. split; [|split; [done|]].
  - unfold Valkey.holds, σ1.
    rewrite (storeVector_insert (embed := Reference.embed)) by apply wf_empty.
    apply lookup_insert_eq.
  - unfold Valkey.holds. change (Valkey.key_of r1) with (Valkey.getKey "a:b" "s").
    rewrite H2. intros Heq. apply (inj Some), hash_of_inj in Heq.
    discriminate Heq.
Qed.

(** C7, amended.  Storing twice at the same [(id, sector)] leaves exactly
    one record under that key, and its payload, dim and tenant are those
    of the second call, nothing of the first call being kept: the state
    is the one the second call alone would give.  On the relational class
    (whose table has [(id, sector)] as unique key) rows of every other
    [(id, sector)] are unaffected.  On the key/value class the hashes
    under every other composite key ["vec:<sector>:<id>"] are unaffected,
    and two different pairs have different composite keys when their
    sectors contain no [':']. *)
Theorem C7_last_write_wins {embed : Embed} {host : Host} {pg : PgVector}
    (σ : Redis.store) (m : bool) (t : Postgres.table m)
    (id sector : string) (v1 v2 : vector) (d1 d2 : Z)
    (u1 u2 : option string) :
  Valkey.wf σ → Postgres.unique_key t →
  let σ2 := Valkey.storeVector id sector v2 d2 u2
              (Valkey.storeVector id sector v1 d1 u1 σ) in
  let t2 := Postgres.storeVector m id sector v2 d2 u2
              (Postgres.storeVector m id sector v1 d1 u1 t) in
  (σ2 !! Valkey.getKey id sector
     = Some (Valkey.hash_of (Valkey.written id sector v2 d2 u2)) ∧
   σ2 = Valkey.storeVector id sector v2 d2 u2 σ ∧
   (∀ k, k ≠ Valkey.getKey id sector → σ2 !! k = σ !! k) ∧
   (∀ id' sector', colon_free sector → colon_free sector' →
      (id', sector') ≠ (id, sector) →
      σ2 !! Valkey.getKey id' sector' = σ !! Valkey.getKey id' sector')) ∧
  (SQL.select_where (Postgres.has_key id sector) t2
     = [Postgres.written m id sector v2 d2 u2] ∧
   t2 = Postgres.storeVector m id sector v2 d2 u2 t ∧
   (∀ r, Postgres.has_key id sector r = false → In r t2 ↔ In r t)).
Proof.
  intros Hwf Huniq σ2 t2. split.
  - assert (Hσ2 : σ2 = Valkey.storeVector id sector v2 d2 u2 σ).
    { unfold σ2.
      pose proof (storeVector_insert id sector v1 d1 u1 σ Hwf) as E1.
      pose proof (storeVector_insert id sector v2 d2 u2 σ Hwf) as E2.
      pose proof (storeVector_insert id sector v2 d2 u2 _
                    (wf_storeVector id sector v1 d1 u1 σ Hwf)) as E12.
      etrans; [exact E12|]. etrans; [|symmetry; exact E2].
      etrans; [exact (f_equal (insert _ _) E1)|].
      exact (insert_insert_eq _ _ _ _). }
    split; [|split; [done|split]].
    + rewrite Hσ2, storeVector_insert by done. apply lookup_insert_eq.
    + intros k Hk. unfold σ2. by rewrite !storeVector_other.
    + intros id' sector' Hs Hs' Hne. unfold σ2.
      rewrite !storeVector_other; [done|..];
        intros [-> ->]%getKey_inj_sector; done.
  - assert (Ht2 : t2 = Postgres.storeVector m id sector v2 d2 u2 t).
    { unfold t2. rewrite !storeVector_upsert. by apply upsert_upsert. }
    split; [|split; [done|]].
    + rewrite Ht2, storeVector_upsert.
      by apply (upsert_select_key (Postgres.written m id sector v2 d2 u2)).
    + intros r Hr. rewrite Ht2, storeVector_upsert.
      by apply (upsert_other (Postgres.written m id sector v2 d2 u2)).
Qed.

(** The amended C7 on two stores at [(a, s)] with different payloads,
    dims and tenants. *)
Lemma C7_last_write_wins_witness :
  let σ2 := Valkey.storeVector (embed := Reference.embed) "a" "s"
              [0; 1]%float 2 (Some "bob")
              (Valkey.storeVector (embed := Reference.embed) "a" "s"
                 [1; 0; 0]%float 3 (Some "alice") ∅) in
  σ2 !! Valkey.getKey "a" "s"
    = Some (Valkey.hash_of
              (Valkey.written (embed := Reference.embed) "a" "s"
                 [0; 1]%float 2 (Some "bob"))) ∧
  σ2 = Valkey.storeVector (embed := Reference.embed) "a" "s"
         [0; 1]%float 2 (Some "bob") ∅.
Proof.
  intros σ2.
  pose proof (C7_last_write_wins (embed := Reference.embed)
                (host := Reference.host) (pg := Reference.pgvector)
                ∅ false [] "a" "s" [1; 0; 0]%float [0; 1]%float 3 2
                (Some "alice") (Some "bob") wf_empty (NoDup_nil_2 (A := string * string)))
    as [(Hkey & Heq & _) _].
  split; [exact Hkey|exact Heq].
Defined.

(** C8, as the claim states it, fails: the [catch] around the native
    search does not look at the failure.  When [FT.SEARCH] fails because
    the store is unreachable and the scan that follows gets through, the
    caller is handed the fallback's results; the failure is only
    written to the log. *)
Lemma C8_transport_failure_degrades :
  let c := Redis.Client (λ _ _ _, Redis.Thrown Redis.Unreachable) None in
  let σ := Valkey.storeVector (embed := Reference.embed) "a" "s" [] 0
             None ∅ in
  Redis.transport Redis.Unreachable = true ∧
  Valkey.searchSimilar (embed := Reference.embed) (host := Reference.host)
    (server := Reference.server) c "s" [1; 0]%float 1 None σ
  = ([("s", Redis.Unreachable)], Redis.Returned [Scored "a" 0%float]).
Proof. split; [done|by vm_compute]. Qed.

(** C8, amended.  In [searchSimilar] every failure of the native search
    call is caught, whatever its kind (index missing, unsupported query,
    feature gap, store unreachable, authentication): it is written to the
    log with the sector, it is not propagated, and the brute-force
    fallback runs.  A failure reaches the caller only from the fallback's
    own scan, unchanged.  When the native call answers, nothing is logged
    and the fallback does not run. *)
Theorem C8_any_native_failure_falls_back {embed : Embed} {host : Host}
    {server : Redis.Server} (c : Redis.client) (σ : Redis.store) (sector : string)
    (queryVec : vector) (topK : nat) (user_id : option string) :
  let call :=
    Redis.ft_search c ("idx:" +:+ sector) (topK * 2)
      (vectorToBuffer queryVec) in
  let result := Valkey.searchSimilar c sector queryVec topK user_id σ in
  (∀ e, call = Redis.Thrown e →
     fst result = [(sector, e)] ∧
     (Redis.scan_fault c = None →
      snd result = Valkey.fallback sector queryVec topK user_id σ) ∧
     (∀ e', Redis.scan_fault c = Some e' → snd result = Redis.Thrown e')) ∧
  (∀ res, call = Redis.Returned res →
     result
     = ([], Redis.Returned (Valkey.read_documents res topK user_id []))).
Proof.
  intros call result. unfold result, Valkey.searchSimilar. fold call. split.
  - intros e ->. simpl. split; [done|]. split.
    + by intros ->.
    + by intros e' ->.
  - by intros res ->.
Qed.

(** The amended C8 on a server without index. *)
Lemma C8_any_native_failure_falls_back_witness :
  let c := Redis.Client (λ _ _ _, Redis.Thrown Redis.IndexMissing) None in
  let σ := Valkey.storeVector (embed := Reference.embed) "a" "s" [] 0
             None ∅ in
  let result :=
    Valkey.searchSimilar (embed := Reference.embed) (host := Reference.host)
      (server := Reference.server) c "s" [1; 0]%float 1 None σ in
  fst result = [("s", Redis.IndexMissing)] ∧
  snd result
  = Valkey.fallback (embed := Reference.embed) (server := Reference.server)
      "s" [1; 0]%float 1 None σ.
Proof.
  intros c σ result.
  destruct (proj1 (C8_any_native_failure_falls_back (embed := Reference.embed)
                     (host := Reference.host) (server := Reference.server)
                     c σ "s" [1; 0]%float 1 None)
              Redis.IndexMissing eq_refl) as (Hlog & Hok & _).
  split; [exact Hlog|]. apply Hok. reflexivity.
Defined.

(** C9, as the claim states it, fails: [storeVector] persists the [dim] it
    is given without looking at the vector, here 7 next to a vector of
    length 2, on the key/value class and on the relational one. *)
Lemma C9_dim_not_checked :
  (let r := Valkey.written (embed := Reference.embed) "a" "s" [1; 0]%float 7
              None in
   Valkey.holds
     (Valkey.storeVector (embed := Reference.embed) "a" "s" [1; 0]%float 7
        None ∅) r ∧
   Valkey.rec_dim r = 7%Z ∧
   Reference.decode (Valkey.rec_v r) = [1; 0]%float) ∧
  Postgres.getVector (embed := Reference.embed) (host := Reference.host)
    (pg := Reference.pgvector) false "a" "s"
    (Postgres.storeVector (embed := Reference.embed) (host := Reference.host)
       (pg := Reference.pgvector) false "a" "s" [1; 0]%float 7 None [])
    = Some (VecDim [1; 0]%float (Some 7%Z)) ∧
  7%Z ≠ Z.of_nat (length [1; 0]%float).
Proof.
  split; [|split; [by vm_compute|done]].
  split; [|split; [done|by vm_compute]].
  unfold Valkey.holds.
  rewrite (storeVector_insert (embed := Reference.embed)) by apply wf_empty.
  apply lookup_insert_eq.
Qed.

(** C9, amended.  The record [storeVector] persists carries the [dim]
    argument of the call as it is; the layer never compares it with the
    vector.  Every record has its dim equal to the length of its vector
    after a call made with [dim] equal to the length of the vector (whose
    stored form reads back with that length), if it was so before: the
    invariant is the callers' to keep. *)
Theorem C9_dim_as_given {embed : Embed} {host : Host} {pg : PgVector}
    (σ : Redis.store) (m : bool) (t : Postgres.table m)
    (id sector : string) (v : vector) (d : Z) (user_id : option string) :
  Valkey.wf σ →
  let σ' := Valkey.storeVector id sector v d user_id σ in
  let t' := Postgres.storeVector m id sector v d user_id t in
  (Valkey.holds σ' (Valkey.written id sector v d user_id) ∧
   Valkey.rec_dim (Valkey.written id sector v d user_id) = d) ∧
  (In (Postgres.written m id sector v d user_id) t' ∧
   Postgres.r_dim (Postgres.written m id sector v d user_id) = d) ∧
  (d = Z.of_nat (length v) →
   length (bufferToVector (vectorToBuffer v)) = length v →
   Valkey.dim_invariant σ → Valkey.dim_invariant σ') ∧
  (d = Z.of_nat (length v) →
   length (Postgres.read_v m (Postgres.encode_v m v)) = length v →
   Postgres.dim_invariant m t → Postgres.dim_invariant m t').
Proof.
  intros Hwf σ' t'.
  assert (Hσ' : σ' = <[ Valkey.getKey id sector :=
              Valkey.hash_of (Valkey.written id sector v d user_id) ]> σ)
    by by apply storeVector_insert.
  split; [|split; [|split]].
  - split; [|done]. unfold Valkey.holds. rewrite Hσ'. apply lookup_insert_eq.
  - split; [|done]. unfold t'. rewrite storeVector_upsert.
    apply upsert_In_new.
  - intros Hd Hlen Hinv r Hr. unfold Valkey.holds in Hr. rewrite Hσ' in Hr.
    apply lookup_insert_Some in Hr as [[_ Hh]|[_ Hr]].
    + apply hash_of_inj in Hh as <-. simpl. by rewrite Hlen.
    + by apply Hinv.
  - intros Hd Hlen Hinv r Hr. unfold t' in Hr.
    rewrite storeVector_upsert in Hr.
    apply upsert_In_weak in Hr as [->|Hr]; [|by apply Hinv].
    simpl. by rewrite Hlen.
Qed.

(** The amended C9 on a call made with the length of the vector. *)
Lemma C9_dim_as_given_witness :
  let σ' := Valkey.storeVector (embed := Reference.embed) "a" "s"
              [1; 0]%float 2 None ∅ in
  Valkey.holds σ'
    (Valkey.written (embed := Reference.embed) "a" "s" [1; 0]%float 2 None) ∧
  Valkey.dim_invariant (embed := Reference.embed) σ'.
Proof.
  intros σ'.
  pose proof (C9_dim_as_given (embed := Reference.embed) (host := Reference.host)
                (pg := Reference.pgvector) ∅ false [] "a" "s"
                [1; 0]%float 2 None wf_empty)
    as ([Hholds _] & _ & Hinv & _).
  split; [exact Hholds|]. apply Hinv.
  - reflexivity.
  - vm_compute. reflexivity.
  - intros r Hr. unfold Valkey.holds in Hr. by rewrite lookup_empty in Hr.
Defined.

(** C10, as the claim states it, fails.  [getVectorsById] takes no id
    from the key: its entries are [{sector, vector, dim}], so that the
    listings of two stores that hold the same vector under different ids
    are the same.  And a read does not always return for a record
    without [':']: the codec is handed the string of the reply, and for
    a vector with components it fails, and the read with it. *)
Lemma C10_identity_not_returned :
  (Valkey.getVectorsById (embed := Reference.embed)
     (server := Reference.server) "a"
     (Valkey.storeVector (embed := Reference.embed) "a" "s" [] 0 None ∅)
   = Redis.Returned [ById (Some "s") [] (Some 0%Z)] ∧
   Valkey.getVectorsById (embed := Reference.embed)
     (server := Reference.server) "b"
     (Valkey.storeVector (embed := Reference.embed) "b" "s" [] 0 None ∅)
   = Redis.Returned [ById (Some "s") [] (Some 0%Z)]) ∧
  (let σ := Valkey.storeVector (embed := Reference.embed) "a" "s"
              [1; 0]%float 2 None ∅ in
   colon_free "a" ∧ colon_free "s" ∧
   Valkey.getVectorsById (embed := Reference.embed)
     (server := Reference.server) "a" σ
   = Redis.Thrown Redis.CodecFailure ∧
   Valkey.getVectorsBySector (embed := Reference.embed)
     (server := Reference.server) "s" σ
   = Redis.Thrown Redis.CodecFailure ∧
   Valkey.fallback (embed := Reference.embed) (server := Reference.server)
     "s" [1; 0]%float 1 None σ
   = Redis.Thrown Redis.CodecFailure).
Proof. repeat split; by vm_compute. Qed.

(** C10, amended.  The key/value class stores a record under the
    composite key ["vec:<sector>:<id>"] and recovers identities by
    splitting that key on [':']: [getVectorsById] takes the sector as the
    second segment (its entries carry no id), [getVectorsBySector] and
    the fallback search take the id as the last segment.  For a record
    whose sector and id contain no [':'] the key splits into exactly
    ["vec"], the sector and the id, and every one of these reads whose
    scan reaches the record's key, when it returns, has read the record
    with the sector and the id it was stored with: the listings have its
    entry, and the fallback search scores it under its id and returns
    the first [topK] of the sorted scores.  The reads return when the
    codec decodes the payloads of the store.  The precondition is needed:
    see the keys with [':'] of C4, C5 and C7. *)
Theorem C10_identity_by_split {embed : Embed} {host : Host}
    {server : Redis.Server} (σ : Redis.store)
    (id sector : string) (vector : vector) (dim : Z)
    (user_id : option string) :
  Valkey.wf σ → colon_free id → colon_free sector →
  let σ' := Valkey.storeVector id sector vector dim user_id σ in
  let r := Valkey.written id sector vector dim user_id in
  let key := Valkey.getKey id sector in
  key = "vec:" +:+ sector +:+ ":" +:+ id ∧
  σ' !! key = Some (Valkey.hash_of r) ∧
  JS.split ":" key = ["vec"; sector; id] ∧
  JS.split ":" key !! 1%nat = Some sector ∧
  JS.split_pop key = id ∧
  (∀ i out, Glob.matches ("vec:*:" +:+ i) key = true →
     Valkey.getVectorsById i σ' = Redis.Returned out →
     ∃ v, Valkey.decoded r = Redis.Returned v ∧
          In (ById (Some sector) v (Valkey.dim_read r)) out) ∧
  (∀ s out, Glob.matches ("vec:" +:+ s +:+ ":*") key = true →
     Valkey.getVectorsBySector s σ' = Redis.Returned out →
     ∃ v, Valkey.decoded r = Redis.Returned v ∧
          In (BySector id v (Valkey.dim_read r)) out) ∧
  (∀ c e s q k u out, Glob.matches ("vec:" +:+ s +:+ ":*") key = true →
     Valkey.tenant_ok u (Some (Valkey.rec_user_id r)) = true →
     Redis.ft_search c ("idx:" +:+ s) (k * 2) (vectorToBuffer q)
       = Redis.Thrown e →
     snd (Valkey.searchSimilar c s q k u σ') = Redis.Returned out →
     ∃ v sims,
       Valkey.decoded r = Redis.Returned v ∧
       Valkey.fallback_sims s q u σ' = Redis.Returned sims ∧
       In (Scored id (Valkey.cosineSimilarity q v)) sims ∧
       out = JSArray.slice0 k
               (JSArray.sort (λ a b, (s_score b - s_score a)%float) sims)) ∧
  (Valkey.decodes σ' →
   (∀ i, Redis.returned (Valkey.getVectorsById i σ')) ∧
   (∀ s, Redis.returned (Valkey.getVectorsBySector s σ')) ∧
   (∀ s q k u, Redis.returned (Valkey.fallback s q k u σ'))).
Proof.
  intros Hwf Hid Hsector σ' r key.
  assert (Hwf' : Valkey.wf σ') by by apply wf_storeVector.
  assert (Hr : Valkey.holds σ' r).
  { unfold Valkey.holds, σ'. rewrite storeVector_insert by done.
    apply lookup_insert_eq. }
  assert (Hsplit : JS.split ":" key = ["vec"; sector; id]).
  { unfold key. rewrite getKey_split by done. by rewrite split_single. }
  assert (Hpop : JS.split_pop key = id) by by apply getKey_pop.
  split; [done|]. split; [done|]. split; [done|].
  split; [by rewrite Hsplit|]. split; [done|].
  split; [|split; [|split; [|intros Hdec; split; [|split]]]].
  - intros i out Hm Hout.
    assert (Hret : Redis.returned (Valkey.getVectorsById i σ'))
      by by eexists.
    rewrite getVectorsById_returned in Hret by done.
    destruct (Hret r Hr Hm) as [v Hv]. exists v. split; [done|].
    apply (getVectorsById_In _ _ _ _ Hwf' Hout). exists r, v.
    split; [done|]. split; [done|]. split; [done|].
    change (Valkey.key_of r) with key. by rewrite Hsplit.
  - intros s out Hm Hout.
    assert (Hret : Redis.returned (Valkey.getVectorsBySector s σ'))
      by by eexists.
    rewrite getVectorsBySector_returned in Hret by done.
    destruct (Hret r Hr Hm) as [v Hv]. exists v. split; [done|].
    apply (getVectorsBySector_In _ _ _ _ Hwf' Hout). exists r, v.
    split; [done|]. split; [done|]. split; [done|].
    change (Valkey.key_of r) with key. by rewrite Hpop.
  - intros c e s q k u out Hm Hu Hcall. unfold Valkey.searchSimilar.
    rewrite Hcall. simpl. destruct (Redis.scan_fault c); [done|].
    intros (sims & Hsims & ->)%fallback_Returned.
    pose proof Hsims as (allVecs & Hscan & ->)%fallback_sims_Returned.
    assert (Hret : Redis.returned (Valkey.scan_all s u σ')) by by eexists.
    rewrite scan_all_returned in Hret by done.
    destruct (Hret r Hr Hm Hu) as [v Hv]. exists v. eexists.
    split; [done|]. split; [done|]. split; [|done].
    apply in_map_iff. exists (id, v). split; [done|].
    apply (scan_all_In _ _ _ _ _ Hwf' Hscan). exists r, v.
    split; [done|]. split; [done|]. split; [done|]. split; [done|].
    change (Valkey.key_of r) with key. by rewrite Hpop.
  - intros i. apply getVectorsById_returned; [done|].
    intros r' Hr' _. by apply Hdec.
  - intros s. apply getVectorsBySector_returned; [done|].
    intros r' Hr' _. by apply Hdec.
  - intros s q k u. apply fallback_returned, scan_all_returned; [done|].
    intros r' Hr' _ _. by apply Hdec.
Qed.

(** The amended C10 on the record [(a, s)] with the empty vector, whose
    payload the codec reads from the string of the reply. *)
Lemma C10_identity_by_split_witness :
  let σ' := Valkey.storeVector (embed := Reference.embed) "a" "s" [] 0
              None ∅ in
  JS.split ":" (Valkey.getKey "a" "s") = ["vec"; "s"; "a"] ∧
  (∀ out,
     Valkey.getVectorsById (embed := Reference.embed)
       (server := Reference.server) "a" σ' = Redis.Returned out →
     In (ById (Some "s") [] (Some 0%Z)) out) ∧
  (∀ out,
     Valkey.getVectorsBySector (embed := Reference.embed)
       (server := Reference.server) "s" σ' = Redis.Returned out →
     In (BySector "a" [] (Some 0%Z)) out) ∧
  (∀ out,
     snd (Valkey.searchSimilar (embed := Reference.embed)
            (host := Reference.host) (server := Reference.server)
            Scenario.failing "s" [1; 0]%float 1 None σ')
       = Redis.Returned out →
     out = [Scored "a" 0%float]) ∧
  Redis.returned
    (Valkey.getVectorsBySector (embed := Reference.embed)
       (server := Reference.server) "s" σ').
Proof.
  intros σ'.
  pose proof (C10_identity_by_split (embed := Reference.embed)
                (host := Reference.host) (server := Reference.server)
                ∅ "a" "s" [] 0 None wf_empty eq_refl eq_refl)
    as (_ & _ & Hsplit & _ & _ & Hid & Hsec & Hsearch & Hret).
  split; [exact Hsplit|]. split; [|split; [|split]].
  - intros out Hout.
    destruct (Hid "a" out eq_refl Hout) as (v & [= <-] & Hin). exact Hin.
  - intros out Hout.
    destruct (Hsec "s" out eq_refl Hout) as (v & [= <-] & Hin). exact Hin.
  - intros out Hout.
    destruct (Hsearch Scenario.failing Redis.IndexMissing "s" [1; 0]%float
                1%nat None out eq_refl eq_refl eq_refl Hout)
      as (v & sims & [= <-] & Hsims & _ & ->).
    vm_compute in Hsims. injection Hsims as <-. reflexivity.
  - apply Hret. intros r Hr. unfold Valkey.holds in Hr.
    rewrite (storeVector_insert (embed := Reference.embed)) in Hr
      by apply wf_empty.
    apply lookup_insert_Some in Hr as [[_ Hh]|[_ Hr]];
      [|by rewrite lookup_empty in Hr].
    apply hash_of_inj in Hh as <-. by eexists.
Defined.

(* ===================================================================== *)
(** * Further properties of the two classes *)
(* ===================================================================== *)

Section DeleteFacts.
Context {embed : Embed} {host : Host} {pg : PgVector}.

Lemma select_delete_other {R} (P Q : R → bool) (t : list R) :
  (∀ r, P r = true → Q r = false) →
  SQL.select_where P (SQL.delete_where Q t) = SQL.select_where P t.
Proof.
  intros HPQ. unfold SQL.select_where, SQL.delete_where.
  induction t as [|r t IH]; simpl; [done|].
  destruct (Q r) eqn:EQ; simpl.
  - destruct (P r) eqn:EP; [|done]. apply HPQ in EP. congruence.
  - by rewrite IH.
Qed.

Lemma deleteVector_In {m} id sector (t : Postgres.table m) r :
  In r (Postgres.deleteVector id sector t) ↔
  In r t ∧ (Postgres.r_id r, Postgres.r_sector r) ≠ (id, sector).
Proof.
  unfold Postgres.deleteVector, SQL.delete_where.
  rewrite List.filter_In, negb_true_iff.
  split; intros [Hin Hk]; (split; [done|]).
  - intros [= Hi Hs].
    assert (Postgres.has_key id sector r = true) by by apply has_key_true.
    congruence.
  - destruct (Postgres.has_key id sector r) eqn:E; [|done].
    apply has_key_true in E as [<- <-]. done.
Qed.
End DeleteFacts.

(** X1.  [deleteVector(id, sector)] removes the record of that pair and
    nothing else, whatever the store holds.  On the key/value class the
    key ["vec:<sector>:<id>"] is gone, so that [getVector(id, sector)]
    answers not-found, and every other key keeps its hash; a different
    pair with sectors free of [':'] has a different key and reads as
    before.  On the relational class the rows left are the rows of the
    other pairs, [getVector(id, sector)] answers not-found and
    [getVector] of every other pair answers as before: the rows of the
    same id in other sectors stay. *)
Theorem X1_delete_vector {embed : Embed} {host : Host} {pg : PgVector}
    (σ : Redis.store) (m : bool) (t : Postgres.table m)
    (id sector : string) :
  (Valkey.getVector id sector (Valkey.deleteVector id sector σ)
   = Redis.Returned None ∧
   (∀ k, k ≠ Valkey.getKey id sector →
      Valkey.deleteVector id sector σ !! k = σ !! k) ∧
   (∀ id' sector', colon_free sector → colon_free sector' →
      (id', sector') ≠ (id, sector) →
      Valkey.getVector id' sector' (Valkey.deleteVector id sector σ)
      = Valkey.getVector id' sector' σ)) ∧
  (Postgres.getVector m id sector (Postgres.deleteVector id sector t) = None ∧
   (∀ r, In r (Postgres.deleteVector id sector t) ↔
         In r t ∧ (Postgres.r_id r, Postgres.r_sector r) ≠ (id, sector)) ∧
   (∀ id' sector', (id', sector') ≠ (id, sector) →
      Postgres.getVector m id' sector' (Postgres.deleteVector id sector t)
      = Postgres.getVector m id' sector' t)).
Proof.
  split; [split; [|split]|split; [|split]].
  - apply getVector_absent. rewrite deleteVector_lookup.
    by rewrite decide_True.
  - intros k Hk. rewrite deleteVector_lookup. by rewrite decide_False.
  - intros id' sector' Hs Hs' Hne.
    unfold Valkey.getVector, Redis.hmget. simpl.
    rewrite deleteVector_lookup, decide_False; [done|].
    intros [-> ->]%getKey_inj_sector; done.
  - unfold Postgres.getVector, Postgres.deleteVector.
    by rewrite select_delete_same.
  - apply deleteVector_In.
  - intros id' sector' Hne. unfold Postgres.getVector, Postgres.deleteVector.
    rewrite select_delete_other; [done|].
    intros r [Hi Hs]%has_key_true.
    destruct (Postgres.has_key id sector r) eqn:E; [|done].
    apply has_key_true in E as [Hi' Hs']. destruct Hne. congruence.
Qed.

Section NotFoundFacts.
Context {embed : Embed} {host : Host} {pg : PgVector}.

Lemma getVector_no_row m id sector (t : Postgres.table m) :
  Postgres.getVector m id sector t = None ↔
  ∀ r, In r t → (Postgres.r_id r, Postgres.r_sector r) ≠ (id, sector).
Proof.
  unfold Postgres.getVector, SQL.first_row, SQL.select_where. split.
  - intros Hnone r Hin [= Hi Hs].
    assert (In r (List.filter (Postgres.has_key id sector) t)) as Hf.
    { apply List.filter_In. split; [done|]. by apply has_key_true. }
    by destruct (List.filter (Postgres.has_key id sector) t).
  - intros Hno.
    destruct (List.filter (Postgres.has_key id sector) t) as [|r rest] eqn:E;
      [done|].
    assert (In r (List.filter (Postgres.has_key id sector) t)) as Hf
      by (rewrite E; by left).
    apply List.filter_In in Hf as [Hin [Hi Hs]%has_key_true].
    destruct (Hno r Hin). by rewrite Hi, Hs.
Qed.
End NotFoundFacts.

(** X2.  [getVector(id, sector)] answers not-found, and raises nothing,
    when the store holds no record for the pair.  On the key/value class
    it does so for every key that is absent; on a store written by
    [storeVector] it answers not-found in exactly one more case, a record
    whose payload is the empty buffer.  On the relational class it
    answers not-found exactly when no row has the pair. *)
Theorem X2_get_vector_not_found {embed : Embed} {host : Host} {pg : PgVector}
    (id sector : string) :
  (∀ σ : Redis.store,
     σ !! Valkey.getKey id sector = None →
     Valkey.getVector id sector σ = Redis.Returned None) ∧
  (∀ σ : Redis.store, Valkey.wf σ →
     Valkey.getVector id sector σ = Redis.Returned None ↔
     σ !! Valkey.getKey id sector = None ∨
     ∃ r, Valkey.holds σ r ∧ Valkey.key_of r = Valkey.getKey id sector ∧
          Valkey.rec_v r = EmptyString) ∧
  (∀ m (t : Postgres.table m),
     Postgres.getVector m id sector t = None ↔
     ∀ r, In r t → (Postgres.r_id r, Postgres.r_sector r) ≠ (id, sector)).
Proof.
  split; [|split].
  - intros σ. apply getVector_absent.
  - intros σ Hwf.
    destruct (σ !! Valkey.getKey id sector) as [h|] eqn:Hk.
    + destruct (Hwf _ _ Hk) as (r & Hkey & ->).
      unfold Valkey.getVector, Redis.hmget. simpl. rewrite Hk. simpl.
      rewrite hash_of_v. split.
      * intros Hnone. right. exists r.
        split; [unfold Valkey.holds; by rewrite <- Hkey|]. split; [done|].
        destruct (Valkey.rec_v r); [done|]. simpl in Hnone.
        by destruct (bufferToVector_reply _).
      * intros [Hnone|(r' & Hr' & Hkey' & Hv)]; [done|].
        unfold Valkey.holds in Hr'. rewrite Hkey', Hk in Hr'.
        apply (inj Some), hash_of_inj in Hr'. subst r'. by rewrite Hv.
    + split; [by left|]. intros _. by apply getVector_absent.
  - intros m t. apply getVector_no_row.
Qed.

Section DeleteAllFacts.
Context {embed : Embed} {host : Host} {pg : PgVector} {server : Redis.Server}.

(** After [deleteVectors(id)] no key matches the pattern of the id. *)
Lemma deleteVectors_scan id n (σ : Redis.store) :
  concat (Redis.scan ("vec:*:" +:+ id) n (Valkey.deleteVectors id σ)) = [].
Proof.
  destruct (concat _) as [|k ks] eqn:E; [done|].
  assert (In k (concat (Redis.scan ("vec:*:" +:+ id) n
                          (Valkey.deleteVectors id σ)))) as Hin
    by (rewrite E; by left).
  apply scan_In in Hin as [[h Hk] Hm].
  rewrite deleteVectors_lookup in Hk.
  destruct (decide _) as [_|Hn]; [done|].
  destruct Hn. split; [by exists h|done].
Qed.
End DeleteAllFacts.

(** X3.  [deleteVectors(id)] followed by [getVectorsById(id)] returns the
    empty list, on both classes and for every id string, whatever
    characters it contains: the two operations select with the same
    pattern (the same [where] clause).  [deleteVectors] is idempotent:
    a second call changes nothing. *)
Theorem X3_delete_then_list {embed : Embed} {host : Host} {pg : PgVector}
    {server : Redis.Server}
    (σ : Redis.store) (m : bool) (t : Postgres.table m) (id : string) :
  Valkey.getVectorsById id (Valkey.deleteVectors id σ) = Redis.Returned [] ∧
  Valkey.deleteVectors id (Valkey.deleteVectors id σ)
    = Valkey.deleteVectors id σ ∧
  Postgres.getVectorsById m id (Postgres.deleteVectors id t) = [] ∧
  Postgres.deleteVectors id (Postgres.deleteVectors id t)
    = Postgres.deleteVectors id t.
Proof.
  split; [|split; [|split]].
  - unfold Valkey.getVectorsById.
    by rewrite collect_pages_concat, deleteVectors_scan.
  - apply map_eq. intros k. rewrite (deleteVectors_lookup id (Valkey.deleteVectors id σ)).
    destruct (decide _) as [[[h Hk] Hm]|Hn]; [|done].
    rewrite deleteVectors_lookup in Hk.
    destruct (decide _) as [_|Hn]; [done|].
    destruct Hn. split; [by exists h|done].
  - unfold Postgres.getVectorsById, Postgres.deleteVectors.
    by rewrite select_delete_same.
  - unfold Postgres.deleteVectors, SQL.delete_where.
    induction t as [|r t IH]; simpl; [done|].
    destruct (Postgres.has_id id r) eqn:E; simpl; [done|].
    by rewrite E, IH.
Qed.

Section InvariantFacts.
Context {embed : Embed} {host : Host} {pg : PgVector}.

Lemma or_default_nonempty (o : option string) (d : string) :
  d ≠ EmptyString → JS.or_default o d ≠ EmptyString.
Proof. intros Hd. by destruct o as [[|c s]|]. Qed.

(** Under the unique constraint a row is the only one under its key. *)
Lemma unique_key_select {m} (r : Postgres.row m) (t : Postgres.table m) :
  Postgres.unique_key t → In r t →
  SQL.select_where
    (Postgres.has_key (Postgres.r_id r) (Postgres.r_sector r)) t = [r].
Proof.
  unfold SQL.select_where. induction t as [|r0 t IH]; simpl; [done|].
  intros Hnd [->|Hin].
  - rewrite has_key_self. f_equal.
    change (List.filter ?P t) with (SQL.select_where P t).
    rewrite <- (delete_where_none
                  (Postgres.has_key (Postgres.r_id r) (Postgres.r_sector r))
                  t (unique_key_no_other r t Hnd)) at 1.
    apply select_delete_same.
  - pose proof Hnd as [Hnin Hnd']%NoDup_cons.
    destruct (Postgres.has_key (Postgres.r_id r) (Postgres.r_sector r) r0)
      eqn:Hk; [|by apply IH].
    apply has_key_true in Hk as [Hi Hs]. destruct Hnin.
    apply list_elem_of_In, in_map_iff. exists r. split; [|done].
    by rewrite Hi, Hs.
Qed.
End InvariantFacts.

(** X4.  An invariant of the key/value keyspace: in every state reached
    from the empty keyspace by [storeVector], [deleteVector] and
    [deleteVectors], each key holds the complete hash of one record (the
    five fields [v], [dim], [user_id], [id], [sector]), the key is
    ["vec:<sector>:<id>"] for the [id] and [sector] fields of its own
    hash, and the [user_id] field is never empty: a record stored without
    tenant, or with the empty one, carries ["anonymous"]. *)
Theorem X4_keyspace_invariant {embed : Embed} {server : Redis.Server}
    (σ : Redis.store) (k : string) (h : Redis.hash) :
  Valkey.reachable σ → σ !! k = Some h →
  ∃ r, k = Valkey.getKey (Valkey.rec_id r) (Valkey.rec_sector r) ∧
       h = Valkey.hash_of r ∧
       dom h = ({["v"; "dim"; "user_id"; "id"; "sector"]} : gset string) ∧
       Valkey.rec_user_id r ≠ EmptyString.
Proof.
  intros Hreach. revert k h.
  induction Hreach as [|id sector vector dim user_id σ Hreach IH
                       |id sector σ Hreach IH|id σ Hreach IH]; intros k h.
  - by rewrite lookup_empty.
  - rewrite storeVector_insert by by apply reachable_wf.
    rewrite lookup_insert. destruct (decide _) as [<-|Hne]; [|apply IH].
    intros [= <-]. exists (Valkey.written id sector vector dim user_id).
    split; [done|]. split; [done|]. split; [apply hash_of_dom|].
    by apply or_default_nonempty.
  - rewrite deleteVector_lookup. destruct (decide _); [done|apply IH].
  - rewrite deleteVectors_lookup. destruct (decide _); [done|apply IH].
Qed.

(** The invariant on the key a first store writes. *)
Lemma X4_keyspace_invariant_witness :
  ∃ r, "vec:s:a" = Valkey.getKey (Valkey.rec_id r) (Valkey.rec_sector r) ∧
       Valkey.hash_of
         (Valkey.written (embed := Reference.embed) "a" "s" [1; 0]%float 2
            None)
       = Valkey.hash_of r ∧
       dom (Valkey.hash_of
              (Valkey.written (embed := Reference.embed) "a" "s" [1; 0]%float
                 2 None))
       = ({["v"; "dim"; "user_id"; "id"; "sector"]} : gset string) ∧
       Valkey.rec_user_id r ≠ EmptyString.
Proof.
  apply (X4_keyspace_invariant (embed := Reference.embed)
           (server := Reference.server)
           (Valkey.storeVector (embed := Reference.embed) "a" "s"
              [1; 0]%float 2 None ∅)).
  - apply Valkey.reach_store, Valkey.reach_empty.
  - rewrite (storeVector_insert (embed := Reference.embed)) by apply wf_empty.
    apply lookup_insert_eq.
Defined.

(** X5.  An invariant of the relational table: in every state reached
    from the empty table by [storeVector], [deleteVector] and
    [deleteVectors] no two rows have the same [(id, sector)] (the upsert
    never adds a second row under a pair), no row has an empty
    [user_id], and every row is the one [getVector] returns for its
    pair. *)
Theorem X5_table_invariant {embed : Embed} {host : Host} {pg : PgVector}
    (m : bool) (t : Postgres.table m) :
  Postgres.reachable m t →
  Postgres.unique_key t ∧
  (∀ r, In r t → Postgres.r_user_id r ≠ EmptyString) ∧
  (∀ r, In r t →
     Postgres.getVector m (Postgres.r_id r) (Postgres.r_sector r) t
     = Some (VecDim (Postgres.read_v m (Postgres.r_v r))
                    (Some (Postgres.r_dim r)))).
Proof.
  intros Hreach.
  assert (Hinv : Postgres.unique_key t ∧
                 ∀ r, In r t → Postgres.r_user_id r ≠ EmptyString).
  { induction Hreach as [|id sector vector dim user_id t Hreach [IHu IHt]
                         |id sector t Hreach [IHu IHt]
                         |id t Hreach [IHu IHt]].
    - split; [apply NoDup_nil_2|by intros r []].
    - rewrite storeVector_upsert. split; [by apply upsert_unique|].
      intros r [->|Hin]%upsert_In_weak; [|by apply IHt].
      by apply or_default_nonempty.
    - split; [by apply filter_unique|].
      intros r [Hin _]%List.filter_In. by apply IHt.
    - split; [by apply filter_unique|].
      intros r [Hin _]%List.filter_In. by apply IHt. }
  destruct Hinv as [Hu Ht]. split; [done|]. split; [done|].
  intros r Hin. unfold Postgres.getVector.
  by rewrite unique_key_select.
Qed.

(** The invariant on a table written twice. *)
Lemma X5_table_invariant_witness :
  let t := Postgres.storeVector (embed := Reference.embed)
             (host := Reference.host) (pg := Reference.pgvector) false
             "a" "s2" [0; 1]%float 2 (Some EmptyString)
             (Postgres.storeVector (embed := Reference.embed)
                (host := Reference.host) (pg := Reference.pgvector) false
                "a" "s" [1; 0]%float 2 None []) in
  Postgres.unique_key t ∧
  (∀ r, In r t → Postgres.r_user_id r ≠ EmptyString) ∧
  (∀ r, In r t →
     Postgres.getVector (embed := Reference.embed) (host := Reference.host)
       (pg := Reference.pgvector) false
       (Postgres.r_id r) (Postgres.r_sector r) t
     = Some (VecDim (Postgres.read_v (embed := Reference.embed)
                       (host := Reference.host) false (Postgres.r_v r))
                    (Some (Postgres.r_dim r)))).
Proof.
  intros t.
  apply (X5_table_invariant (embed := Reference.embed)
           (host := Reference.host) (pg := Reference.pgvector) false t).
  do 2 apply Postgres.table_store. apply Postgres.table_empty.
Defined.

Section ByIdFacts.
Context {embed : Embed} {host : Host} {pg : PgVector}.

Lemma getVectorsById_rows m id (t : Postgres.table m) x :
  In x (Postgres.getVectorsById m id t) ↔
  ∃ r, In r t ∧ Postgres.r_id r = id ∧
       x = ById (Some (Postgres.r_sector r))
                (Postgres.read_v m (Postgres.r_v r))
                (Some (Postgres.r_dim r)).
Proof.
  unfold Postgres.getVectorsById, SQL.select_where, Postgres.has_id.
  rewrite in_map_iff. split.
  - intros (r & <- & [Hin Hs%String.eqb_eq]%List.filter_In). by exists r.
  - intros (r & Hin & Hs & ->). exists r. split; [done|].
    apply List.filter_In. split; [done|]. by apply String.eqb_eq.
Qed.
End ByIdFacts.

(** X6.  [getVectorsById(id)] returns exactly the records stored with
    that id, each with the sector, the vector and the dim of its record.
    - On the relational class this holds for every id string and every
      table.
    - On the key/value class it holds whenever the call returns, for
      every id without [':'] and without glob metacharacter, on every
      store written by [storeVector] whose records have no [':'] in their
      sector and id: each entry carries the sector of its record, the
      vector the codec decodes from its payload and the dim read from
      its numeral.  The call returns exactly when the codec decodes the
      payload of every record of the id. *)
Theorem X6_list_by_id {embed : Embed} {host : Host} {pg : PgVector}
    {server : Redis.Server}
    (σ : Redis.store) (m : bool) (t : Postgres.table m) (id : string) :
  (Valkey.wf σ → Valkey.colon_free_store σ →
   colon_free id → glob_free id →
   (Redis.returned (Valkey.getVectorsById id σ) ↔
    ∀ r, Valkey.holds σ r → Valkey.rec_id r = id →
         Redis.returned (Valkey.decoded r)) ∧
   (∀ out, Valkey.getVectorsById id σ = Redis.Returned out →
      ∀ x, In x out ↔
           ∃ r v, Valkey.holds σ r ∧ Valkey.rec_id r = id ∧
                  Valkey.decoded r = Redis.Returned v ∧
                  x = ById (Some (Valkey.rec_sector r)) v
                           (Valkey.dim_read r))) ∧
  (∀ x, In x (Postgres.getVectorsById m id t) ↔
        ∃ r, In r t ∧ Postgres.r_id r = id ∧
             x = ById (Some (Postgres.r_sector r))
                      (Postgres.read_v m (Postgres.r_v r))
                      (Some (Postgres.r_dim r))).
Proof.
  split; [|apply getVectorsById_rows].
  intros Hwf Hcf Hid Hg.
  assert (Hsplit : ∀ r, Valkey.holds σ r →
            JS.split ":" (Valkey.key_of r) !! 1%nat
            = Some (Valkey.rec_sector r)).
  { intros r Hr. destruct (Hcf r Hr) as [_ Hs].
    unfold Valkey.key_of. by rewrite getKey_split. }
  assert (Hmatch : ∀ r, Valkey.holds σ r →
            Glob.matches ("vec:*:" +:+ id) (Valkey.key_of r) = true ↔
            Valkey.rec_id r = id).
  { intros r Hr. destruct (Hcf r Hr) as [Hri Hrs].
    rewrite glob_id_pattern by done. split.
    - intros [a Hk]. by apply getKey_suffix_inv in Hk as [? _].
    - intros <-. by exists (Valkey.rec_sector r). }
  split.
  - rewrite getVectorsById_returned by done.
    split; intros Hall r Hr Hm; apply Hall; try done; by apply Hmatch.
  - intros out Hout x. rewrite (getVectorsById_In _ _ _ _ Hwf Hout).
    split; intros (r & v & Hr & Hm & Hv & ->); exists r, v;
      (split; [done|]); (split; [by apply Hmatch|]); (split; [done|]);
      by rewrite Hsplit.
Qed.

(** The listing by id on a store that holds id [a] under two sectors and
    id [b] under one, all with the empty vector. *)
Lemma X6_list_by_id_witness :
  let σ := Valkey.storeVector (embed := Reference.embed) "b" "s" [] 0 None
             (Valkey.storeVector (embed := Reference.embed) "a" "s2" [] 0
                None
                (Valkey.storeVector (embed := Reference.embed) "a" "s" [] 0
                   None ∅)) in
  Redis.returned
    (Valkey.getVectorsById (embed := Reference.embed)
       (server := Reference.server) "a" σ) ∧
  ∀ out,
    Valkey.getVectorsById (embed := Reference.embed)
      (server := Reference.server) "a" σ = Redis.Returned out →
    ∀ x, In x out ↔
         ∃ r v, Valkey.holds σ r ∧ Valkey.rec_id r = "a" ∧
                Valkey.decoded (embed := Reference.embed) r
                  = Redis.Returned v ∧
                x = ById (Some (Valkey.rec_sector r)) v (Valkey.dim_read r).
Proof.
  intros σ.
  assert (Hwf : Valkey.wf σ)
    by (do 3 apply (wf_storeVector (embed := Reference.embed));
        apply wf_empty).
  assert (Hrec : ∀ r, Valkey.holds σ r →
            Valkey.rec_v r = EmptyString ∧
            colon_free (Valkey.rec_id r) ∧ colon_free (Valkey.rec_sector r)).
  { intros r Hr. unfold Valkey.holds, σ in Hr.
    rewrite !(storeVector_insert (embed := Reference.embed)) in Hr
      by (repeat apply (wf_storeVector (embed := Reference.embed));
          apply wf_empty).
    repeat (apply lookup_insert_Some in Hr as [[_ Hh]|[_ Hr]];
            [apply hash_of_inj in Hh; by rewrite <- Hh|]).
    by rewrite lookup_empty in Hr. }
  destruct (proj1 (X6_list_by_id (embed := Reference.embed)
                     (host := Reference.host) (pg := Reference.pgvector)
                     (server := Reference.server) σ false [] "a"))
    as (Hret & Hout).
  - exact Hwf.
  - intros r Hr. by destruct (Hrec r Hr) as (_ & ? & ?).
  - reflexivity.
  - reflexivity.
  - split; [|exact Hout]. apply Hret. intros r Hr _.
    destruct (Hrec r Hr) as (Hv & _). unfold Valkey.decoded.
    rewrite Hv. by eexists.
Defined.

Section ReplyLoopFacts.
Context {host : Host}.

(** The documents of a reply that pass the tenant test, as the reader
    scores them, in the reply's order. *)
Lemma read_documents_take res topK user_id acc :
  (length acc < Nat.max topK 1)%nat →
  Valkey.read_documents res topK user_id acc
  = acc ++
    firstn (Nat.max topK 1 - length acc)
      (map (λ d, fst (Valkey.read_document d))
         (List.filter
            (λ d, Valkey.tenant_ok user_id
                    (Some (snd (Valkey.read_document d)))) res)).
Proof.
  revert acc. induction res as [|d res IH]; intros acc Hacc; simpl.
  - by rewrite firstn_nil, app_nil_r.
  - destruct (Valkey.read_document d) as [entry u] eqn:Hd. simpl.
    destruct (Valkey.tenant_ok user_id (Some u)) eqn:Ht; [|by apply IH].
    simpl. rewrite Hd. simpl.
    destruct (Nat.max topK 1 - length acc)%nat as [|n] eqn:Hn; [lia|].
    simpl.
    destruct (topK <=? length (acc ++ [entry]))%nat eqn:Hk.
    + apply Nat.leb_le in Hk. rewrite length_app in Hk. simpl in Hk.
      assert (n = 0)%nat as -> by lia. done.
    + apply Nat.leb_gt in Hk. rewrite length_app in Hk. simpl in Hk.
      rewrite IH by (rewrite length_app; simpl; lia).
      rewrite length_app. simpl. rewrite <- app_assoc. simpl.
      do 3 f_equal. lia.
Qed.
End ReplyLoopFacts.

(** X7.  The native path of the key/value [searchSimilar], when the search
    call answers: the result is, in the order of the reply, the first
    [max(topK, 1)] documents that pass the tenant test, each as
    [{id, 1 - dist}]; nothing is logged.  The test for [topK] comes after
    the push, so that a call with [topK = 0] returns one result as soon
    as a document passes. *)
Theorem X7_native_reply {embed : Embed} {host : Host}
    {server : Redis.Server} (c : Redis.client) (σ : Redis.store) (sector : string) (queryVec : vector)
    (topK : nat) (user_id : option string) (res : list Redis.document) :
  Redis.ft_search c ("idx:" +:+ sector) (topK * 2) (vectorToBuffer queryVec)
    = Redis.Returned res →
  Valkey.searchSimilar c sector queryVec topK user_id σ
  = ([], Redis.Returned
           (firstn (Nat.max topK 1)
              (map (λ d, fst (Valkey.read_document d))
                 (List.filter
                    (λ d, Valkey.tenant_ok user_id
                            (Some (snd (Valkey.read_document d)))) res)))).
Proof.
  intros Hcall. unfold Valkey.searchSimilar. rewrite Hcall.
  rewrite read_documents_take by (simpl; lia).
  by rewrite Nat.sub_0_r.
Qed.

(** The native path on the scenario's reply, with [topK = 0]: one
    result. *)
Lemma X7_native_reply_witness :
  Valkey.searchSimilar (embed := Reference.embed) (host := Reference.host)
    (server := Reference.server)
    Scenario.answering "s" [1; 0]%float 0 None Scenario.store
  = ([], Redis.Returned [Scored "a" 1%float]).
Proof.
  etrans.
  - apply (X7_native_reply (embed := Reference.embed) (host := Reference.host)
             (server := Reference.server) Scenario.answering Scenario.store "s" [1; 0]%float 0 None
             Scenario.reply).
    reflexivity.
  - vm_compute. reflexivity.
Defined.

Section TenantFacts.
Context {embed : Embed} {host : Host} {pg : PgVector}.

Lemma read_documents_empty_tenant res topK acc :
  Valkey.read_documents res topK (Some EmptyString) acc
  = Valkey.read_documents res topK None acc.
Proof.
  revert acc. induction res as [|d res IH]; intros acc; simpl; [done|].
  destruct (Valkey.read_document d) as [entry u].
  change (Valkey.tenant_ok (Some EmptyString) (Some u)) with true.
  change (Valkey.tenant_ok None (Some u)) with true. cbv iota.
  by rewrite IH.
Qed.
End TenantFacts.

(** X8.  The empty string as [user_id] is the absent [user_id], on every
    operation that takes one and on both classes: [storeVector] writes
    the same record (tenant ["anonymous"]), and [searchSimilar] returns
    the same results and writes the same log, with no tenant filter. *)
Theorem X8_empty_tenant {embed : Embed} {host : Host} {pg : PgVector}
    {server : Redis.Server} (c : Redis.client) (σ : Redis.store) (m : bool) (t : Postgres.table m)
    (id sector : string) (v : vector) (dim : Z) (topK : nat) :
  (Valkey.storeVector id sector v dim (Some EmptyString) σ
   = Valkey.storeVector id sector v dim None σ ∧
   Valkey.searchSimilar c sector v topK (Some EmptyString) σ
   = Valkey.searchSimilar c sector v topK None σ) ∧
  (Postgres.storeVector m id sector v dim (Some EmptyString) t
   = Postgres.storeVector m id sector v dim None t ∧
   Postgres.searchSimilar m sector v topK (Some EmptyString) t
   = Postgres.searchSimilar m sector v topK None t).
Proof.
  split; split.
  - reflexivity.
  - unfold Valkey.searchSimilar.
    destruct (Redis.ft_search c _ _ _) as [res|e]; [|done].
    by rewrite read_documents_empty_tenant.
  - by destruct m.
  - by destruct m.
Qed.

Section CountFacts.
Context {A : Type}.

Lemma firstn_all_In (k : nat) (l : list A) x :
  (length l ≤ k)%nat → In x l → In x (firstn k l).
Proof. intros Hk Hin. by rewrite firstn_all2. Qed.
End CountFacts.

(** X9.  How many results a search returns, and which, when [topK] is
    large enough.  The number of results is the smaller of [topK] and the
    number of candidates: none for [topK = 0], and never fewer than
    [topK] while candidates are left.  When [topK] is at least the number
    of candidates, every candidate is returned with its score.
    - In the compatibility mode of the relational class, for every
      sector string and table: the candidates are the rows the [where]
      clause selects.
    - In its native mode likewise, when the engine carries out the
      query.
    - On the fallback path of the key/value class, whenever it returns:
      the candidates are those the scan has given; they include every
      record of the sector that passes the tenant test, for a sector
      without [':'] and glob metacharacter, on a store written by
      [storeVector] whose records have no [':'] in their sector and
      id. *)
Theorem X9_search_count {embed : Embed} {host : Host} {pg : PgVector}
    {server : Redis.Server}
    (σ : Redis.store) (t0 : Postgres.table false) (t1 : Postgres.table true)
    (sector : string) (q : vector) (k : nat) (user_id : option string) :
  (∀ out, Valkey.fallback sector q k user_id σ = Redis.Returned out →
     ∃ allVecs,
       Valkey.scan_all sector user_id σ = Redis.Returned allVecs ∧
       length out = Nat.min k (length allVecs) ∧
       (Valkey.wf σ → Valkey.colon_free_store σ →
        colon_free sector → glob_free sector →
        (length allVecs ≤ k)%nat →
        ∀ r, Valkey.holds σ r → Valkey.rec_sector r = sector →
             Valkey.tenant_ok user_id (Some (Valkey.rec_user_id r)) = true →
             ∃ v, Valkey.decoded r = Redis.Returned v ∧
                  In (Scored (Valkey.rec_id r) (Valkey.cosineSimilarity q v))
                     out)) ∧
  (length (Postgres.searchSimilar false sector q k user_id t0)
   = Nat.min k
       (length (SQL.select_where (Postgres.search_filter sector user_id) t0)) ∧
   ((length (SQL.select_where (Postgres.search_filter sector user_id) t0)
     ≤ k)%nat →
    ∀ r, In r t0 → Postgres.search_filter sector user_id r = true →
         In (Scored (Postgres.r_id r)
               (cosineSimilarity q (bufferToVector (Postgres.r_v r))))
            (Postgres.searchSimilar false sector q k user_id t0))) ∧
  (Postgres.search_accepted true sector q user_id t1 = true →
   length (Postgres.searchSimilar true sector q k user_id t1)
   = Nat.min k
       (length (SQL.select_where (Postgres.search_filter sector user_id) t1)) ∧
   ((length (SQL.select_where (Postgres.search_filter sector user_id) t1)
     ≤ k)%nat →
    ∀ r, In r t1 → Postgres.search_filter sector user_id r = true →
         In (Scored (Postgres.r_id r)
               (1 - cosine_distance (Postgres.r_v r)
                      (vector_in (JSON_stringify q)))%float)
            (Postgres.searchSimilar true sector q k user_id t1))).
Proof.
  split; [|split].
  - intros out (sims & (allVecs & Hscan & ->)%fallback_sims_Returned & ->)
      %fallback_Returned.
    exists allVecs. split; [done|]. unfold JSArray.sort. split.
    + by rewrite length_firstn, stable_sort_length, length_map.
    + intros Hwf Hcf Hs Hg Hk r Hr Hsec Ht.
      assert (Hm : Glob.matches ("vec:" +:+ sector +:+ ":*")
                     (Valkey.key_of r) = true).
      { apply glob_sector_pattern; [done|]. exists (Valkey.rec_id r).
        by rewrite <- Hsec. }
      assert (Hret : Redis.returned (Valkey.scan_all sector user_id σ))
        by by eexists.
      rewrite scan_all_returned in Hret by done.
      destruct (Hret r Hr Hm Ht) as [v Hv]. exists v. split; [done|].
      apply firstn_all_In.
      { by rewrite stable_sort_length, length_map. }
      apply stable_sort_In, in_map_iff. exists (Valkey.rec_id r, v).
      split; [done|]. apply (scan_all_In _ _ _ _ _ Hwf Hscan).
      exists r, v. destruct (Hcf r Hr) as [Hri Hrs].
      split; [done|]. split; [done|]. split; [done|]. split; [done|].
      unfold Valkey.key_of. by rewrite getKey_pop.
  - simpl. unfold JSArray.slice0, JSArray.sort. split.
    + by rewrite length_firstn, stable_sort_length, length_map.
    + intros Hk r Hin Hf. apply firstn_all_In.
      { by rewrite stable_sort_length, length_map. }
      apply stable_sort_In, in_map_iff. exists r. split; [done|].
      apply List.filter_In. done.
  - intros _. simpl. unfold SQL.limit, SQL.order_by. split.
    + by rewrite length_map, length_firstn, stable_sort_length.
    + intros Hk r Hin Hf. apply in_map_iff. exists r. split; [done|].
      apply firstn_all_In; [by rewrite stable_sort_length|].
      apply stable_sort_In, List.filter_In. done.
Qed.

(** The count on the scenario, with [topK = 5]: the two records with the
    empty vector on the fallback path, and the two rows in native
    mode. *)
Lemma X9_search_count_witness :
  (∀ out,
     Valkey.fallback (embed := Reference.embed) (server := Reference.server)
       "s" [1; 0]%float 5 None Scenario.bare = Redis.Returned out →
     length out = 2%nat) ∧
  length (Postgres.searchSimilar (embed := Reference.embed)
            (host := Reference.host) (pg := Reference.pgvector) true "s"
            [1; 0]%float 5 None (Scenario.table true)) = 2%nat.
Proof.
  destruct (X9_search_count (embed := Reference.embed)
              (host := Reference.host) (pg := Reference.pgvector)
              (server := Reference.server)
              Scenario.bare (Scenario.table false) (Scenario.table true)
              "s" [1; 0]%float 5 None)
    as (Hkv & _ & Hn).
  split.
  - intros out Hout. destruct (Hkv out Hout) as (allVecs & Hscan & -> & _).
    vm_compute in Hscan. injection Hscan as <-. reflexivity.
  - destruct Hn as [Hn _]; [by vm_compute|].
    etrans; [exact Hn|]. by vm_compute.
Defined.

Section SplitFacts.
Implicit Types (s t : string) (c : ascii).

(** Splitting at a separator splits both sides. *)
Lemma split_app_sep c s t :
  JS.split c (s +:+ String c t) = JS.split c s ++ JS.split c t.
Proof.
  induction s as [|d s IH].
  - rewrite str_app_nil. simpl. by rewrite Ascii.eqb_refl.
  - rewrite str_app_cons. simpl. rewrite IH.
    destruct (Ascii.eqb d c); [done|].
    destruct (JS.split c s) as [|p ps] eqn:E;
      [by destruct (split_not_nil c s)|done].
Qed.

Lemma getKey_split_any id sector :
  JS.split ":" (Valkey.getKey id sector)
  = "vec" :: JS.split ":" sector ++ JS.split ":" id.
Proof.
  unfold Valkey.getKey.
  change ("vec:" +:+ sector +:+ ":" +:+ id)
    with ("vec" +:+ String ":" (sector +:+ String ":" id)).
  by rewrite !split_app_sep.
Qed.

Lemma getKey_second id sector :
  JS.split ":" (Valkey.getKey id sector) !! 1%nat
  = head (JS.split ":" sector).
Proof.
  rewrite getKey_split_any.
  destruct (JS.split ":" sector) as [|p ps] eqn:E;
    [by destruct (split_not_nil ":" sector)|done].
Qed.

Lemma getKey_pop_any id sector :
  JS.split_pop (Valkey.getKey id sector) = JS.split_pop id.
Proof.
  unfold Valkey.getKey.
  change ("vec:" +:+ sector +:+ ":" +:+ id)
    with ("vec" +:+ String ":" (sector +:+ String ":" id)).
  by rewrite !split_pop_app.
Qed.
End SplitFacts.

(** X10.  What the key/value class reports for a record whose sector or
    id contains [':'].  The key of a record splits into ["vec"], the
    segments of the sector and the segments of the id.  When it returns,
    [getVectorsById] has listed the record under the id it was stored
    with, but with the part of the stored sector before the first [':']
    as its sector; [getVectorsBySector] and the scan of the fallback
    search have listed it under the sector it was stored with, but with
    the part of the stored id after the last [':'] as its id.  (Ids and
    sectors without glob metacharacter, on a store written by
    [storeVector]; the vector is the one the codec decodes from the
    payload, the dim the one read from its numeral.) *)
Theorem X10_identity_with_colons {embed : Embed} {server : Redis.Server}
    (σ : Redis.store) (r : Valkey.record) :
  Valkey.wf σ → Valkey.holds σ r →
  JS.split ":" (Valkey.key_of r)
  = "vec" :: JS.split ":" (Valkey.rec_sector r)
          ++ JS.split ":" (Valkey.rec_id r) ∧
  (glob_free (Valkey.rec_id r) →
   ∀ out, Valkey.getVectorsById (Valkey.rec_id r) σ = Redis.Returned out →
     ∃ v, Valkey.decoded r = Redis.Returned v ∧
          In (ById (head (JS.split ":" (Valkey.rec_sector r))) v
                   (Valkey.dim_read r)) out) ∧
  (glob_free (Valkey.rec_sector r) →
   (∀ out,
      Valkey.getVectorsBySector (Valkey.rec_sector r) σ
        = Redis.Returned out →
      ∃ v, Valkey.decoded r = Redis.Returned v ∧
           In (BySector (JS.split_pop (Valkey.rec_id r)) v
                        (Valkey.dim_read r)) out) ∧
   (∀ u out, Valkey.tenant_ok u (Some (Valkey.rec_user_id r)) = true →
      Valkey.scan_all (Valkey.rec_sector r) u σ = Redis.Returned out →
      ∃ v, Valkey.decoded r = Redis.Returned v ∧
           In (JS.split_pop (Valkey.rec_id r), v) out)).
Proof.
  intros Hwf Hr. split; [apply getKey_split_any|]. split.
  - intros Hg out Hout.
    assert (Hm : Glob.matches ("vec:*:" +:+ Valkey.rec_id r)
                   (Valkey.key_of r) = true).
    { apply glob_id_pattern; [done|]. by exists (Valkey.rec_sector r). }
    assert (Hret : Redis.returned
                     (Valkey.getVectorsById (Valkey.rec_id r) σ))
      by by eexists.
    rewrite getVectorsById_returned in Hret by done.
    destruct (Hret r Hr Hm) as [v Hv]. exists v. split; [done|].
    apply (getVectorsById_In _ _ _ _ Hwf Hout). exists r, v.
    split; [done|]. split; [done|]. split; [done|].
    unfold Valkey.key_of. by rewrite getKey_second.
  - intros Hg.
    assert (Hm : Glob.matches ("vec:" +:+ Valkey.rec_sector r +:+ ":*")
                   (Valkey.key_of r) = true).
    { apply glob_sector_pattern; [done|]. by exists (Valkey.rec_id r). }
    split.
    + intros out Hout.
      assert (Hret : Redis.returned
                       (Valkey.getVectorsBySector (Valkey.rec_sector r) σ))
        by by eexists.
      rewrite getVectorsBySector_returned in Hret by done.
      destruct (Hret r Hr Hm) as [v Hv]. exists v. split; [done|].
      apply (getVectorsBySector_In _ _ _ _ Hwf Hout). exists r, v.
      split; [done|]. split; [done|]. split; [done|].
      unfold Valkey.key_of. by rewrite getKey_pop_any.
    + intros u out Hu Hout.
      assert (Hret : Redis.returned
                       (Valkey.scan_all (Valkey.rec_sector r) u σ))
        by by eexists.
      rewrite scan_all_returned in Hret by done.
      destruct (Hret r Hr Hm Hu) as [v Hv]. exists v. split; [done|].
      apply (scan_all_In _ _ _ _ _ Hwf Hout). exists r, v.
      split; [done|]. split; [done|]. split; [done|]. split; [done|].
      unfold Valkey.key_of. by rewrite getKey_pop_any.
Qed.

(** The record stored with id ["a:b"] under sector ["s:x"], with the
    empty vector. *)
Lemma X10_identity_with_colons_witness :
  let σ := Valkey.storeVector (embed := Reference.embed) "a:b" "s:x" [] 0
             None ∅ in
  JS.split ":" (Valkey.getKey "a:b" "s:x") = ["vec"; "s"; "x"; "a"; "b"] ∧
  (∀ out,
     Valkey.getVectorsById (embed := Reference.embed)
       (server := Reference.server) "a:b" σ = Redis.Returned out →
     In (ById (Some "s") [] (Some 0%Z)) out) ∧
  (∀ out,
     Valkey.getVectorsBySector (embed := Reference.embed)
       (server := Reference.server) "s:x" σ = Redis.Returned out →
     In (BySector "b" [] (Some 0%Z)) out).
Proof.
  intros σ.
  destruct (X10_identity_with_colons (embed := Reference.embed)
              (server := Reference.server) σ
              (Valkey.written (embed := Reference.embed) "a:b" "s:x" [] 0
                 None))
    as (Hsplit & Hid & Hsec).
  - apply (wf_storeVector (embed := Reference.embed)), wf_empty.
  - unfold Valkey.holds, σ.
    rewrite (storeVector_insert (embed := Reference.embed)) by apply wf_empty.
    apply lookup_insert_eq.
  - split; [exact Hsplit|]. split.
    + intros out Hout.
      destruct (Hid eq_refl out Hout) as (v & [= <-] & Hin). exact Hin.
    + intros out Hout.
      destruct (proj1 (Hsec eq_refl) out Hout) as (v & [= <-] & Hin).
      exact Hin.
Defined.

Section StoreDeleteFacts.
Context {embed : Embed} {host : Host} {pg : PgVector}.


End StoreDeleteFacts.


Section NoDupFacts.
Context {A B C : Type}.

(** No two elements share their [g] when no two share their [f] and [g]
    determines [f] on the list. *)
Lemma NoDup_map_finer (f : A → B) (g : A → C) (l : list A) :
  (∀ x y, In x l → In y l → g x = g y → f x = f y) →
  NoDup (map f l) → NoDup (map g l).
Proof.
  induction l as [|a l IH]; simpl; intros Hfg Hnd; [constructor|].
  apply NoDup_cons in Hnd as [Hnin Hnd]. apply NoDup_cons. split.
  - intros Hin. apply Hnin.
    apply list_elem_of_In, in_map_iff in Hin as (b & Hg & Hb).
    apply list_elem_of_In, in_map_iff. exists b. split; [|done].
    apply Hfg; [by right|by left|done].
  - apply IH; [|done]. intros x y Hx Hy. apply Hfg; by right.
Qed.

End NoDupFacts.

Section DistinctIds.
Context {embed : Embed} {host : Host} {pg : PgVector}.

(** The ids of the results are those of a sub-sequence of what was
    sorted. *)
Lemma sorted_slice_NoDup {R} (f : R → string) (behind : R → R → bool)
    (k : nat) (l : list R) :
  NoDup (map f l) → NoDup (map f (firstn k (Stable.sort behind l))).
Proof.
  intros Hnd. apply (sublist_NoDup _ (map f (Stable.sort behind l))).
  - by rewrite (stable_sort_perm behind l).
  - apply (fmap_sublist f), sublist_take.
Qed.

(** Under the unique constraint the rows of one sector have distinct
    ids. *)
Lemma sector_rows_NoDup {m} (P : Postgres.row m → bool) sector
    (t : Postgres.table m) :
  (∀ r, P r = true → Postgres.r_sector r = sector) →
  Postgres.unique_key t →
  NoDup (map Postgres.r_id (List.filter P t)).
Proof.
  intros HP Hu.
  apply (NoDup_map_finer
           (λ r : Postgres.row m, (Postgres.r_id r, Postgres.r_sector r))).
  - intros x y [_ Hx]%List.filter_In [_ Hy]%List.filter_In Hid.
    by rewrite Hid, (HP x Hx), (HP y Hy).
  - by apply filter_unique.
Qed.

End DistinctIds.

(** X12.  On the relational class no id is listed twice: the results of
    a search, in both modes, and the listing of a sector carry pairwise
    different ids, for every sector string, on every table without two
    rows under the same [(id, sector)]. *)
Theorem X12_distinct_ids {embed : Embed} {host : Host} {pg : PgVector}
    (m : bool) (t : Postgres.table m)
    (sector : string) (q : vector) (k : nat) (user_id : option string) :
  Postgres.unique_key t →
  NoDup (map s_id (Postgres.searchSimilar m sector q k user_id t)) ∧
  NoDup (map bs_id (Postgres.getVectorsBySector m sector t)).
Proof.
  intros Hu. split.
  - assert (Hrows : NoDup (map Postgres.r_id
                (SQL.select_where (Postgres.search_filter sector user_id) t))).
    { apply (sector_rows_NoDup _ sector); [|done].
      by intros r [Hsec _]%search_filter_true. }
    destruct m; simpl.
    + rewrite map_map. simpl. unfold SQL.limit, SQL.order_by.
      by apply sorted_slice_NoDup.
    + unfold JSArray.slice0, JSArray.sort. apply sorted_slice_NoDup.
      by rewrite map_map.
  - unfold Postgres.getVectorsBySector. rewrite map_map. simpl.
    apply (sector_rows_NoDup _ sector); [|done].
    unfold Postgres.has_sector. by intros r ?%String.eqb_eq.
Qed.

(** The ids of the scenario's sector, in native mode. *)
Lemma X12_distinct_ids_witness :
  NoDup (map s_id (Postgres.searchSimilar (embed := Reference.embed)
                     (host := Reference.host) (pg := Reference.pgvector)
                     true "s" [1; 0]%float 2 None (Scenario.table true))) ∧
  NoDup (map bs_id (Postgres.getVectorsBySector (embed := Reference.embed)
                      (host := Reference.host) (pg := Reference.pgvector)
                      true "s" (Scenario.table true))).
Proof.
  apply (X12_distinct_ids (embed := Reference.embed) (host := Reference.host)
           (pg := Reference.pgvector) true
           (Scenario.table true) "s" [1; 0]%float 2 None).
  unfold Scenario.table. rewrite !storeVector_upsert.
  do 2 apply upsert_unique. apply NoDup_nil_2.
Defined.

Section FloatAlgebra.
Lemma SFmul_comm prec emax (x y : spec_float) :
  SFmul prec emax x y = SFmul prec emax y x.
Proof.
  destruct x as [sx|sx| |sx mx ex], y as [sy|sy| |sy my ey]; simpl;
    try reflexivity; try (by rewrite xorb_comm).
  by rewrite xorb_comm, Pos.mul_comm, Z.add_comm.
Qed.

(** The product of two binary64 numbers does not depend on their
    order. *)
Lemma float_mul_comm (x y : float) : (x * y)%float = (y * x)%float.
Proof.
  rewrite <- (FloatAxioms.SF2Prim_Prim2SF (x * y)).
  rewrite <- (FloatAxioms.SF2Prim_Prim2SF (y * x)).
  rewrite !FloatAxioms.mul_spec. unfold SF64mul. by rewrite SFmul_comm.
Qed.

Lemma dot_comm_fold (a b : vector) (acc : float) :
  fold_left (λ acc xy, (acc + fst xy * snd xy)%float) (combine a b) acc
  = fold_left (λ acc xy, (acc + fst xy * snd xy)%float) (combine b a) acc.
Proof.
  revert b acc. induction a as [|x a IH]; intros [|y b] acc; simpl; try done.
  by rewrite IH, float_mul_comm.
Qed.

Lemma is_nan_spec (x : float) :
  PrimFloat.is_nan x = true ↔ Prim2SF x = S754_nan.
Proof.
  unfold PrimFloat.is_nan. rewrite negb_true_iff, FloatAxioms.eqb_spec.
  split; [apply SFeqb_refl_inv|]. by intros ->.
Qed.

Lemma is_nan_mul_l (x y : float) :
  PrimFloat.is_nan x = true → PrimFloat.is_nan (x * y) = true.
Proof.
  rewrite !is_nan_spec, FloatAxioms.mul_spec. by intros ->.
Qed.

Lemma is_nan_add_l (x y : float) :
  PrimFloat.is_nan x = true → PrimFloat.is_nan (x + y) = true.
Proof.
  rewrite !is_nan_spec, FloatAxioms.add_spec. by intros ->.
Qed.

Lemma is_nan_add_r (x y : float) :
  PrimFloat.is_nan y = true → PrimFloat.is_nan (x + y) = true.
Proof.
  rewrite !is_nan_spec, FloatAxioms.add_spec. intros ->.
  by destruct (Prim2SF x).
Qed.

(** A sum of squares is NaN as soon as one of the numbers is. *)
Lemma norm2_nan_fold (a : vector) (acc x : float) :
  PrimFloat.is_nan acc = true ∨ (In x a ∧ PrimFloat.is_nan x = true) →
  PrimFloat.is_nan
    (fold_left (λ acc xy, (acc + fst xy * snd xy)%float) (combine a a) acc)
  = true.
Proof.
  revert acc. induction a as [|y a IH]; intros acc; simpl.
  - by intros [Hacc|[[] _]].
  - intros [Hacc|[[->|Hin] Hx]]; apply IH.
    + left. by apply is_nan_add_l.
    + left. by apply is_nan_add_r, is_nan_mul_l.
    + right. done.
Qed.

Lemma truthy_num_nan (x : float) :
  PrimFloat.is_nan x = true → JS.truthy_num x = false.
Proof. unfold JS.truthy_num. intros ->. by rewrite andb_false_r. Qed.
End FloatAlgebra.

(** X13.  The cosine similarity of the key/value class is symmetric:
    [cosineSimilarity(a, b)] and [cosineSimilarity(b, a)] are the same
    binary64 number, for all vectors, whatever their lengths and
    components. *)
Theorem X13_cosine_symmetric (a b : vector) :
  Valkey.cosineSimilarity a b = Valkey.cosineSimilarity b a.
Proof.
  unfold Valkey.cosineSimilarity. rewrite (Nat.eqb_sym (length b)).
  destruct (length a =? length b)%nat eqn:Hlen; [|done].
  apply Nat.eqb_eq in Hlen. simpl negb. cbv iota.
  rewrite (cosine_sums_spec a b), (cosine_sums_spec b a) by done.
  unfold Cosine.dot. rewrite (dot_comm_fold b a).
  rewrite (andb_comm (JS.truthy_num (Cosine.norm2 b))).
  by rewrite (float_mul_comm (PrimFloat.sqrt (Cosine.norm2 b))).
Qed.

(** X14.  A NaN among the components never reaches the score: when a
    component of either vector is NaN, [cosineSimilarity] returns 0 (the
    sum of squares is NaN, which the test of the norms takes for
    zero). *)
Theorem X14_cosine_nan (a b : vector) (x : float) :
  In x a ∨ In x b → PrimFloat.is_nan x = true →
  Valkey.cosineSimilarity a b = 0%float.
Proof.
  intros Hin Hx. unfold Valkey.cosineSimilarity.
  destruct (length a =? length b)%nat eqn:Hlen; [|done].
  apply Nat.eqb_eq in Hlen. simpl negb. cbv iota.
  rewrite cosine_sums_spec by done. unfold Cosine.norm2, Cosine.dot.
  destruct Hin as [Hin|Hin].
  - rewrite (truthy_num_nan
               (fold_left _ (combine a a) 0%float)); [done|].
    apply (norm2_nan_fold a _ x). by right.
  - rewrite (truthy_num_nan
               (fold_left _ (combine b b) 0%float));
      [by rewrite andb_false_r|].
    apply (norm2_nan_fold b _ x). by right.
Qed.

(** A NaN in the first vector. *)
Lemma X14_cosine_nan_witness :
  Valkey.cosineSimilarity [nan; 1]%float [1; 2]%float = 0%float.
Proof.
  apply (X14_cosine_nan [nan; 1]%float [1; 2]%float nan).
  - left. by left.
  - reflexivity.
Defined.

Section ReplyDefaults.
Context {host : Host}.

(** A field the reply does not list keeps the value the reader starts
    with. *)
Lemma read_fields_absent pairs (i0 : string) (d0 : float) (u0 : string) :
  ∃ i d u,
    Valkey.read_fields (Valkey.flatten pairs) (i0, d0, u0) = (i, d, u) ∧
    ((∀ v, ¬ In ("id", v) pairs) → i = i0) ∧
    ((∀ v, ¬ In ("score", v) pairs) → d = d0) ∧
    ((∀ v, ¬ In ("user_id", v) pairs) → u = u0).
Proof.
  revert i0 d0 u0. induction pairs as [|[n v] pairs IH]; intros i0 d0 u0.
  - exists i0, d0, u0. done.
  - change (Valkey.flatten ((n, v) :: pairs))
      with (n :: v :: Valkey.flatten pairs).
    simpl Valkey.read_fields.
    destruct (IH (if String.eqb n "id" then v else i0)
                 (if String.eqb n "score" then parseFloat v else d0)
                 (if String.eqb n "user_id" then v else u0))
      as (i & d & u & -> & Hi & Hd & Hu).
    exists i, d, u. split; [done|].
    split; [|split]; intros Hno.
    + rewrite Hi by (intros w Hw; apply (Hno w); by right).
      destruct (String.eqb n "id") eqn:E; [|done].
      apply String.eqb_eq in E as ->. destruct (Hno v). by left.
    + rewrite Hd by (intros w Hw; apply (Hno w); by right).
      destruct (String.eqb n "score") eqn:E; [|done].
      apply String.eqb_eq in E as ->. destruct (Hno v). by left.
    + rewrite Hu by (intros w Hw; apply (Hno w); by right).
      destruct (String.eqb n "user_id") eqn:E; [|done].
      apply String.eqb_eq in E as ->. destruct (Hno v). by left.
Qed.
End ReplyDefaults.

(** X15.  What the native path of the key/value [searchSimilar] makes of
    a reply document that lacks a field.  Without [id] field the id is
    the last [':']-segment of the document's key.  Without [score] field
    the distance counts as 0, so that the document is scored 1.  Without
    [user_id] field the tenant counts as the empty string: the document
    is dropped by every search made with a (non-empty) [user_id], and
    kept by a search made without. *)
Theorem X15_reply_defaults {host : Host} (key : string)
    (pairs : list (string * string)) :
  let d : Redis.document := (key, Valkey.flatten pairs) in
  ((∀ v, ¬ In ("id", v) pairs) →
   s_id (fst (Valkey.read_document d)) = JS.split_pop key) ∧
  ((∀ v, ¬ In ("score", v) pairs) →
   s_score (fst (Valkey.read_document d)) = 1%float) ∧
  ((∀ v, ¬ In ("user_id", v) pairs) →
   (∀ U, U ≠ EmptyString →
      Valkey.tenant_ok (Some U) (Some (snd (Valkey.read_document d)))
      = false) ∧
   Valkey.tenant_ok None (Some (snd (Valkey.read_document d))) = true).
Proof.
  intros d. unfold d, Valkey.read_document.
  destruct (read_fields_absent pairs EmptyString 0%float EmptyString)
    as (i & dist & u & -> & Hi & Hd & Hu).
  simpl. split; [|split].
  - intros Hno. by rewrite (Hi Hno).
  - intros Hno. by rewrite (Hd Hno).
  - intros Hno. rewrite (Hu Hno). split; [|done].
    intros U HU. unfold Valkey.tenant_ok.
    rewrite truthy_str_nonempty by done. simpl.
    destruct U; [done|reflexivity].
Qed.

(** X16.  Every result of a search is [{id, score}] of one stored record
    of the sector that passes the tenant filter, the score being the
    similarity of the query and the record's stored vector.
    - In the compatibility mode of the relational class, for every
      sector string and table: the imported cosine similarity of the
      query and the decoded vector of the row.
    - In its native mode, when the engine carries out the query: one
      minus the engine's cosine distance.
    - On the fallback path of the key/value class, whenever it returns:
      the cosine similarity of the class, of the query and the vector
      the codec has decoded from the record's payload (for a sector
      without [':'] and glob metacharacter, on a store written by
      [storeVector] whose records have no [':'] in their sector and
      id). *)
Theorem X16_search_scores {embed : Embed} {host : Host} {pg : PgVector}
    {server : Redis.Server}
    (σ : Redis.store) (t0 : Postgres.table false) (t1 : Postgres.table true)
    (sector : string) (q : vector) (k : nat) (user_id : option string) :
  (Valkey.wf σ → Valkey.colon_free_store σ →
   colon_free sector → glob_free sector →
   ∀ out x, Valkey.fallback sector q k user_id σ = Redis.Returned out →
     In x out →
     ∃ r v, Valkey.holds σ r ∧ Valkey.rec_sector r = sector ∧
            Valkey.tenant_ok user_id (Some (Valkey.rec_user_id r)) = true ∧
            Valkey.decoded r = Redis.Returned v ∧
            x = Scored (Valkey.rec_id r) (Valkey.cosineSimilarity q v)) ∧
  (∀ x, In x (Postgres.searchSimilar false sector q k user_id t0) →
     ∃ r, In r t0 ∧ Postgres.search_filter sector user_id r = true ∧
          x = Scored (Postgres.r_id r)
                (cosineSimilarity q (bufferToVector (Postgres.r_v r)))) ∧
  (Postgres.search_accepted true sector q user_id t1 = true →
   ∀ x, In x (Postgres.searchSimilar true sector q k user_id t1) →
     ∃ r, In r t1 ∧ Postgres.search_filter sector user_id r = true ∧
          x = Scored (Postgres.r_id r)
                (1 - cosine_distance (Postgres.r_v r)
                       (vector_in (JSON_stringify q)))%float).
Proof.
  split; [|split].
  - intros Hwf Hcf Hs Hg out x Hout Hin.
    destruct (fallback_In _ _ _ _ _ _ _ Hwf Hout Hin)
      as (r & v & Hr & Hm & Ht & Hv & ->).
    destruct (Hcf r Hr) as [Hri Hrs].
    apply glob_sector_pattern in Hm as [rest Hk]; [|done].
    apply getKey_prefix_inv in Hk as [Hsec _]; [|done..].
    exists r, v. split; [done|]. split; [done|]. split; [done|].
    split; [done|]. unfold Valkey.key_of. by rewrite getKey_pop.
  - simpl. unfold JSArray.slice0, JSArray.sort. intros x Hin.
    apply firstn_In, stable_sort_In, in_map_iff in Hin as (r & <- & Hin).
    apply List.filter_In in Hin as [Hin Hf]. by exists r.
  - intros _. simpl. unfold SQL.limit, SQL.order_by. intros x Hin.
    apply in_map_iff in Hin as (r & <- & Hin).
    apply firstn_In, stable_sort_In, List.filter_In in Hin as [Hin Hf].
    by exists r.
Qed.

(** The scores on the scenario: every result of the fallback search on
    the records with the empty vector, and of the compatibility mode, is
    the score of a stored record. *)
Lemma X16_search_scores_witness :
  (∀ out x,
     Valkey.fallback (embed := Reference.embed) (server := Reference.server)
       "s" [1; 0]%float 2 None Scenario.bare = Redis.Returned out →
     In x out →
     ∃ r v, Valkey.holds Scenario.bare r ∧ Valkey.rec_sector r = "s" ∧
            Valkey.tenant_ok None (Some (Valkey.rec_user_id r)) = true ∧
            Valkey.decoded (embed := Reference.embed) r = Redis.Returned v ∧
            x = Scored (Valkey.rec_id r)
                  (Valkey.cosineSimilarity [1; 0]%float v)) ∧
  (∀ x, In x (Postgres.searchSimilar (embed := Reference.embed)
                (host := Reference.host) (pg := Reference.pgvector) false
                "s" [1; 0]%float 2 None (Scenario.table false)) →
     ∃ r, In r (Scenario.table false) ∧
          Postgres.search_filter "s" None r = true ∧
          x = Scored (Postgres.r_id r)
                (cosineSimilarity (Embed := Reference.embed) [1; 0]%float
                   (Reference.decode (Postgres.r_v r)))).
Proof.
  destruct (X16_search_scores (embed := Reference.embed)
              (host := Reference.host) (pg := Reference.pgvector)
              (server := Reference.server)
              Scenario.bare (Scenario.table false) (Scenario.table true)
              "s" [1; 0]%float 2 None)
    as (Hkv & Hcompat & _).
  split; [|exact Hcompat].
  exact (Hkv bare_wf bare_colon_free eq_refl eq_refl).
Defined.

(** X17.  A deleted record is not found by a search.  After
    [deleteVectors(id)] no search returns the id, in any sector; after
    [deleteVector(id, sector)] no search in that sector returns it: on
    the relational class for every id, sector and table; on the fallback
    path of the key/value class, whenever it returns, for an id without
    glob metacharacter and a sector without [':'] and glob
    metacharacter, on a store written by [storeVector] whose records
    have no [':'] in their sector and id. *)
Theorem X17_deleted_not_found {embed : Embed} {host : Host} {pg : PgVector}
    {server : Redis.Server}
    (σ : Redis.store) (m : bool) (t : Postgres.table m)
    (id sector : string) (q : vector) (k : nat) (user_id : option string) :
  (Valkey.wf σ → Valkey.colon_free_store σ →
   glob_free id → colon_free sector → glob_free sector →
   (∀ s out x,
      Valkey.fallback s q k user_id (Valkey.deleteVectors id σ)
        = Redis.Returned out →
      In x out → s_id x ≠ id) ∧
   (∀ out x,
      Valkey.fallback sector q k user_id (Valkey.deleteVector id sector σ)
        = Redis.Returned out →
      In x out → s_id x ≠ id)) ∧
  ((∀ s x, In x (Postgres.searchSimilar m s q k user_id
                   (Postgres.deleteVectors id t)) →
           s_id x ≠ id) ∧
   (∀ x, In x (Postgres.searchSimilar m sector q k user_id
                 (Postgres.deleteVector id sector t)) →
         s_id x ≠ id)).
Proof.
  split; [intros Hwf Hcf Hgi Hs Hgs; split|split].
  - intros s out x Hout Hin Hid.
    destruct (fallback_In _ _ _ _ _ _ _ (wf_deleteVectors _ _ Hwf) Hout Hin)
      as (r & v & Hr & _ & _ & _ & ->).
    unfold Valkey.holds in Hr. rewrite deleteVectors_lookup in Hr.
    destruct (decide _) as [|Hn]; [done|].
    destruct (Hcf r Hr) as [Hri _]. simpl in Hid.
    unfold Valkey.key_of in Hid. rewrite getKey_pop in Hid by done.
    apply Hn. split; [by rewrite Hr|].
    apply glob_id_pattern; [done|]. exists (Valkey.rec_sector r).
    unfold Valkey.key_of. by rewrite Hid.
  - intros out x Hout Hin Hid.
    destruct (fallback_In _ _ _ _ _ _ _ (wf_deleteVector _ _ _ Hwf) Hout Hin)
      as (r & v & Hr & Hm & _ & _ & ->).
    unfold Valkey.holds in Hr. rewrite deleteVector_lookup in Hr.
    destruct (decide _) as [|Hn]; [done|].
    destruct (Hcf r Hr) as [Hri Hrs]. simpl in Hid.
    unfold Valkey.key_of in Hid. rewrite getKey_pop in Hid by done.
    apply glob_sector_pattern in Hm as [rest Hk]; [|done].
    apply getKey_prefix_inv in Hk as [Hsec _]; [|done..].
    apply Hn. unfold Valkey.key_of. by rewrite Hid, Hsec.
  - intros s x (r & Hin & _ & Hx)%searchSimilar_rows Hid.
    apply deleteVectors_In in Hin as [_ Hne]. congruence.
  - intros x (r & Hin & Hf & Hx)%searchSimilar_rows Hid.
    apply search_filter_true in Hf as [Hsec _].
    apply deleteVector_In in Hin as [_ Hne]. apply Hne.
    by rewrite <- Hx, Hid, Hsec.
Qed.

(** The scenario's records with the empty vector after the record [a] is
    deleted, and a table after a delete of an id with [':']. *)
Lemma X17_deleted_not_found_witness :
  (∀ out x,
     Valkey.fallback (embed := Reference.embed) (server := Reference.server)
       "s" [1; 0]%float 2 None
       (Valkey.deleteVectors (server := Reference.server) "a" Scenario.bare)
       = Redis.Returned out →
     In x out → s_id x ≠ "a") ∧
  (∀ x, In x (Postgres.searchSimilar (embed := Reference.embed)
                (host := Reference.host) (pg := Reference.pgvector) false
                "s:x" [1; 0]%float 2 None
                (Postgres.deleteVectors "a:*" (Scenario.table false))) →
        s_id x ≠ "a:*").
Proof.
  destruct (X17_deleted_not_found (embed := Reference.embed)
              (host := Reference.host) (pg := Reference.pgvector)
              (server := Reference.server)
              Scenario.bare false (Scenario.table false) "a" "s"
              [1; 0]%float 2 None)
    as [Hkv _].
  destruct (X17_deleted_not_found (embed := Reference.embed)
              (host := Reference.host) (pg := Reference.pgvector)
              (server := Reference.server)
              Scenario.bare false (Scenario.table false) "a:*" "s:x"
              [1; 0]%float 2 None)
    as [_ [Hpg _]].
  split; [|exact (Hpg "s:x")].
  exact (proj1 (Hkv bare_wf bare_colon_free eq_refl eq_refl eq_refl) "s").
Defined.

Section AgreementFacts.
Import Agreement.
Context {embed : Embed} {host : Host} {pg : PgVector} {server : Redis.Server}.

Lemma row_of_record_of (row : Postgres.row false) :
  row_of (record_of row) = row.
Proof. by destruct row. Qed.

Lemma row_of_inj (r r' : Valkey.record) : row_of r = row_of r' → r = r'.
Proof. destruct r, r'. unfold row_of. simpl. by intros [= -> -> -> -> ->]. Qed.

(** The records of the keyspace after a store. *)
Lemma holds_storeVector id sector v dim user_id (σ : Redis.store) r :
  Valkey.wf σ → Valkey.colon_free_store σ → colon_free sector →
  Valkey.holds (Valkey.storeVector id sector v dim user_id σ) r ↔
  r = Valkey.written id sector v dim user_id ∨
  (Valkey.holds σ r ∧ (Valkey.rec_id r, Valkey.rec_sector r) ≠ (id, sector)).
Proof.
  intros Hwf Hcf Hs. unfold Valkey.holds at 1.
  rewrite storeVector_insert by done. rewrite lookup_insert_Some. split.
  - intros [[_ Hh]|[Hne Hr]].
    + left. symmetry. by apply hash_of_inj.
    + right. split; [done|]. intros [= Hi Hsec]. apply Hne.
      unfold Valkey.key_of. by rewrite Hi, Hsec.
  - intros [->|[Hr Hne]]; [by left|]. right. split; [|done].
    intros Hk. symmetry in Hk. apply getKey_inj_sector in Hk as [Hi Hsec];
      [|by apply Hcf|done].
    apply Hne. by rewrite Hi, Hsec.
Qed.

(** The rows of the table after an upsert. *)
Lemma upsert_In {m} (new r : Postgres.row m) (t : Postgres.table m) :
  Postgres.unique_key t →
  In r (Postgres.upsert new t) ↔
  r = new ∨
  (In r t ∧ (Postgres.r_id r, Postgres.r_sector r)
            ≠ (Postgres.r_id new, Postgres.r_sector new)).
Proof.
  intros Hu.
  destruct (Postgres.has_key (Postgres.r_id new) (Postgres.r_sector new) r)
    eqn:Hk.
  - split.
    + intros Hin. left.
      assert (In r (SQL.select_where
                      (Postgres.has_key (Postgres.r_id new)
                         (Postgres.r_sector new))
                      (Postgres.upsert new t))) as Hsel
        by (apply List.filter_In; done).
      rewrite upsert_select_key in Hsel by done.
      by destruct Hsel as [<-|[]].
    + intros [->|[_ Hne]]; [apply upsert_In_new|].
      apply has_key_true in Hk as [Hi Hsec]. destruct Hne.
      by rewrite Hi, Hsec.
  - rewrite upsert_other by done. split.
    + intros Hin. right. split; [done|]. intros [= Hi Hsec].
      assert (Postgres.has_key (Postgres.r_id new) (Postgres.r_sector new) r
              = true) by by apply has_key_true.
      congruence.
    + intros [->|[Hin _]]; [by rewrite has_key_self in Hk|done].
Qed.

Lemma same_records_empty : same_records ∅ [].
Proof.
  split; [apply wf_empty|].
  split; [intros r Hr; unfold Valkey.holds in Hr; by rewrite lookup_empty in Hr|].
  split; [intros r Hr; unfold Valkey.holds in Hr; by rewrite lookup_empty in Hr|].
  split; [apply NoDup_nil_2|].
  intros r. unfold Valkey.holds. rewrite lookup_empty. by split.
Qed.

(** A plain write keeps the two stores in step. *)
Lemma same_records_perform (w : write) (σ : Redis.store)
    (t : Postgres.table false) :
  plain w → same_records σ t →
  same_records (Valkey.perform w σ) (Postgres.perform false w t).
Proof.
  intros Hw (Hwf & Hcf & Hv & Hu & Hsame).
  destruct w as [id sector v dim user_id|id sector|id]; simpl in Hw.
  - destruct Hw as (Hid & Hsec & Hpay).
    change (Valkey.perform (StoreVector id sector v dim user_id) σ)
      with (Valkey.storeVector id sector v dim user_id σ).
    change (Postgres.perform false (StoreVector id sector v dim user_id) t)
      with (Postgres.storeVector false id sector v dim user_id t).
    split; [by apply wf_storeVector|].
    split; [|split; [|split]].
    + intros r [->|[Hr _]]%holds_storeVector; [done|by apply Hcf|done..].
    + intros r [->|[Hr _]]%holds_storeVector; [done|by apply Hv|done..].
    + rewrite storeVector_upsert. by apply upsert_unique.
    + intros r. rewrite holds_storeVector by done.
      rewrite storeVector_upsert, upsert_In by done.
      rewrite Hsame. split.
      * intros [->|[Hin Hne]]; [by left|]. right. split; [done|].
        simpl. done.
      * intros [Heq|[Hin Hne]]; [left; by apply row_of_inj|].
        right. split; [done|]. simpl in Hne. done.
  - destruct Hw as (Hid & Hsec).
    change (Valkey.perform (DeleteVector id sector) σ)
      with (Valkey.deleteVector id sector σ).
    change (Postgres.perform false (DeleteVector id sector) t)
      with (Postgres.deleteVector id sector t).
    assert (Hholds : ∀ r, Valkey.holds (Valkey.deleteVector id sector σ) r ↔
              Valkey.holds σ r ∧
              (Valkey.rec_id r, Valkey.rec_sector r) ≠ (id, sector)).
    { intros r. unfold Valkey.holds at 1. rewrite deleteVector_lookup.
      destruct (decide _) as [Hk|Hk].
      - split; [done|]. intros [Hr Hne]. exfalso.
        apply getKey_inj_sector in Hk as [Hi Hs]; [|by apply Hcf|done].
        apply Hne. by rewrite Hi, Hs.
      - split; [|by intros [? _]]. intros Hr. split; [done|].
        intros [= Hi Hs]. apply Hk. unfold Valkey.key_of. by rewrite Hi, Hs. }
    split; [by apply wf_deleteVector|].
    split; [|split; [|split]].
    + intros r [Hr _]%Hholds. by apply Hcf.
    + intros r [Hr _]%Hholds. by apply Hv.
    + by apply filter_unique.
    + intros r. rewrite Hholds, deleteVector_In, Hsame. done.
  - destruct Hw as (Hid & Hg).
    change (Valkey.perform (DeleteVectors id) σ)
      with (Valkey.deleteVectors id σ).
    change (Postgres.perform false (DeleteVectors id) t)
      with (Postgres.deleteVectors id t).
    assert (Hholds : ∀ r, Valkey.holds (Valkey.deleteVectors id σ) r ↔
              Valkey.holds σ r ∧ Valkey.rec_id r ≠ id).
    { intros r. unfold Valkey.holds at 1. rewrite deleteVectors_lookup.
      destruct (decide _) as [[_ Hm]|Hn].
      - split; [done|]. intros [Hr Hne]. exfalso.
        apply glob_id_pattern in Hm as [a Hk]; [|done].
        apply getKey_suffix_inv in Hk as [Hi _]; [done|done|by apply Hcf].
      - split; [|by intros [? _]]. intros Hr. split; [done|].
        intros Hi. apply Hn. split; [by rewrite Hr|].
        apply glob_id_pattern; [done|]. exists (Valkey.rec_sector r).
        unfold Valkey.key_of. by rewrite Hi. }
    split; [by apply wf_deleteVectors|].
    split; [|split; [|split]].
    + intros r [Hr _]%Hholds. by apply Hcf.
    + intros r [Hr _]%Hholds. by apply Hv.
    + by apply filter_unique.
    + intros r. rewrite Hholds, deleteVectors_In, Hsame. done.
Qed.

Lemma same_records_run (ws : list write) (σ : Redis.store)
    (t : Postgres.table false) :
  Forall plain ws → same_records σ t →
  same_records (fold_left (λ σ w, Valkey.perform w σ) ws σ)
               (fold_left (λ t w, Postgres.perform false w t) ws t).
Proof.
  intros Hws. revert σ t.
  induction Hws as [|w ws Hw Hws IH]; intros σ t Hsame; simpl; [done|].
  by apply IH, same_records_perform.
Qed.
End AgreementFacts.

(** X18.  The two classes hold the same records.  After the same
    sequence of [storeVector], [deleteVector] and [deleteVectors] calls
    on an empty store, the keyspace of the key/value class and the table
    of the compatibility mode hold the same records, field by field, and
    [getVector] answers not-found on the one exactly when it does on the
    other.  Where the key/value [getVector] returns a value, the
    relational one returns the row of the same pair: the vector of the
    one is what the codec decodes from the reply that carries the
    payload of the row, its dim the one read from the numeral of the
    row's dim.  This holds for calls with plain names (no [':'] in ids
    and sectors, no glob metacharacter in the id of a [deleteVectors])
    and payloads that are not the empty buffer, and for reads of a
    sector without [':']. *)
Theorem X18_classes_agree {embed : Embed} {host : Host} {pg : PgVector}
    {server : Redis.Server} (ws : list write) :
  Forall Agreement.plain ws →
  let σ := fold_left (λ σ w, Valkey.perform w σ) ws ∅ in
  let t := fold_left (λ t w, Postgres.perform false w t) ws [] in
  (∀ r, Valkey.holds σ r ↔ In (Agreement.row_of r) t) ∧
  (∀ id sector, colon_free sector →
     Valkey.getVector id sector σ = Redis.Returned None ↔
     Postgres.getVector false id sector t = None) ∧
  (∀ id sector x, colon_free sector →
     Valkey.getVector id sector σ = Redis.Returned (Some x) →
     ∃ row, In row t ∧
       Postgres.r_id row = id ∧ Postgres.r_sector row = sector ∧
       Postgres.getVector false id sector t
       = Some (VecDim (bufferToVector (Postgres.r_v row))
                      (Some (Postgres.r_dim row))) ∧
       bufferToVector_reply (Some (Postgres.r_v row))
       = Redis.Returned (vd_vector x) ∧
       vd_dim x = Num.parseInt (Num.toString (Postgres.r_dim row))).
Proof.
  intros Hws σ t.
  destruct (same_records_run ws ∅ [] Hws same_records_empty)
    as (Hwf & Hcf & Hv & Hu & Hsame).
  fold σ in Hwf, Hcf, Hv, Hsame. fold t in Hu, Hsame.
  assert (Hfound : ∀ id sector, colon_free sector →
            (σ !! Valkey.getKey id sector = None ∧
             Postgres.getVector false id sector t = None) ∨
            ∃ r, Valkey.holds σ r ∧ Valkey.rec_id r = id ∧
                 Valkey.rec_sector r = sector ∧
                 Postgres.getVector false id sector t
                 = Some (VecDim (bufferToVector (Valkey.rec_v r))
                                (Some (Valkey.rec_dim r)))).
  { intros id sector Hs.
    destruct (σ !! Valkey.getKey id sector) as [h|] eqn:Hk.
    - right. destruct (Hwf _ _ Hk) as (r & Hkey & ->).
      assert (Hr : Valkey.holds σ r)
        by (unfold Valkey.holds; by rewrite <- Hkey).
      apply getKey_inj_sector in Hkey as [-> ->];
        [|done|by apply Hcf].
      exists r. split; [done|]. split; [done|]. split; [done|].
      unfold Postgres.getVector.
      pose proof (unique_key_select (Agreement.row_of r) t Hu
                    (proj1 (Hsame r) Hr)) as Hsel.
      simpl in Hsel. by rewrite Hsel.
    - left. split; [done|]. apply getVector_no_row.
      intros row Hin [= Hi Hsec].
      rewrite <- (row_of_record_of row) in Hin. apply Hsame in Hin.
      unfold Valkey.holds, Valkey.key_of in Hin. simpl in Hin.
      rewrite Hi, Hsec, Hk in Hin. done. }
  split; [done|]. split.
  - intros id sector Hs.
    destruct (Hfound id sector Hs) as [[Hk Hpg]|(r & Hr & <- & <- & Hpg)].
    + by rewrite getVector_absent.
    + rewrite (getVector_holds _ _ Hr), Hpg.
      rewrite truthy_str_nonempty by by apply Hv.
      split; [|done]. by destruct (Valkey.decoded r).
  - intros id sector x Hs Hx.
    destruct (Hfound id sector Hs) as [[Hk Hpg]|(r & Hr & <- & <- & Hpg)].
    + by rewrite getVector_absent in Hx.
    + rewrite (getVector_holds _ _ Hr) in Hx.
      rewrite truthy_str_nonempty in Hx by by apply Hv.
      unfold Valkey.decoded in Hx.
      destruct (bufferToVector_reply (Some (Valkey.rec_v r))) as [w|e] eqn:Hw;
        [|done].
      injection Hx as <-. exists (Agreement.row_of r).
      split; [by apply Hsame|]. done.
Qed.

(** The agreement after a store of [a] under two sectors, a store of [b]
    and a [deleteVectors] of [a]: both classes hold [b] alone, and
    neither finds [a]. *)
Lemma X18_classes_agree_witness :
  let ws := [ StoreVector "a" "s" [1; 0]%float 2 None;
              StoreVector "a" "s2" [0; 1]%float 2 (Some "bob");
              StoreVector "b" "s" [0; 1]%float 2 None;
              DeleteVectors "a" ] in
  let σ := fold_left
             (λ σ w, Valkey.perform (embed := Reference.embed)
                       (server := Reference.server) w σ) ws ∅ in
  let t := fold_left
             (λ t w, Postgres.perform (embed := Reference.embed)
                       (host := Reference.host) (pg := Reference.pgvector)
                       false w t) ws [] in
  (∀ r, Valkey.holds σ r ↔ In (Agreement.row_of r) t) ∧
  (Valkey.getVector (embed := Reference.embed) "a" "s2" σ
   = Redis.Returned None ↔
   Postgres.getVector (embed := Reference.embed) (host := Reference.host)
     (pg := Reference.pgvector) false "a" "s2" t = None).
Proof.
  intros ws σ t.
  assert (Hws : Forall (Agreement.plain (embed := Reference.embed)) ws).
  { repeat constructor; try reflexivity; vm_compute; discriminate. }
  destruct (X18_classes_agree (embed := Reference.embed)
              (host := Reference.host) (pg := Reference.pgvector)
              (server := Reference.server) ws Hws)
    as (Hrec & Hget & _).
  split; [exact Hrec|]. apply Hget. reflexivity.
Defined.

Section SectorFrameFacts.
Context {embed : Embed} {host : Host} {pg : PgVector}.

(** An upsert under one sector leaves the rows selected by a clause on
    another sector as they are, in their order. *)
Lemma select_upsert_other {m} (P : Postgres.row m → bool)
    (new : Postgres.row m) (t : Postgres.table m) :
  (∀ r, Postgres.r_sector r = Postgres.r_sector new → P r = false) →
  SQL.select_where P (Postgres.upsert new t) = SQL.select_where P t.
Proof.
  intros HP. unfold SQL.select_where, Postgres.upsert.
  induction t as [|r t IH]; simpl.
  - by rewrite HP.
  - destruct (Postgres.conflict r new) eqn:Hk; simpl.
    + rewrite (excluded_conflict _ _ Hk), List.filter_app. simpl.
      apply has_key_true in Hk as [_ Hs].
      rewrite (HP new eq_refl), (HP r Hs). by rewrite app_nil_r.
    + by rewrite IH.
Qed.

Lemma select_delete_key_other {m} (P : Postgres.row m → bool) id sector
    (t : Postgres.table m) :
  (∀ r, Postgres.r_sector r = sector → P r = false) →
  SQL.select_where P (Postgres.deleteVector id sector t)
  = SQL.select_where P t.
Proof.
  intros HP. unfold Postgres.deleteVector. apply select_delete_other.
  intros r Hr. destruct (Postgres.has_key id sector r) eqn:Hk; [|done].
  apply has_key_true in Hk as [_ Hs]. rewrite (HP r Hs) in Hr. done.
Qed.

Lemma search_filter_other_sector {m} sector sector' user_id
    (r : Postgres.row m) :
  sector' ≠ sector → Postgres.r_sector r = sector' →
  Postgres.search_filter sector user_id r = false.
Proof.
  intros Hne Hs. unfold Postgres.search_filter, Postgres.has_sector.
  rewrite Hs. apply String.eqb_neq in Hne. by rewrite Hne.
Qed.

(** The search reads the table through its [where] clause only. *)
Lemma searchSimilar_select m sector q k user_id (t t' : Postgres.table m) :
  SQL.select_where (Postgres.search_filter sector user_id) t'
  = SQL.select_where (Postgres.search_filter sector user_id) t →
  Postgres.searchSimilar m sector q k user_id t'
  = Postgres.searchSimilar m sector q k user_id t.
Proof. intros Heq. destruct m; simpl; by rewrite Heq. Qed.
End SectorFrameFacts.

Section ListingFrame.
Import Redis.
Context {B : Type}.

(** Two calls that return together, and whose entries are described
    alike, list the same entries. *)
Lemma lists_frame (o o' : outcome (list B)) (E : B → Prop) :
  (returned o ↔ returned o') →
  (∀ out, o = Returned out → ∀ x, In x out ↔ E x) →
  (∀ out, o' = Returned out → ∀ x, In x out ↔ E x) →
  ∀ x, lists o x ↔ lists o' x.
Proof.
  intros Hret Ho Ho' x. split.
  - intros (out & Hout & Hin).
    destruct (proj1 Hret (ex_intro _ out Hout)) as [out' Hout'].
    exists out'. split; [done|].
    apply (Ho' out' Hout'), (Ho out Hout), Hin.
  - intros (out' & Hout' & Hin).
    destruct (proj2 Hret (ex_intro _ out' Hout')) as [out Hout].
    exists out. split; [done|].
    apply (Ho out Hout), (Ho' out' Hout'), Hin.
Qed.
End ListingFrame.

(** X19.  A write under one sector does not show in another sector.
    On the relational class, in both modes, [storeVector] and
    [deleteVector] under sector [s1] leave the results of [searchSimilar]
    and the listing of [getVectorsBySector] of every other sector as they
    are, order included.  On the key/value class a [storeVector] under
    [s1] leaves the entries of [getVectorsBySector] and the candidates
    of the fallback search of every other sector as they are, for sectors
    without [':'] (the sector read without glob metacharacter), on a
    store written by [storeVector] whose records have no [':'] in their
    sector and id: the read returns after the write exactly when it
    returns before it, with the same entries. *)
Theorem X19_sector_frame {embed : Embed} {host : Host} {pg : PgVector}
    {server : Redis.Server}
    (σ : Redis.store) (m : bool) (t : Postgres.table m)
    (id s1 s2 : string) (v q : vector) (dim : Z) (k : nat)
    (u user_id : option string) :
  s1 ≠ s2 →
  (Postgres.searchSimilar m s2 q k user_id
     (Postgres.storeVector m id s1 v dim u t)
   = Postgres.searchSimilar m s2 q k user_id t ∧
   Postgres.getVectorsBySector m s2 (Postgres.storeVector m id s1 v dim u t)
   = Postgres.getVectorsBySector m s2 t ∧
   Postgres.searchSimilar m s2 q k user_id (Postgres.deleteVector id s1 t)
   = Postgres.searchSimilar m s2 q k user_id t ∧
   Postgres.getVectorsBySector m s2 (Postgres.deleteVector id s1 t)
   = Postgres.getVectorsBySector m s2 t) ∧
  (Valkey.wf σ → Valkey.colon_free_store σ →
   colon_free s1 → colon_free s2 → glob_free s2 →
   ((Redis.returned (Valkey.getVectorsBySector s2
                       (Valkey.storeVector id s1 v dim u σ)) ↔
     Redis.returned (Valkey.getVectorsBySector s2 σ)) ∧
    (∀ x, Redis.lists (Valkey.getVectorsBySector s2
                         (Valkey.storeVector id s1 v dim u σ)) x ↔
          Redis.lists (Valkey.getVectorsBySector s2 σ) x)) ∧
   ((Redis.returned (Valkey.scan_all s2 user_id
                       (Valkey.storeVector id s1 v dim u σ)) ↔
     Redis.returned (Valkey.scan_all s2 user_id σ)) ∧
    (∀ x, Redis.lists (Valkey.scan_all s2 user_id
                         (Valkey.storeVector id s1 v dim u σ)) x ↔
          Redis.lists (Valkey.scan_all s2 user_id σ) x))).
Proof.
  intros Hne. split.
  - assert (Hf : ∀ r : Postgres.row m, Postgres.r_sector r = s1 →
              Postgres.search_filter s2 user_id r = false)
      by (intros r; by apply search_filter_other_sector).
    assert (Hs : ∀ r : Postgres.row m, Postgres.r_sector r = s1 →
              Postgres.has_sector s2 r = false).
    { intros r Hr. unfold Postgres.has_sector. rewrite Hr.
      by apply String.eqb_neq. }
    rewrite storeVector_upsert. split; [|split; [|split]].
    + apply searchSimilar_select. by apply select_upsert_other.
    + unfold Postgres.getVectorsBySector.
      by rewrite select_upsert_other.
    + apply searchSimilar_select. by apply select_delete_key_other.
    + unfold Postgres.getVectorsBySector.
      by rewrite select_delete_key_other.
  - intros Hwf Hcf Hs1 Hs2 Hg.
    assert (Hwf' : Valkey.wf (Valkey.storeVector id s1 v dim u σ))
      by by apply wf_storeVector.
    assert (Hsame : ∀ r,
              Glob.matches ("vec:" +:+ s2 +:+ ":*") (Valkey.key_of r) = true →
              Valkey.holds (Valkey.storeVector id s1 v dim u σ) r ↔
              Valkey.holds σ r).
    { intros r Hm. apply glob_sector_pattern in Hm as [rest Hk]; [|done].
      rewrite holds_storeVector by done. split.
      - intros [->|[Hr _]]; [|done].
        apply getKey_prefix_inv in Hk as [Hs _]; done.
      - intros Hr. right. split; [done|]. intros [= _ Hs].
        destruct (Hcf r Hr) as [_ Hrs].
        apply getKey_prefix_inv in Hk as [Hs' _]; [|done..]. congruence. }
    split.
    + assert (Hret :
        Redis.returned (Valkey.getVectorsBySector s2
                          (Valkey.storeVector id s1 v dim u σ)) ↔
        Redis.returned (Valkey.getVectorsBySector s2 σ)).
      { rewrite !getVectorsBySector_returned by done.
        split; intros Hall r Hr Hm; apply Hall; try done;
          by apply (Hsame r Hm). }
      split; [done|].
      apply (lists_frame _ _
               (λ x, ∃ r w, Valkey.holds σ r ∧
                  Glob.matches ("vec:" +:+ s2 +:+ ":*") (Valkey.key_of r)
                  = true ∧
                  Valkey.decoded r = Redis.Returned w ∧
                  x = BySector (JS.split_pop (Valkey.key_of r)) w
                        (Valkey.dim_read r))); [done| |].
      * intros out Hout x.
        rewrite (getVectorsBySector_In _ _ _ _ Hwf' Hout).
        split; intros (r & w & Hr & Hm & Hrest); exists r, w;
          (split; [by apply (Hsame r Hm)|done]).
      * intros out Hout x. apply (getVectorsBySector_In _ _ _ _ Hwf Hout).
    + assert (Hret :
        Redis.returned (Valkey.scan_all s2 user_id
                          (Valkey.storeVector id s1 v dim u σ)) ↔
        Redis.returned (Valkey.scan_all s2 user_id σ)).
      { rewrite !scan_all_returned by done.
        split; intros Hall r Hr Hm; apply Hall; try done;
          by apply (Hsame r Hm). }
      split; [done|].
      apply (lists_frame _ _
               (λ x, ∃ r w, Valkey.holds σ r ∧
                  Glob.matches ("vec:" +:+ s2 +:+ ":*") (Valkey.key_of r)
                  = true ∧
                  Valkey.tenant_ok user_id (Some (Valkey.rec_user_id r))
                  = true ∧
                  Valkey.decoded r = Redis.Returned w ∧
                  x = (JS.split_pop (Valkey.key_of r), w))); [done| |].
      * intros out Hout x.
        rewrite (scan_all_In _ _ _ _ _ Hwf' Hout).
        split; intros (r & w & Hr & Hm & Hrest); exists r, w;
          (split; [by apply (Hsame r Hm)|done]).
      * intros out Hout x. apply (scan_all_In _ _ _ _ _ Hwf Hout).
Qed.

(** A store under sector [s2] and the reads of sector [s]. *)
Lemma X19_sector_frame_witness :
  Postgres.searchSimilar (embed := Reference.embed) (host := Reference.host)
    (pg := Reference.pgvector) false "s" [1; 0]%float 2 None
    (Postgres.storeVector (embed := Reference.embed) (host := Reference.host)
       (pg := Reference.pgvector) false "c" "s2" [1; 1]%float 2 None
       (Scenario.table false))
  = Postgres.searchSimilar (embed := Reference.embed) (host := Reference.host)
      (pg := Reference.pgvector) false "s" [1; 0]%float 2 None
      (Scenario.table false) ∧
  (Redis.lists
     (Valkey.getVectorsBySector (embed := Reference.embed)
        (server := Reference.server) "s"
        (Valkey.storeVector (embed := Reference.embed) "c" "s2" [] 0 None
           Scenario.bare))
     (BySector "a" [] (Some 0%Z)) ↔
   Redis.lists
     (Valkey.getVectorsBySector (embed := Reference.embed)
        (server := Reference.server) "s" Scenario.bare)
     (BySector "a" [] (Some 0%Z))).
Proof.
  destruct (X19_sector_frame (embed := Reference.embed)
              (host := Reference.host) (pg := Reference.pgvector)
              (server := Reference.server)
              Scenario.bare false (Scenario.table false) "c" "s2" "s"
              [1; 1]%float [1; 0]%float 2 2 None None ltac:(discriminate))
    as [(Hpg & _) _].
  destruct (X19_sector_frame (embed := Reference.embed)
              (host := Reference.host) (pg := Reference.pgvector)
              (server := Reference.server)
              Scenario.bare false (Scenario.table false) "c" "s2" "s"
              [] [1; 0]%float 0 2 None None ltac:(discriminate))
    as [_ Hkv].
  split; [exact Hpg|].
  exact (proj2 (proj1 (Hkv bare_wf bare_colon_free eq_refl eq_refl eq_refl))
           _).
Defined.
